(** * RequestList (src/request_list.js): a shallow embedding and its properties

    The class [RequestList] of the Apify SDK keeps an ordered array of
    requests with distinct [uniqueKey]s, a cursor [nextIndex] into it and two
    dictionaries used as sets, [inProgress] and [reclaimed].  This file
    embeds the class method by method and proves the properties of its
    specification about it.

    Modelling decisions, all taken from the source:
    - A method is a function from the object [this] to a result and the
      object after the call.  A [throw] (or a rejected promise) is the result
      [Throw]; the mutations done before the throw stay in the object.  Each
      promise callback runs to its end without interleaving, so a method is
      one step.
    - The dictionaries [inProgress] and [reclaimed] ("The key is uniqueKey,
      value is true") are finite sets of strings; [uniqueKeyToIndex] is a
      finite map.  They are plain JavaScript objects, so a property read also
      sees the properties inherited from [Object.prototype]; this is
      modelled ([objectPrototypeKeys]).
    - The objects are values here.  In the source [this.inProgress] is the
      very object [state.inProgress] of the restored state and the one that
      [getState()] hands out, while [this.reclaimed] is always an object of
      its own ([{}] or [_.clone]); no method reads a dictionary through one
      name after writing it through another, so nothing below depends on the
      sharing.
    - [state.nextIndex] is an arbitrary JavaScript value, since the code
      itself tests [typeof state.nextIndex !== 'number']; the numbers are
      abstracted just enough for comparisons with integers and for array
      indexing ([JsNum]).
    - What the class imports and the sources do not contain is an input
      ([Request] objects come built, the download of a [requestsFromUrl]
      source comes with the source) or a parameter ([getFirstKey]). *)

From Stdlib Require Import ZArith String List Lia.
From stdpp Require Import gmap strings list fin_sets.

Open Scope string_scope.
Open Scope list_scope.

#[local] Set Warnings "-clear-no-such-hyp".

(** ** JavaScript values *)

(** A JavaScript number, as far as the code can tell numbers apart: it only
    compares [nextIndex] with integers (0, array lengths and array indexes),
    increments it and uses it as an array index.  [JsFrac f] is any finite
    number strictly between the integers [f] and [f + 1]; [JsInt 0] also
    stands for [-0], which every operation used here treats like [0]. *)
Inductive JsNum : Type :=
  | JsNaN
  | JsPosInf
  | JsNegInf
  | JsInt (z : Z)
  | JsFrac (f : Z).

Inductive JsVal : Type :=
  | JsUndefined
  | JsNull
  | JsBool (b : bool)
  | JsNumber (n : JsNum)
  | JsString (s : string)
  | JsObject.

(** [x < n], [x > n], [x >= n] and [n >= x] for a number [x] and an integer
    [n]; every comparison with [NaN] is false. *)
Definition js_lt (x : JsNum) (n : Z) : bool :=
  match x with
  | JsNaN => false
  | JsPosInf => false
  | JsNegInf => true
  | JsInt z => (z <? n)%Z
  | JsFrac f => (f <? n)%Z
  end.

Definition js_gt (x : JsNum) (n : Z) : bool :=
  match x with
  | JsNaN => false
  | JsPosInf => true
  | JsNegInf => false
  | JsInt z => (n <? z)%Z
  | JsFrac f => (n <=? f)%Z
  end.

Definition js_ge (x : JsNum) (n : Z) : bool :=
  match x with
  | JsNaN => false
  | JsPosInf => true
  | JsNegInf => false
  | JsInt z => (n <=? z)%Z
  | JsFrac f => (n <=? f)%Z
  end.

Definition js_int_ge (n : Z) (x : JsNum) : bool :=
  match x with
  | JsNaN => false
  | JsPosInf => false
  | JsNegInf => true
  | JsInt z => (z <=? n)%Z
  | JsFrac f => (f <? n)%Z
  end.

(** [x++] *)
Definition js_incr (x : JsNum) : JsNum :=
  match x with
  | JsInt z => JsInt (z + 1)
  | JsFrac f => JsFrac (f + 1)
  | other => other
  end.

(** [array[x]]: an element for an integer index in range, [undefined]
    ([None]) for every other number. *)
Definition js_index {A : Type} (array : list A) (x : JsNum) : option A :=
  match x with
  | JsInt z => if (0 <=? z)%Z then array !! Z.to_nat z else None
  | _ => None
  end.

(** The names every plain object inherits from [Object.prototype]. *)
Definition objectPrototypeKeys : list string :=
  [ "constructor"; "__defineGetter__"; "__defineSetter__"; "hasOwnProperty";
    "__lookupGetter__"; "__lookupSetter__"; "isPrototypeOf";
    "propertyIsEnumerable"; "toString"; "valueOf"; "__proto__";
    "toLocaleString" ].

Definition isInherited (key : string) : bool :=
  bool_decide (key ∈ objectPrototypeKeys).

(** The result of reading [object[key]] on a plain object. *)
Inductive PropertyValue (A : Type) : Type :=
  | OwnValue (a : A)
  | InheritedValue
  | NoValue.
Arguments OwnValue {A} a.
Arguments InheritedValue {A}.
Arguments NoValue {A}.

Definition js_get {A : Type} (object : gmap string A) (key : string)
  : PropertyValue A :=
  match object !! key with
  | Some a => OwnValue a
  | None => if isInherited key then InheritedValue else NoValue
  end.

(** A dictionary whose own values are all [true].  [dict[key]] is truthy for
    an own key and for an inherited one (a function or an object). *)
Definition dict_truthy (dict : gset string) (key : string) : bool :=
  bool_decide (key ∈ dict) || isInherited key.

(** [dict[key] = true]; assigning to ["__proto__"] runs the inherited setter,
    which ignores a boolean and creates no property. *)
Definition dict_set (key : string) (dict : gset string) : gset string :=
  if bool_decide (key = "__proto__") then dict else {[ key ]} ∪ dict.

(** [delete dict[key]] *)
Definition dict_delete (key : string) (dict : gset string) : gset string :=
  dict ∖ {[ key ]}.

(** The truth value of a string: only the empty string is falsy. *)
Definition string_truthy (s : string) : bool :=
  negb (bool_decide (s = "")).

#[global] Instance JsNum_eq_dec : EqDecision JsNum.
Proof. solve_decision. Defined.

#[global] Instance JsVal_eq_dec : EqDecision JsVal.
Proof. solve_decision. Defined.

(** ** Data model *)

(** A request, as far as the list looks at it: its [uniqueKey] and the rest
    (url, method, headers, userData), which the list never interprets. *)
Record Request : Type := mkRequest {
  uniqueKey : string;
  payload : string;
}.

#[global] Instance Request_eq_dec : EqDecision Request.
Proof. solve_decision. Defined.

(** An element of [options.sources].  For a [requestsFromUrl] source the
    outcome of the download belongs to the input: [None] when the GET fails,
    otherwise the requests built from the URLs that the regular expression
    matched, in the order of the document ([Some []] when [match] returned
    [null]). *)
Inductive Source : Type :=
  | RequestSource (request : Request)
  | RequestsFromUrl (fetched : option (list Request)).

(** The object of [getState()] and of [options.state]:
    [{ nextIndex, nextUniqueKey, inProgress }], where [inProgress] is a
    dictionary from keys to [true].  A state that is not an object but is
    truthy reads as one whose [nextIndex] is [undefined]. *)
Record State : Type := mkState {
  state_nextIndex : JsVal;
  state_nextUniqueKey : JsVal;
  state_inProgress : gset string;
}.

(** How a promise settles. *)
Inductive Settled (A : Type) : Type :=
  | Resolved (a : A)
  | Rejected.
Arguments Resolved {A} a.
Arguments Rejected {A}.

Record RequestList : Type := mkRequestList {
  initialStatePromise : Settled (option State);
  requests : list Request;
  nextIndex : JsNum;
  uniqueKeyToIndex : gmap string nat;
  inProgress : gset string;
  reclaimed : gset string;
  persistStateKey : option string;
  isStatePersisted : bool;
  isLoading : bool;
  isInitialized : bool;
  sources : list Source;
}.

Definition set_requests (v : list Request) (this : RequestList) : RequestList :=
  mkRequestList (initialStatePromise this) v (nextIndex this)
    (uniqueKeyToIndex this) (inProgress this) (reclaimed this)
    (persistStateKey this) (isStatePersisted this) (isLoading this)
    (isInitialized this) (sources this).

Definition set_nextIndex (v : JsNum) (this : RequestList) : RequestList :=
  mkRequestList (initialStatePromise this) (requests this) v
    (uniqueKeyToIndex this) (inProgress this) (reclaimed this)
    (persistStateKey this) (isStatePersisted this) (isLoading this)
    (isInitialized this) (sources this).

Definition set_uniqueKeyToIndex (v : gmap string nat) (this : RequestList)
  : RequestList :=
  mkRequestList (initialStatePromise this) (requests this) (nextIndex this)
    v (inProgress this) (reclaimed this)
    (persistStateKey this) (isStatePersisted this) (isLoading this)
    (isInitialized this) (sources this).

Definition set_inProgress (v : gset string) (this : RequestList) : RequestList :=
  mkRequestList (initialStatePromise this) (requests this) (nextIndex this)
    (uniqueKeyToIndex this) v (reclaimed this)
    (persistStateKey this) (isStatePersisted this) (isLoading this)
    (isInitialized this) (sources this).

Definition set_reclaimed (v : gset string) (this : RequestList) : RequestList :=
  mkRequestList (initialStatePromise this) (requests this) (nextIndex this)
    (uniqueKeyToIndex this) (inProgress this) v
    (persistStateKey this) (isStatePersisted this) (isLoading this)
    (isInitialized this) (sources this).

Definition set_isStatePersisted (v : bool) (this : RequestList) : RequestList :=
  mkRequestList (initialStatePromise this) (requests this) (nextIndex this)
    (uniqueKeyToIndex this) (inProgress this) (reclaimed this)
    (persistStateKey this) v (isLoading this)
    (isInitialized this) (sources this).

Definition set_isLoading (v : bool) (this : RequestList) : RequestList :=
  mkRequestList (initialStatePromise this) (requests this) (nextIndex this)
    (uniqueKeyToIndex this) (inProgress this) (reclaimed this)
    (persistStateKey this) (isStatePersisted this) v
    (isInitialized this) (sources this).

Definition set_isInitialized (v : bool) (this : RequestList) : RequestList :=
  mkRequestList (initialStatePromise this) (requests this) (nextIndex this)
    (uniqueKeyToIndex this) (inProgress this) (reclaimed this)
    (persistStateKey this) (isStatePersisted this) (isLoading this)
    v (sources this).

(** The errors the class throws, one per message, and the [TypeError] of
    reading a property of [undefined]. *)
Inductive Error : Type :=
  | UniqueKeyInvalid        (* "Request object's uniqueKey must be a non-empty string" *)
  | AlreadyLoading          (* "RequestList sources are already loading or were loaded." *)
  | CannotFetchRequestList  (* "Cannot fetch a request list from ..." *)
  | InitialStateRejected    (* the promise of the initial state is rejected *)
  | NextIndexInvalid        (* "... nextIndex must be a non-negative number." *)
  | TooFewRequests          (* "... too few requests loaded." *)
  | OrderChanged            (* "... the order of URLs seems to have changed." *)
  | UnknownUniqueKey        (* "... unknown uniqueKey is present in the state." *)
  | NotBeingProcessed       (* "The request is not being processed ..." *)
  | AlreadyReclaimed        (* "The request was already reclaimed ..." *)
  | NotInitialized          (* "RequestList is not initialized. ..." *)
  | TypeError.              (* Cannot read property 'uniqueKey' of undefined *)

Inductive Result (A : Type) : Type :=
  | Ok (a : A)
  | Throw (e : Error).
Arguments Ok {A} a.
Arguments Throw {A} e.

Definition isOk {A : Type} (r : Result A) : bool :=
  match r with Ok _ => true | Throw _ => false end.

(** What the class writes to the log. *)
Inductive LogEvent : Type :=
  | ListFetched (fetchedCount importedCount duplicateCount : nat)
  | ListFetchedEmpty
  | CannotFetchList
  | InProgressNotConsistent (deleteFromInProgress : list string)
  | CannotPersistState.

(** What [fetchNextRequest] resolves to. *)
Inductive Fetched : Type :=
  | FetchedRequest (request : Request)
  | FetchedNull
  | FetchedUndefined.

(** ** The constructor *)

Definition option_string_truthy (s : option string) : bool :=
  match s with
  | Some s => string_truthy s
  | None => false
  end.

(** [stored] is how [getValue(persistStateKey)] settles; it is only looked at
    when a key is given and no state is. *)
Definition RequestList_constructor (sources : list Source)
    (persistStateKey : option string) (state : option State)
    (stored : Settled (option State)) : RequestList :=
  {| initialStatePromise :=
       if option_string_truthy persistStateKey && negb (bool_decide (is_Some state))
       then stored else Resolved state;
     requests := [];
     nextIndex := JsInt 0;
     uniqueKeyToIndex := ∅;
     inProgress := ∅;
     reclaimed := ∅;
     persistStateKey := persistStateKey;
     isStatePersisted := true;
     isLoading := false;
     isInitialized := false;
     sources := sources |}.

(** ** Loading the sources *)

(** A [uniqueKey] is a string here, which settles
    [typeof uniqueKey !== 'string']; what is left is [!uniqueKey]. *)
Definition ensureUniqueKeyValid (uniqueKey : string) : Result unit :=
  if string_truthy uniqueKey then Ok tt else Throw UniqueKeyInvalid.

(** [request] is [opts] when it is a [Request], and [new Request(opts)]
    otherwise; the class [Request] is imported. *)
Definition _addRequest (request : Request) (this : RequestList)
  : Result unit * RequestList :=
  match ensureUniqueKeyValid (uniqueKey request) with
  | Throw e => (Throw e, this)
  | Ok _ =>
      (* Skip requests with duplicate uniqueKey *)
      match js_get (uniqueKeyToIndex this) (uniqueKey request) with
      | NoValue =>
          (Ok tt,
           set_requests (requests this ++ [request])
             (set_uniqueKeyToIndex
                (<[uniqueKey request := length (requests this)]>
                   (uniqueKeyToIndex this)) this))
      | _ => (Ok tt, this)
      end
  end.

(** [urlsArr.forEach(url => this._addRequest(...))]: the first throw ends the
    loop, what was added before stays. *)
Fixpoint addRequests (urlsArr : list Request) (this : RequestList)
  : Result unit * RequestList :=
  match urlsArr with
  | [] => (Ok tt, this)
  | request :: rest =>
      match _addRequest request this with
      | (Ok _, this') => addRequests rest this'
      | (Throw e, this') => (Throw e, this')
      end
  end.

Definition _addRequestsFromUrl (fetched : option (list Request))
    (this : RequestList) : Result unit * RequestList * list LogEvent :=
  match fetched with
  | None => (Throw CannotFetchRequestList, this, [CannotFetchList])
  | Some [] => (Ok tt, this, [ListFetchedEmpty])
  | Some urlsArr =>
      let originalLength := length (requests this) in
      match addRequests urlsArr this with
      | (Ok _, this') =>
          let fetchedCount := length urlsArr in
          let importedCount := length (requests this') - originalLength in
          (Ok tt, this',
           [ListFetched fetchedCount importedCount (fetchedCount - importedCount)])
      | (Throw _, this') =>
          (* the catch handler logs and throws its own error *)
          (Throw CannotFetchRequestList, this', [CannotFetchList])
      end
  end.

(** [Promise.mapSeries(this.sources, ...)] *)
Fixpoint loadSources (sources : list Source) (this : RequestList)
  : Result unit * RequestList * list LogEvent :=
  match sources with
  | [] => (Ok tt, this, [])
  | source :: rest =>
      let '(result, this', log) :=
        match source with
        | RequestsFromUrl fetched => _addRequestsFromUrl fetched this
        | RequestSource request =>
            let '(result, this') := _addRequest request this in
            (result, this', [])
        end in
      match result with
      | Ok _ =>
          let '(result', this'', log') := loadSources rest this' in
          (result', this'', log ++ log')
      | Throw e => (Throw e, this', log)
      end
  end.

(** ** Restoring the state *)

(** The loop over [_.keys(state.inProgress)]: a key without a numeric index
    throws, a key whose index is [>= state.nextIndex] is collected. *)
Fixpoint collectDeleteFromInProgress (uniqueKeyToIndex : gmap string nat)
    (nextIndex : JsNum) (keys : list string)
    (deleteFromInProgress : list string) : Result (list string) :=
  match keys with
  | [] => Ok deleteFromInProgress
  | uniqueKey :: rest =>
      match js_get uniqueKeyToIndex uniqueKey with
      | OwnValue index =>
          collectDeleteFromInProgress uniqueKeyToIndex nextIndex rest
            (if js_int_ge (Z.of_nat index) nextIndex
             then deleteFromInProgress ++ [uniqueKey]
             else deleteFromInProgress)
      | _ => Throw UnknownUniqueKey
      end
  end.

(** [_.each(deleteFromInProgress, (uniqueKey) => delete state.inProgress[uniqueKey])] *)
Definition deleteEach (deleteFromInProgress : list string)
    (dict : gset string) : gset string :=
  foldl (fun dict uniqueKey => dict_delete uniqueKey dict) dict
    deleteFromInProgress.

(** The first three checks of the callback [(state) => { ... }] of
    [initialize]: those on [state.nextIndex] and [state.nextUniqueKey].  The
    result is [state.nextIndex], known to be a number. *)
Definition checkNextIndex (state : State) (this : RequestList) : Result JsNum :=
  match state_nextIndex state with
  | JsNumber stateNextIndex =>
      let len := Z.of_nat (length (requests this)) in
      if js_lt stateNextIndex 0 then Throw NextIndexInvalid
      else if js_gt stateNextIndex len then Throw TooFewRequests
      else if js_lt stateNextIndex len then
        match js_index (requests this) stateNextIndex with
        | None => Throw TypeError
        | Some request =>
            if bool_decide
                 (JsString (uniqueKey request) = state_nextUniqueKey state)
            then Ok stateNextIndex else Throw OrderChanged
        end
      else Ok stateNextIndex
  | _ => Throw NextIndexInvalid
  end.

(** The callback [(state) => { ... }] of [initialize]. *)
Definition restoreState (state : option State) (this : RequestList)
  : Result unit * RequestList * list LogEvent :=
  match state with
  | None => (Ok tt, this, [])
  | Some state =>
      match checkNextIndex state this with
      | Throw e => (Throw e, this, [])
      | Ok stateNextIndex =>
          match collectDeleteFromInProgress (uniqueKeyToIndex this)
                  stateNextIndex (elements (state_inProgress state)) [] with
          | Throw e => (Throw e, this, [])
          | Ok deleteFromInProgress =>
              let stateInProgress :=
                deleteEach deleteFromInProgress (state_inProgress state) in
              (Ok tt,
               (* All in-progress requests need to be recrawled *)
               set_reclaimed stateInProgress
                 (set_inProgress stateInProgress
                    (set_nextIndex stateNextIndex this)),
               match deleteFromInProgress with
               | [] => []
               | _ => [InProgressNotConsistent deleteFromInProgress]
               end)
          end
      end
  end.

(** ** initialize *)

Definition initialize (this : RequestList)
  : Result unit * RequestList * list LogEvent :=
  if isLoading this then (Throw AlreadyLoading, this, [])
  else
    let this := set_isLoading true this in
    match loadSources (sources this) this with
    | (Throw e, this, log) => (Throw e, this, log)
    | (Ok _, this, log) =>
        match initialStatePromise this with
        | Rejected => (Throw InitialStateRejected, this, log)
        | Resolved state =>
            match restoreState state this with
            | (Throw e, this, log') => (Throw e, this, log ++ log')
            | (Ok _, this, log') =>
                (Ok tt, set_isInitialized true this, log ++ log')
            end
        end
    end.

(** ** The methods of an initialized list *)

Definition _ensureIsInitialized (this : RequestList) : Result unit :=
  if isInitialized this then Ok tt else Throw NotInitialized.

Definition _ensureInProgressAndNotReclaimed (uniqueKey : string)
    (this : RequestList) : Result unit :=
  if negb (dict_truthy (inProgress this) uniqueKey)
  then Throw NotBeingProcessed
  else if dict_truthy (reclaimed this) uniqueKey then Throw AlreadyReclaimed
  else Ok tt.

Definition getState (this : RequestList) : Result State :=
  match _ensureIsInitialized this with
  | Throw e => Throw e
  | Ok _ =>
      if js_lt (nextIndex this) (Z.of_nat (length (requests this))) then
        match js_index (requests this) (nextIndex this) with
        | None => Throw TypeError
        | Some request =>
            Ok {| state_nextIndex := JsNumber (nextIndex this);
                  state_nextUniqueKey := JsString (uniqueKey request);
                  state_inProgress := inProgress this |}
        end
      else
        Ok {| state_nextIndex := JsNumber (nextIndex this);
              state_nextUniqueKey := JsNull;
              state_inProgress := inProgress this |}
  end.

(** Modelled from the spec: [getFirstKey], which the class imports from
    [./utils], is not among the sources.  The spec lets fetchNext pop "an
    arbitrary member" of the reclaimed set, so [getFirstKey] is a parameter:
    any function that returns a key of the dictionary when there is one and
    [undefined] ([None]) when there is none.  Everything below holds for
    every such function. *)
Class FirstKey : Type := {
  getFirstKey : gset string -> option string;
  getFirstKey_Some : forall dict key, getFirstKey dict = Some key -> key ∈ dict;
  getFirstKey_None : forall dict, getFirstKey dict = None -> dict = ∅;
}.

(** One such function: the first key of the enumeration of the set. *)
Definition firstElement (dict : gset string) : option string :=
  head (elements dict).

(** The first key of the enumeration is a [getFirstKey]. *)
#[global] Program Instance firstElement_FirstKey : FirstKey :=
  {| getFirstKey := firstElement |}.
Next Obligation.
  intros dict key Hhead. unfold firstElement in Hhead.
  apply elem_of_elements. destruct (elements dict); [discriminate|].
  injection Hhead as ->. left.
Qed.
Next Obligation.
  intros dict Hhead. unfold firstElement in Hhead.
  apply leibniz_equiv, elements_empty_inv.
  destruct (elements dict); [reflexivity|discriminate].
Qed.

(** [if (uniqueKey)]: the key when it is truthy. *)
Definition ifTruthy (uniqueKey : option string) : option string :=
  match uniqueKey with
  | Some key => if string_truthy key then Some key else None
  | None => None
  end.

Section Methods.
Context `{FirstKey}.

Definition isEmpty (this : RequestList) : Result bool :=
  match _ensureIsInitialized this with
  | Throw e => Throw e
  | Ok _ =>
      Ok (negb (option_string_truthy (getFirstKey (reclaimed this)))
          && js_ge (nextIndex this) (Z.of_nat (length (requests this))))
  end.

Definition isFinished (this : RequestList) : Result bool :=
  match _ensureIsInitialized this with
  | Throw e => Throw e
  | Ok _ =>
      Ok (negb (option_string_truthy (getFirstKey (inProgress this)))
          && js_ge (nextIndex this) (Z.of_nat (length (requests this))))
  end.

(** [this.requests[this.uniqueKeyToIndex[uniqueKey]]] *)
Definition requestOfKey (this : RequestList) (uniqueKey : string) : Fetched :=
  match js_get (uniqueKeyToIndex this) uniqueKey with
  | OwnValue index =>
      match requests this !! index with
      | Some request => FetchedRequest request
      | None => FetchedUndefined
      end
  | _ => FetchedUndefined
  end.

Definition fetchNextRequest (this : RequestList) : Result Fetched * RequestList :=
  match _ensureIsInitialized this with
  | Throw e => (Throw e, this)
  | Ok _ =>
      (* First return reclaimed requests if any. *)
      match ifTruthy (getFirstKey (reclaimed this)) with
      | Some uniqueKey =>
          let this' :=
            set_reclaimed (dict_delete uniqueKey (reclaimed this)) this in
          (Ok (requestOfKey this' uniqueKey), this')
      | None =>
          (* Otherwise return next request. *)
          if js_lt (nextIndex this) (Z.of_nat (length (requests this))) then
            match js_index (requests this) (nextIndex this) with
            | None => (Throw TypeError, this)
            | Some request =>
                (Ok (FetchedRequest request),
                 set_isStatePersisted false
                   (set_nextIndex (js_incr (nextIndex this))
                      (set_inProgress
                         (dict_set (uniqueKey request) (inProgress this))
                         this)))
            end
          else (Ok FetchedNull, this)
      end
  end.

Definition markRequestHandled (request : Request) (this : RequestList)
  : Result unit * RequestList :=
  match ensureUniqueKeyValid (uniqueKey request) with
  | Throw e => (Throw e, this)
  | Ok _ =>
      match _ensureInProgressAndNotReclaimed (uniqueKey request) this with
      | Throw e => (Throw e, this)
      | Ok _ =>
          match _ensureIsInitialized this with
          | Throw e => (Throw e, this)
          | Ok _ =>
              (Ok tt,
               set_isStatePersisted false
                 (set_inProgress
                    (dict_delete (uniqueKey request) (inProgress this)) this))
          end
      end
  end.

Definition reclaimRequest (request : Request) (this : RequestList)
  : Result unit * RequestList :=
  match ensureUniqueKeyValid (uniqueKey request) with
  | Throw e => (Throw e, this)
  | Ok _ =>
      match _ensureInProgressAndNotReclaimed (uniqueKey request) this with
      | Throw e => (Throw e, this)
      | Ok _ =>
          match _ensureIsInitialized this with
          | Throw e => (Throw e, this)
          | Ok _ =>
              (Ok tt,
               set_reclaimed
                 (dict_set (uniqueKey request) (reclaimed this)) this)
          end
      end
  end.

End Methods.

(** The handler of the PERSIST_STATE event, which [initialize] registers when
    [persistStateKey] is set.  [setValueOk] tells whether [setValue]
    succeeds.  The result is the state handed to [setValue], if any.  The
    handler and the callback that follows [setValue] are taken as one step. *)
Definition persistStateHandler (setValueOk : bool) (this : RequestList)
  : Result (option State) * RequestList * list LogEvent :=
  if isStatePersisted this then (Ok None, this, [])
  else
    match getState this with
    | Throw e => (Throw e, this, [])
    | Ok state =>
        if setValueOk
        then (Ok (Some state), set_isStatePersisted true this, [])
        else (Ok (Some state), this, [CannotPersistState])
    end.

(** Emitting the event runs the handler if it was registered. *)
Definition emitPersistState (setValueOk : bool) (this : RequestList)
  : Result (option State) * RequestList * list LogEvent :=
  if isInitialized this && option_string_truthy (persistStateKey this)
  then persistStateHandler setValueOk this
  else (Ok None, this, []).

Definition RequestList_length (this : RequestList) : nat :=
  length (requests this).

(** ** Sequences of calls *)

(** The requests of the sources in load order. *)
Definition sourceRequests (sources : list Source) : list Request :=
  flat_map (fun source =>
              match source with
              | RequestSource request => [request]
              | RequestsFromUrl (Some urlsArr) => urlsArr
              | RequestsFromUrl None => []
              end) sources.

Section Reachable.
Context `{FirstKey}.

(** [n] calls of [fetchNextRequest] in a row: what they return, and the list
    after the last one.  A call that throws ends the sequence. *)
Fixpoint fetchMany (n : nat) (this : RequestList)
  : list Fetched * RequestList :=
  match n with
  | O => ([], this)
  | S n' =>
      match fetchNextRequest this with
      | (Ok fetched, this') =>
          let '(others, this'') := fetchMany n' this' in
          (fetched :: others, this'')
      | (Throw _, this') => ([], this')
      end
  end.

(** The lists a program can hold after [await requestList.initialize()]:
    built by the constructor, initialized without an error, and then used
    through the methods and the PERSIST_STATE event. *)
Inductive reachable : RequestList -> Prop :=
  | reachable_initialize sources persistStateKey state stored this log :
      initialize (RequestList_constructor sources persistStateKey state stored)
        = (Ok tt, this, log) ->
      reachable this
  | reachable_fetchNextRequest this result this' :
      reachable this ->
      fetchNextRequest this = (result, this') ->
      reachable this'
  | reachable_markRequestHandled request this result this' :
      reachable this ->
      markRequestHandled request this = (result, this') ->
      reachable this'
  | reachable_reclaimRequest request this result this' :
      reachable this ->
      reclaimRequest request this = (result, this') ->
      reachable this'
  | reachable_persistState setValueOk this result this' log :
      reachable this ->
      emitPersistState setValueOk this = (result, this', log) ->
      reachable this'.

End Reachable.

(** ** Invariants *)

(** [uniqueKeyToIndex] is the inverse of [requests], and every key of a
    request is a non-empty string that is not a name of [Object.prototype]. *)
Definition Indexed (requests : list Request) (uniqueKeyToIndex : gmap string nat)
  : Prop :=
  (forall key index,
      uniqueKeyToIndex !! key = Some index <->
      exists request, requests !! index = Some request
                      /\ uniqueKey request = key)
  /\ (forall request, request ∈ requests ->
        string_truthy (uniqueKey request) = true
        /\ isInherited (uniqueKey request) = false).

(** The array and the index that loading [sources] into a new list gives,
    if loading succeeds. *)
Definition loadedRequests (sources : list Source)
  : option (list Request * gmap string nat) :=
  match loadSources sources
          (set_isLoading true
             (RequestList_constructor sources None None Rejected)) with
  | (Ok _, this, _) => Some (requests this, uniqueKeyToIndex this)
  | (Throw _, _, _) => None
  end.

(** The cursor of an initialized list: a position of the array or its end,
    or [NaN]. *)
Definition cursorInRange (nextIndex : JsNum) (len : nat) : Prop :=
  nextIndex = JsNaN
  \/ exists z, nextIndex = JsInt z /\ (0 <= z <= Z.of_nat len)%Z.

Record Consistent (this : RequestList) : Prop := mkConsistent {
  consistent_initialized : isInitialized this = true;
  consistent_loaded :
    loadedRequests (sources this) = Some (requests this, uniqueKeyToIndex this);
  consistent_indexed : Indexed (requests this) (uniqueKeyToIndex this);
  consistent_cursor : cursorInRange (nextIndex this) (length (requests this));
  consistent_inProgress :
    forall key, key ∈ inProgress this ->
      exists index, uniqueKeyToIndex this !! key = Some index
                    /\ js_int_ge (Z.of_nat index) (nextIndex this) = false;
  consistent_reclaimed : reclaimed this ⊆ inProgress this;
}.

(** [request] is the first of [items] with its key. *)
Definition firstOccurrence (items : list Request) (request : Request) : Prop :=
  exists i, items !! i = Some request
            /\ forall j other, j < i -> items !! j = Some other ->
                 uniqueKey other <> uniqueKey request.

(** Loading only looks at [requests] and [uniqueKeyToIndex], and only changes
    them. *)
Definition withLoaded (loaded this : RequestList) : RequestList :=
  set_requests (requests loaded)
    (set_uniqueKeyToIndex (uniqueKeyToIndex loaded) this).

(** The list after a successful restore of a state whose cursor is
    [stateNextIndex] and whose in-progress keys, without the deleted ones,
    are [stateInProgress]. *)
Definition restored (stateNextIndex : JsNum) (stateInProgress : gset string)
    (this : RequestList) : RequestList :=
  set_reclaimed stateInProgress
    (set_inProgress stateInProgress (set_nextIndex stateNextIndex this)).

Definition warningOf (deleteFromInProgress : list string) : list LogEvent :=
  match deleteFromInProgress with
  | [] => []
  | _ => [InProgressNotConsistent deleteFromInProgress]
  end.

(** ** Example lists *)

Definition requestA : Request := mkRequest "a" "GET http://www.example.com/a".
Definition requestB : Request := mkRequest "b" "GET http://www.example.com/b".
Definition requestC : Request := mkRequest "c" "GET http://www.example.com/c".

Definition abcSources : list Source :=
  [RequestSource requestA; RequestSource requestB; RequestSource requestC].

(** [new RequestList({ sources })] after [initialize()]. *)
Definition abcList : RequestList :=
  snd (fst (initialize (RequestList_constructor abcSources None None Rejected))).

(** The same list after two [fetchNextRequest()] and [reclaimRequest(a)]. *)
Definition abcListReclaimedA : RequestList :=
  let fetch := fetchNextRequest (H := firstElement_FirstKey) in
  snd (reclaimRequest requestA (snd (fetch (snd (fetch abcList))))).

(** A state whose [nextIndex] is [NaN]. *)
Definition stateNaN : State :=
  {| state_nextIndex := JsNumber JsNaN;
     state_nextUniqueKey := JsNull;
     state_inProgress := ∅ |}.

(** The sources of [abcList] loaded into a new list. *)
Definition abcLoaded : RequestList :=
  snd (fst (loadSources abcSources
              (RequestList_constructor abcSources None None Rejected))).

(** A state for [abcSources] whose in-progress key c is not below its
    cursor. *)
Definition skewedState : State :=
  {| state_nextIndex := JsNumber (JsInt 1);
     state_nextUniqueKey := JsString "b";
     state_inProgress := {[ "a"; "c" ]} |}.

(** [abcSources] loaded by [initialize], which sets [isLoading] first. *)
Definition abcLoaded_loading : RequestList :=
  snd (fst (loadSources abcSources
              (set_isLoading true
                 (RequestList_constructor abcSources None (Some skewedState)
                    Rejected)))).

(** Sources with the key a twice, the key b twice, and a key that is a
    name of [Object.prototype]. *)
Definition duplicateSources : list Source :=
  [RequestSource requestA;
   RequestsFromUrl
     (Some [requestB; mkRequest "a" "GET http://www.example.com/other"]);
   RequestSource (mkRequest "toString" "GET http://www.example.com/s");
   RequestSource (mkRequest "b" "POST http://www.example.com/b")].

Definition duplicateLoaded : RequestList :=
  snd (fst (loadSources duplicateSources
              (RequestList_constructor duplicateSources None None Rejected))).

(** A state for [abcSources] taken when the request at the cursor had
    another key. *)
Definition driftedState : State :=
  {| state_nextIndex := JsNumber (JsInt 2);
     state_nextUniqueKey := JsString "X";
     state_inProgress := ∅ |}.

(** A state whose [nextIndex] is 1.5. *)
Definition fractionalState : State :=
  {| state_nextIndex := JsNumber (JsFrac 1);
     state_nextUniqueKey := JsString "b";
     state_inProgress := ∅ |}.

(** ** Runs of an initialized list *)

Section Steps.
Context `{FirstKey}.

(** [steps this this']: a program that holds [this] gets to [this'] by
    calls of the methods and PERSIST_STATE events, in any number and
    order, whether they succeed or throw. *)
Inductive steps : RequestList -> RequestList -> Prop :=
  | steps_none this :
      steps this this
  | steps_fetchNextRequest this this' result this'' :
      steps this this' ->
      fetchNextRequest this' = (result, this'') ->
      steps this this''
  | steps_markRequestHandled request this this' result this'' :
      steps this this' ->
      markRequestHandled request this' = (result, this'') ->
      steps this this''
  | steps_reclaimRequest request this this' result this'' :
      steps this this' ->
      reclaimRequest request this' = (result, this'') ->
      steps this this''
  | steps_persistState setValueOk this this' result this'' log :
      steps this this' ->
      emitPersistState setValueOk this' = (result, this'', log) ->
      steps this this''.

End Steps.

(** The requests among what [fetchNextRequest] returned. *)
Definition fetchedRequests (fetched : list Fetched) : list Request :=
  flat_map (fun one => match one with
                       | FetchedRequest request => [request]
                       | _ => []
                       end) fetched.

(** [markRequestHandled] for each of [handled] in turn; the first throw ends
    the sequence. *)
Fixpoint markAllHandled (handled : list Request) (this : RequestList)
  : Result unit * RequestList :=
  match handled with
  | [] => (Ok tt, this)
  | request :: rest =>
      match markRequestHandled request this with
      | (Ok _, this') => markAllHandled rest this'
      | (Throw e, this') => (Throw e, this')
      end
  end.

(** What no method of an initialized list writes: the loaded requests, their
    index and the options. *)
Definition sameSetup (this this' : RequestList) : Prop :=
  requests this' = requests this
  /\ uniqueKeyToIndex this' = uniqueKeyToIndex this
  /\ sources this' = sources this
  /\ persistStateKey this' = persistStateKey this
  /\ initialStatePromise this' = initialStatePromise this
  /\ isLoading this' = isLoading this
  /\ isInitialized this' = isInitialized this.

(** A list whose restore fails. *)
Definition driftedList : RequestList :=
  RequestList_constructor abcSources None (Some driftedState) Rejected.

(** The error of [markRequestHandled] and [reclaimRequest] on a list with
    nothing in progress. *)
Definition errorOfIdleKey (uniqueKey : string) : Error :=
  if string_truthy uniqueKey then
    if isInherited uniqueKey then AlreadyReclaimed else NotBeingProcessed
  else UniqueKeyInvalid.

(** The keys that [fetchNextRequest] can still return without another
    [reclaimRequest]: the reclaimed ones and those at or after the cursor. *)
Definition available (this : RequestList) (key : string) : Prop :=
  key ∈ reclaimed this
  \/ exists index,
       uniqueKeyToIndex this !! key = Some index
       /\ js_int_ge (Z.of_nat index) (nextIndex this) = true.

(** The keys that were dispatched and are done: before the cursor and not
    in progress. *)
Definition handled (this : RequestList) (key : string) : Prop :=
  (key ∉ inProgress this)
  /\ exists index,
       uniqueKeyToIndex this !! key = Some index
       /\ js_int_ge (Z.of_nat index) (nextIndex this) = false.

(** [abcList] after two [fetchNextRequest()]: a and b are in progress. *)
Definition abcListFetched : RequestList :=
  let fetch := fetchNextRequest (H := firstElement_FirstKey) in
  snd (fetch (snd (fetch abcList))).

(** [driftedList] after its [initialize()] has thrown. *)
Definition driftedFailed : RequestList :=
  snd (fst (initialize driftedList)).

(** [new RequestList({ sources, state })] after [initialize()], with
    [skewedState] as the state: the key c is dropped from what is in
    progress, and a is in progress and reclaimed. *)
Definition abcListRestored : RequestList :=
  snd (fst (initialize
              (RequestList_constructor abcSources None (Some skewedState)
                 Rejected))).

(** [abcList] after three [fetchNextRequest()]: a, b and c are in progress
    and the cursor is behind the last request. *)
Definition abcListDispatched : RequestList :=
  snd (fetchMany (H := firstElement_FirstKey) 3 abcList).

(** [abcListFetched] after [markRequestHandled(a)]. *)
Definition abcListHandledA : RequestList :=
  snd (markRequestHandled requestA abcListFetched).

(** What a program does next with [abcListHandledA], call by call:
    [fetchNextRequest()] (which returns c), [reclaimRequest(b)],
    [fetchNextRequest()] (which returns b again), [fetchNextRequest()]
    (nothing is left) and a PERSIST_STATE event (which finds no handler,
    the list having no [persistStateKey]). *)
Definition abcListHandledA_fetch : RequestList :=
  snd (fetchNextRequest (H := firstElement_FirstKey) abcListHandledA).

Definition abcListHandledA_reclaim : RequestList :=
  snd (reclaimRequest requestB abcListHandledA_fetch).

Definition abcListHandledA_refetch : RequestList :=
  snd (fetchNextRequest (H := firstElement_FirstKey) abcListHandledA_reclaim).

Definition abcListHandledA_end : RequestList :=
  snd (fst (emitPersistState true
              (snd (fetchNextRequest (H := firstElement_FirstKey)
                      abcListHandledA_refetch)))).

(** * Proofs *)

(** ** JavaScript values *)

Lemma string_truthy_true (s : string) : string_truthy s = true <-> s <> "".
Proof.
  unfold string_truthy. destruct (bool_decide_reflect (s = "")); simpl; split;
    intros; congruence.
Qed.

Lemma js_get_own {A : Type} (object : gmap string A) (key : string) (a : A) :
  js_get object key = OwnValue a <-> object !! key = Some a.
Proof.
  unfold js_get. destruct (object !! key).
  - split; intros [= ->]; reflexivity.
  - destruct (isInherited key); split; discriminate.
Qed.

(** ** Loading *)

Lemma set_requests_index_id (this : RequestList) :
  set_requests (requests this)
    (set_uniqueKeyToIndex (uniqueKeyToIndex this) this) = this.
Proof. destruct this; reflexivity. Qed.

Lemma Indexed_empty : Indexed [] ∅.
Proof.
  split.
  - intros key index. rewrite lookup_empty. split; [discriminate|].
    intros (request & Hlookup & _). discriminate.
  - intros request Hin. inversion Hin.
Qed.

Lemma Indexed_add (requests : list Request) (index : gmap string nat)
    (request : Request) :
  Indexed requests index ->
  index !! uniqueKey request = None ->
  string_truthy (uniqueKey request) = true ->
  isInherited (uniqueKey request) = false ->
  Indexed (requests ++ [request]) (<[uniqueKey request := length requests]> index).
Proof.
  intros [Hinverse Hvalid] Hfresh Htruthy Hown. split.
  - intros key i. destruct (decide (uniqueKey request = key)) as [<-|Hne].
    + rewrite lookup_insert_eq. split.
      * intros [= <-]. exists request. split; [|reflexivity].
        rewrite lookup_app_r by lia. by rewrite Nat.sub_diag.
      * intros (r & Hlookup & Hkey).
        destruct (decide (i < length requests)) as [Hlt|Hge].
        -- rewrite lookup_app_l in Hlookup by exact Hlt.
           assert (index !! uniqueKey request = Some i) as Hsome
               by (apply Hinverse; eauto).
           congruence.
        -- apply lookup_lt_Some in Hlookup. rewrite length_app in Hlookup.
           simpl in Hlookup. f_equal. lia.
    + rewrite lookup_insert_ne by exact Hne. rewrite Hinverse. split.
      * intros (r & Hlookup & Hkey). exists r. split; [|exact Hkey].
        apply lookup_app_l_Some. exact Hlookup.
      * intros (r & Hlookup & Hkey).
        destruct (decide (i < length requests)) as [Hlt|Hge].
        -- rewrite lookup_app_l in Hlookup by exact Hlt. eauto.
        -- rewrite lookup_app_r in Hlookup by lia.
           destruct (i - length requests) as [|n]; simpl in Hlookup;
             [|discriminate].
           injection Hlookup as <-. contradiction.
  - intros r Hin. apply elem_of_app in Hin as [Hin|Hin].
    + apply Hvalid. exact Hin.
    + apply list_elem_of_singleton in Hin as ->. auto.
Qed.

Lemma Indexed_NoDup (requests : list Request) (index : gmap string nat) :
  Indexed requests index -> NoDup (uniqueKey <$> requests).
Proof.
  intros [Hinverse _]. apply NoDup_alt. intros i j key Hi Hj.
  rewrite list_lookup_fmap in Hi, Hj.
  destruct (requests !! i) as [ri|] eqn:Eri; [|discriminate].
  destruct (requests !! j) as [rj|] eqn:Erj; [|discriminate].
  simpl in Hi, Hj. injection Hi as Hi. injection Hj as Hj.
  assert (index !! key = Some i) as H1 by (apply Hinverse; eauto).
  assert (index !! key = Some j) as H2 by (apply Hinverse; eauto).
  congruence.
Qed.

Lemma Indexed_elem (requests : list Request) (index : gmap string nat)
    (request : Request) :
  Indexed requests index -> request ∈ requests ->
  exists i, index !! uniqueKey request = Some i /\ requests !! i = Some request.
Proof.
  intros [Hinverse _] Hin. apply list_elem_of_lookup in Hin as [i Hi].
  exists i. split; [|exact Hi]. apply Hinverse. eauto.
Qed.

Lemma Indexed_lookup (requests : list Request) (index : gmap string nat)
    (key : string) (i : nat) :
  Indexed requests index -> index !! key = Some i ->
  exists request, requests !! i = Some request /\ uniqueKey request = key
                  /\ key <> "" /\ isInherited key = false.
Proof.
  intros [Hinverse Hvalid] Hlookup. apply Hinverse in Hlookup as (r & Hr & Hkey).
  exists r. split; [exact Hr|]. split; [exact Hkey|].
  assert (r ∈ requests) as Hin by (apply list_elem_of_lookup; eauto).
  apply Hvalid in Hin as [Ht Hi]. subst key.
  split; [by apply string_truthy_true | exact Hi].
Qed.

(** What one [_addRequest] does: it throws on an empty key, appends a request
    whose key is new, and changes nothing otherwise. *)
Lemma _addRequest_cases (request : Request) (this : RequestList) :
  (uniqueKey request = ""
   /\ _addRequest request this = (Throw UniqueKeyInvalid, this))
  \/ (uniqueKey request <> ""
      /\ uniqueKeyToIndex this !! uniqueKey request = None
      /\ isInherited (uniqueKey request) = false
      /\ _addRequest request this =
           (Ok tt,
            set_requests (requests this ++ [request])
              (set_uniqueKeyToIndex
                 (<[uniqueKey request := length (requests this)]>
                    (uniqueKeyToIndex this)) this)))
  \/ (uniqueKey request <> ""
      /\ (is_Some (uniqueKeyToIndex this !! uniqueKey request)
          \/ isInherited (uniqueKey request) = true)
      /\ _addRequest request this = (Ok tt, this)).
Proof.
  unfold _addRequest, ensureUniqueKeyValid.
  destruct (string_truthy (uniqueKey request)) eqn:Etruthy.
  - apply string_truthy_true in Etruthy. right.
    unfold js_get.
    destruct (uniqueKeyToIndex this !! uniqueKey request) eqn:Elookup.
    + right. eauto.
    + destruct (isInherited (uniqueKey request)) eqn:Einh.
      * right. eauto.
      * left. eauto.
  - left. split; [|reflexivity].
    unfold string_truthy in Etruthy.
    destruct (bool_decide_reflect (uniqueKey request = "")); [assumption|].
    discriminate.
Qed.

Lemma firstOccurrence_cons_head (request : Request) (items : list Request) :
  firstOccurrence (request :: items) request.
Proof. exists 0. split; [reflexivity|]. intros j other Hlt. lia. Qed.

Lemma firstOccurrence_cons_tail (first request : Request) (items : list Request) :
  uniqueKey first <> uniqueKey request ->
  firstOccurrence items request ->
  firstOccurrence (first :: items) request.
Proof.
  intros Hne (i & Hi & Hbefore). exists (S i). split; [exact Hi|].
  intros [|j] other Hlt Hj; simpl in Hj.
  - injection Hj as <-. exact Hne.
  - apply (Hbefore j); [lia | exact Hj].
Qed.

Lemma addRequests_app (items1 items2 : list Request) (this : RequestList) :
  addRequests (items1 ++ items2) this =
    match addRequests items1 this with
    | (Ok _, this') => addRequests items2 this'
    | (Throw e, this') => (Throw e, this')
    end.
Proof.
  revert this. induction items1 as [|request items1 IH]; intros this; simpl.
  - reflexivity.
  - destruct (_addRequest request this) as [[[]|e] this']; [apply IH|reflexivity].
Qed.

(** Loading [items] into an indexed list keeps it indexed, only appends to
    [requests], and appends only first occurrences of keys that are new. *)
Lemma addRequests_Ok (items : list Request) (this this' : RequestList) :
  Indexed (requests this) (uniqueKeyToIndex this) ->
  addRequests items this = (Ok tt, this') ->
  Indexed (requests this') (uniqueKeyToIndex this')
  /\ this' = set_requests (requests this')
               (set_uniqueKeyToIndex (uniqueKeyToIndex this') this)
  /\ exists added,
       requests this' = requests this ++ added
       /\ forall request, request ∈ added ->
            firstOccurrence items request
            /\ forall old, old ∈ requests this ->
                 uniqueKey old <> uniqueKey request.
Proof.
  revert this. induction items as [|item items IH]; intros this Hindexed Hrun.
  - simpl in Hrun. injection Hrun as <-. split; [exact Hindexed|].
    split; [by rewrite set_requests_index_id|].
    exists []. split; [by rewrite app_nil_r|]. intros r Hin. inversion Hin.
  - simpl in Hrun.
    destruct (_addRequest_cases item this)
      as [[_ Hadd]|[(Hne & Hfresh & Hown & Hadd)|(Hne & Hskip & Hadd)]];
      rewrite Hadd in Hrun; [discriminate| |].
    + (* the item is appended *)
      apply IH in Hrun as (Hindexed' & Hframe & added & Hrequests & Hadded).
      2:{ simpl. apply Indexed_add; [assumption..|by apply string_truthy_true|assumption]. }
      simpl in Hrequests. split; [exact Hindexed'|]. split.
      { rewrite Hframe at 1. destruct this; reflexivity. }
      exists (item :: added). split.
      { rewrite Hrequests, <- app_assoc. reflexivity. }
      intros r Hin. apply elem_of_cons in Hin as [->|Hin].
      * split; [apply firstOccurrence_cons_head|].
        intros old Hold Heq.
        destruct (Indexed_elem _ _ _ Hindexed Hold) as (i & Hi & _).
        rewrite Heq in Hi. congruence.
      * destruct (Hadded r Hin) as [Hfirst Hnew]. simpl in Hnew. split.
        -- apply firstOccurrence_cons_tail; [|exact Hfirst].
           apply Hnew. apply elem_of_app. right. left.
        -- intros old Hold. apply Hnew. apply elem_of_app. left. exact Hold.
    + (* the item is skipped *)
      apply IH in Hrun as (Hindexed' & Hframe & added & Hrequests & Hadded);
        [|exact Hindexed].
      split; [exact Hindexed'|]. split; [exact Hframe|].
      exists added. split; [exact Hrequests|].
      intros r Hin. destruct (Hadded r Hin) as [Hfirst Hnew].
      split; [|exact Hnew].
      apply firstOccurrence_cons_tail; [|exact Hfirst].
      destruct Hskip as [[i Hi]|Hinherited].
      * destruct (Indexed_lookup _ _ _ _ Hindexed Hi) as (old & Hold & Hkey & _).
        rewrite <- Hkey. apply Hnew. apply list_elem_of_lookup. eauto.
      * intros Heq. rewrite Heq in Hinherited.
        assert (r ∈ requests this') as Hr
            by (rewrite Hrequests; apply elem_of_app; by right).
        destruct Hindexed' as [_ Hvalid]. apply Hvalid in Hr as [_ Hr].
        congruence.
Qed.

(** A successful [loadSources] is [addRequests] of the requests of all the
    sources. *)
Lemma loadSources_Ok (sources : list Source) (this this' : RequestList)
    (log : list LogEvent) :
  loadSources sources this = (Ok tt, this', log) ->
  addRequests (sourceRequests sources) this = (Ok tt, this').
Proof.
  revert this log. induction sources as [|source sources IH]; intros this log Hload.
  - simpl in Hload. injection Hload as <- <-. reflexivity.
  - simpl in Hload. simpl. rewrite addRequests_app.
    destruct source as [request|[urlsArr|]].
    + simpl. destruct (_addRequest request this) as [[[]|e] this1];
        [|discriminate].
      destruct (loadSources sources this1) as [[result2 this2] log2] eqn:Erest.
      injection Hload as -> -> _. eapply IH. exact Erest.
    + unfold _addRequestsFromUrl in Hload. destruct urlsArr as [|url urlsArr].
      * simpl.
        destruct (loadSources sources this) as [[result2 this2] log2] eqn:Erest.
        injection Hload as -> -> _. eapply IH. exact Erest.
      * destruct (addRequests (url :: urlsArr) this) as [[[]|e] this1];
          [|discriminate].
        destruct (loadSources sources this1) as [[result2 this2] log2] eqn:Erest.
        injection Hload as -> -> _. eapply IH. exact Erest.
    + discriminate.
Qed.

Lemma _addRequest_frame (request : Request) (this other : RequestList) :
  requests other = requests this ->
  uniqueKeyToIndex other = uniqueKeyToIndex this ->
  _addRequest request other =
    (fst (_addRequest request this), withLoaded (snd (_addRequest request this)) other).
Proof.
  intros Hrequests Hindex. unfold _addRequest. rewrite Hrequests, Hindex.
  destruct (ensureUniqueKeyValid (uniqueKey request)); simpl.
  - destruct (js_get (uniqueKeyToIndex this) (uniqueKey request)); simpl;
      destruct this, other; simpl in *; subst; reflexivity.
  - destruct this, other; simpl in *; subst; reflexivity.
Qed.

Lemma addRequests_frame (items : list Request) (this other : RequestList) :
  requests other = requests this ->
  uniqueKeyToIndex other = uniqueKeyToIndex this ->
  addRequests items other =
    (fst (addRequests items this), withLoaded (snd (addRequests items this)) other).
Proof.
  revert this other. induction items as [|item items IH];
    intros this other Hrequests Hindex; simpl.
  - destruct this, other; simpl in *; subst; reflexivity.
  - rewrite (_addRequest_frame item this other Hrequests Hindex).
    destruct (_addRequest item this) as [[[]|e] this1]; simpl; [|reflexivity].
    rewrite (IH this1 (withLoaded this1 other)) by reflexivity.
    destruct (addRequests items this1) as [result this2]. simpl.
    destruct this2, other; reflexivity.
Qed.

Lemma _addRequestsFromUrl_frame (fetched : option (list Request))
    (this other : RequestList) :
  requests other = requests this ->
  uniqueKeyToIndex other = uniqueKeyToIndex this ->
  _addRequestsFromUrl fetched other =
    (fst (fst (_addRequestsFromUrl fetched this)),
     withLoaded (snd (fst (_addRequestsFromUrl fetched this))) other,
     snd (_addRequestsFromUrl fetched this)).
Proof.
  intros Hrequests Hindex. unfold _addRequestsFromUrl.
  destruct fetched as [[|url urlsArr]|]; simpl;
    try (destruct this, other; simpl in *; subst; reflexivity).
  rewrite (_addRequest_frame url this other Hrequests Hindex).
  destruct (_addRequest url this) as [[[]|e] this1]; simpl; [|reflexivity].
  rewrite (addRequests_frame urlsArr this1 (withLoaded this1 other))
    by reflexivity.
  destruct (addRequests urlsArr this1) as [[[]|e] this2]; simpl;
    rewrite ?Hrequests; destruct this2, other; reflexivity.
Qed.

Lemma loadSources_frame (sources : list Source) (this other : RequestList) :
  requests other = requests this ->
  uniqueKeyToIndex other = uniqueKeyToIndex this ->
  loadSources sources other =
    (fst (fst (loadSources sources this)),
     withLoaded (snd (fst (loadSources sources this))) other,
     snd (loadSources sources this)).
Proof.
  revert this other. induction sources as [|source sources IH];
    intros this other Hrequests Hindex; simpl.
  - destruct this, other; simpl in *; subst; reflexivity.
  - destruct source as [request|fetched].
    + rewrite (_addRequest_frame request this other Hrequests Hindex).
      destruct (_addRequest request this) as [[[]|e] this1]; simpl;
        [|reflexivity].
      rewrite (IH this1 (withLoaded this1 other)) by reflexivity.
      destruct (loadSources sources this1) as [[result this2] log]. simpl.
      destruct this2, other; reflexivity.
    + rewrite (_addRequestsFromUrl_frame fetched this other Hrequests Hindex).
      destruct (_addRequestsFromUrl fetched this) as [[[[]|e] this1] log1];
        simpl; [|reflexivity].
      rewrite (IH this1 (withLoaded this1 other)) by reflexivity.
      destruct (loadSources sources this1) as [[result this2] log]. simpl.
      destruct this2, other; reflexivity.
Qed.

(** ** Dictionaries *)

Lemma elem_of_dict_delete (key uniqueKey : string) (dict : gset string) :
  key ∈ dict_delete uniqueKey dict <-> key ∈ dict /\ key <> uniqueKey.
Proof. unfold dict_delete. set_solver. Qed.

Lemma elem_of_dict_set (key uniqueKey : string) (dict : gset string) :
  key ∈ dict_set uniqueKey dict <->
  key ∈ dict \/ (key = uniqueKey /\ uniqueKey <> "__proto__").
Proof.
  unfold dict_set. destruct (bool_decide_reflect (uniqueKey = "__proto__"))
    as [Hproto|Hproto].
  - split; [auto|]. intros [Hin|[_ Hne]]; [exact Hin|contradiction].
  - rewrite elem_of_union, elem_of_singleton. split.
    + intros [->|Hin]; auto.
    + intros [Hin|[-> _]]; auto.
Qed.

Lemma dict_set_own (uniqueKey : string) (dict : gset string) :
  isInherited uniqueKey = false -> dict_set uniqueKey dict = {[ uniqueKey ]} ∪ dict.
Proof.
  intros Hown. unfold dict_set.
  destruct (bool_decide_reflect (uniqueKey = "__proto__")) as [->|_];
    [discriminate|reflexivity].
Qed.

Lemma dict_truthy_own (uniqueKey : string) (dict : gset string) :
  isInherited uniqueKey = false ->
  dict_truthy dict uniqueKey = bool_decide (uniqueKey ∈ dict).
Proof. intros Hown. unfold dict_truthy. rewrite Hown. apply orb_false_r. Qed.

Lemma elem_of_deleteEach (key : string) (deleteFromInProgress : list string)
    (dict : gset string) :
  key ∈ deleteEach deleteFromInProgress dict <->
  key ∈ dict /\ key ∉ deleteFromInProgress.
Proof.
  unfold deleteEach. revert dict.
  induction deleteFromInProgress as [|uniqueKey rest IH]; intros dict; simpl.
  - split; [intros Hin; split; [exact Hin|apply not_elem_of_nil] | tauto].
  - rewrite IH, elem_of_dict_delete, not_elem_of_cons. tauto.
Qed.

(** ** Restoring the state *)

Lemma collectDeleteFromInProgress_spec (index : gmap string nat)
    (stateNextIndex : JsNum) (keys acc : list string) :
  match collectDeleteFromInProgress index stateNextIndex keys acc with
  | Ok deleteFromInProgress =>
      (forall key, key ∈ keys -> is_Some (index !! key))
      /\ forall key, key ∈ deleteFromInProgress <->
           key ∈ acc
           \/ (key ∈ keys
               /\ exists i, index !! key = Some i
                            /\ js_int_ge (Z.of_nat i) stateNextIndex = true)
  | Throw e =>
      e = UnknownUniqueKey /\ exists key, key ∈ keys /\ index !! key = None
  end.
Proof.
  revert acc. induction keys as [|uniqueKey keys IH]; intros acc; simpl.
  - split.
    + intros key Hin. inversion Hin.
    + intros key. split; [auto|]. intros [Hin|[Hin _]]; [exact Hin|inversion Hin].
  - unfold js_get. destruct (index !! uniqueKey) as [i|] eqn:Elookup.
    + match goal with |- context [collectDeleteFromInProgress _ _ _ ?a] =>
        specialize (IH a) end.
      destruct (collectDeleteFromInProgress index stateNextIndex keys _)
        as [deleteFromInProgress|e].
      * destruct IH as [Hknown Hdel]. split.
        -- intros key Hin. apply elem_of_cons in Hin as [->|Hin]; eauto.
        -- intros key. rewrite Hdel. rewrite elem_of_cons.
           destruct (js_int_ge (Z.of_nat i) stateNextIndex) eqn:Ege.
           ++ rewrite elem_of_app, list_elem_of_singleton. split.
              ** intros [[Hacc| ->]|(Hin & Hi)]; eauto 8.
              ** intros [Hacc|[[->|Hin] Hi]]; eauto.
           ++ split.
              ** intros [Hacc|(Hin & Hi)]; eauto.
              ** intros [Hacc|[[->|Hin] (j & Hj & Hge)]]; eauto.
                 congruence.
      * destruct IH as [-> (key & Hin & Hnone)]. split; [reflexivity|].
        exists key. split; [by right|exact Hnone].
    + assert (forall e : Error, e = UnknownUniqueKey ->
                e = UnknownUniqueKey
                /\ exists key, key ∈ uniqueKey :: keys /\ index !! key = None)
        as Hthrow.
      { intros e ->. split; [reflexivity|]. exists uniqueKey. split; [left|assumption]. }
      destruct (isInherited uniqueKey); apply Hthrow; reflexivity.
Qed.

Lemma checkNextIndex_Ok (state : State) (this : RequestList) (n : JsNum) :
  checkNextIndex state this = Ok n ->
  state_nextIndex state = JsNumber n
  /\ cursorInRange n (length (requests this))
  /\ (js_lt n (Z.of_nat (length (requests this))) = true ->
      exists request, js_index (requests this) n = Some request
                      /\ state_nextUniqueKey state = JsString (uniqueKey request)).
Proof.
  unfold checkNextIndex. destruct (state_nextIndex state) as [| | |x| |];
    try discriminate.
  destruct (js_lt x 0) eqn:Eneg; [discriminate|].
  destruct (js_gt x _) eqn:Egt; [discriminate|].
  destruct (js_lt x (Z.of_nat _)) eqn:Elt.
  - destruct (js_index (requests this) x) as [request|] eqn:Eindex;
      [|discriminate].
    destruct (bool_decide_reflect
                (JsString (uniqueKey request) = state_nextUniqueKey state))
      as [Hkey|_]; [|discriminate].
    intros [= <-]. split; [reflexivity|]. split.
    + destruct x as [| | |z|f]; simpl in *; try discriminate.
      right. exists z. split; [reflexivity|]. lia.
    + intros _. exists request. auto.
  - intros [= <-]. split; [reflexivity|]. split; [|intros Hlt; congruence].
    destruct x as [| | |z|f]; simpl in *; try discriminate.
    + by left.
    + right. exists z. split; [reflexivity|]. lia.
    + lia.
Qed.

(** The three ways the restore of a state can end. *)
Lemma restoreState_cases (state : State) (this : RequestList) :
  (exists e, checkNextIndex state this = Throw e
             /\ restoreState (Some state) this = (Throw e, this, []))
  \/ (exists n, checkNextIndex state this = Ok n
        /\ (exists key, key ∈ state_inProgress state
                        /\ uniqueKeyToIndex this !! key = None)
        /\ restoreState (Some state) this = (Throw UnknownUniqueKey, this, []))
  \/ (exists n deleteFromInProgress,
        checkNextIndex state this = Ok n
        /\ (forall key, key ∈ state_inProgress state ->
              is_Some (uniqueKeyToIndex this !! key))
        /\ (forall key, key ∈ deleteFromInProgress <->
              key ∈ state_inProgress state
              /\ exists i, uniqueKeyToIndex this !! key = Some i
                           /\ js_int_ge (Z.of_nat i) n = true)
        /\ restoreState (Some state) this =
             (Ok tt,
              restored n
                (deleteEach deleteFromInProgress (state_inProgress state)) this,
              warningOf deleteFromInProgress)).
Proof.
  unfold restoreState. destruct (checkNextIndex state this) as [n|e].
  - right.
    pose proof (collectDeleteFromInProgress_spec (uniqueKeyToIndex this) n
                  (elements (state_inProgress state)) []) as Hspec.
    destruct (collectDeleteFromInProgress _ _ _ _) as [deleteFromInProgress|e].
    + right. exists n, deleteFromInProgress. destruct Hspec as [Hknown Hdel].
      split; [reflexivity|]. split.
      { intros key Hin. apply Hknown. by apply elem_of_elements. }
      split; [|reflexivity].
      intros key. rewrite Hdel. rewrite elem_of_elements. split.
      * intros [Hnil|Hin]; [inversion Hnil|exact Hin].
      * auto.
    + left. exists n. destruct Hspec as [-> (key & Hin & Hnone)].
      split; [reflexivity|]. split; [|reflexivity].
      exists key. split; [by apply elem_of_elements|exact Hnone].
  - left. exists e. auto.
Qed.

(** ** initialize *)

Lemma initialize_unfold (this : RequestList) :
  isLoading this = false ->
  initialize this =
    match loadSources (sources this) (set_isLoading true this) with
    | (Throw e, loaded, log) => (Throw e, loaded, log)
    | (Ok _, loaded, log) =>
        match initialStatePromise loaded with
        | Rejected => (Throw InitialStateRejected, loaded, log)
        | Resolved state =>
            match restoreState state loaded with
            | (Throw e, this', log') => (Throw e, this', log ++ log')
            | (Ok _, this', log') =>
                (Ok tt, set_isInitialized true this', log ++ log')
            end
        end
    end.
Proof. intros Hloading. unfold initialize. rewrite Hloading. reflexivity. Qed.

(** Loading changes [requests] and [uniqueKeyToIndex] only. *)
Lemma loadSources_self_frame (sources : list Source) (this : RequestList) :
  snd (fst (loadSources sources this))
  = withLoaded (snd (fst (loadSources sources this))) this.
Proof.
  pose proof (loadSources_frame sources this this eq_refl eq_refl) as Hframe.
  rewrite Hframe at 1. reflexivity.
Qed.

Lemma restoreState_Throw_frame (state : option State) (this this' : RequestList)
    (e : Error) (log : list LogEvent) :
  restoreState state this = (Throw e, this', log) -> this' = this.
Proof.
  destruct state as [state|]; [|discriminate].
  destruct (restoreState_cases state this)
    as [(e' & _ & Hrun)|[(n & _ & _ & Hrun)|(n & del & _ & _ & _ & Hrun)]];
    rewrite Hrun; intros [= ]; congruence.
Qed.

(** A list whose initialization fails is not initialized. *)
Lemma initialize_Throw_not_initialized (this this' : RequestList) (e : Error)
    (log : list LogEvent) :
  isInitialized this = false ->
  initialize this = (Throw e, this', log) ->
  isInitialized this' = false.
Proof.
  intros Hfresh. unfold initialize. destruct (isLoading this).
  { intros [= _ <- _]. exact Hfresh. }
  pose proof (loadSources_self_frame (sources (set_isLoading true this))
                (set_isLoading true this)) as Hframe.
  destruct (loadSources _ _) as [[[[]|e1] loaded] log1]; simpl in Hframe.
  - assert (isInitialized loaded = false) as Hloaded
        by (rewrite Hframe; exact Hfresh).
    destruct (initialStatePromise loaded) as [state|].
    + destruct (restoreState state loaded) as [[[[]|e2] this2] log2] eqn:Erestore;
        [discriminate|].
      apply restoreState_Throw_frame in Erestore as ->.
      intros [= _ <- _]. exact Hloaded.
    + intros [= _ <- _]. exact Hloaded.
  - intros [= _ <- _]. rewrite Hframe. exact Hfresh.
Qed.

Lemma loadedRequests_of (sources : list Source) (this loaded : RequestList)
    (log : list LogEvent) :
  requests this = [] -> uniqueKeyToIndex this = ∅ ->
  loadSources sources this = (Ok tt, loaded, log) ->
  loadedRequests sources = Some (requests loaded, uniqueKeyToIndex loaded).
Proof.
  intros Hrequests Hindex Hload. unfold loadedRequests.
  rewrite (loadSources_frame sources this) by (rewrite ?Hrequests, ?Hindex; reflexivity).
  rewrite Hload. reflexivity.
Qed.

Lemma loadSources_Indexed (sources : list Source) (this loaded : RequestList)
    (log : list LogEvent) :
  Indexed (requests this) (uniqueKeyToIndex this) ->
  loadSources sources this = (Ok tt, loaded, log) ->
  Indexed (requests loaded) (uniqueKeyToIndex loaded).
Proof.
  intros Hindexed Hload. apply loadSources_Ok in Hload.
  by apply (addRequests_Ok _ _ _ Hindexed) in Hload as [? _].
Qed.

(** How a successful [initialize] of a new list went. *)
Lemma initialize_Ok_inv (srcs : list Source) (persistStateKey : option string)
    (state : option State) (stored : Settled (option State))
    (this : RequestList) (log : list LogEvent) :
  let fresh := RequestList_constructor srcs persistStateKey state stored in
  initialize fresh = (Ok tt, this, log) ->
  exists loaded log1 initialState this' log2,
    loadSources srcs (set_isLoading true fresh) = (Ok tt, loaded, log1)
    /\ loaded = withLoaded loaded (set_isLoading true fresh)
    /\ initialStatePromise fresh = Resolved initialState
    /\ restoreState initialState loaded = (Ok tt, this', log2)
    /\ this = set_isInitialized true this'
    /\ log = log1 ++ log2.
Proof.
  intros fresh Hinit. rewrite initialize_unfold in Hinit by reflexivity.
  pose proof (loadSources_self_frame (sources fresh) (set_isLoading true fresh))
    as Hframe.
  change (sources fresh) with srcs in *.
  destruct (loadSources srcs (set_isLoading true fresh))
    as [[[[]|e] loaded] log1]; [|discriminate].
  simpl in Hframe.
  assert (initialStatePromise loaded = initialStatePromise fresh) as Hpromise
      by (rewrite Hframe; reflexivity).
  rewrite Hpromise in Hinit.
  destruct (initialStatePromise fresh) as [initialState|]; [|discriminate].
  destruct (restoreState initialState loaded) as [[[[]|e] this'] log2] eqn:Erestore;
    [|discriminate].
  injection Hinit as <- <-.
  exists loaded, log1, initialState, this', log2. auto 10.
Qed.

Lemma cursorInRange_zero (len : nat) : cursorInRange (JsInt 0) len.
Proof. right. exists 0%Z. split; [reflexivity|lia]. Qed.

(** A successful [initialize] gives a consistent list. *)
Lemma initialize_Consistent (srcs : list Source)
    (persistStateKey : option string) (state : option State)
    (stored : Settled (option State)) (this : RequestList)
    (log : list LogEvent) :
  initialize (RequestList_constructor srcs persistStateKey state stored)
    = (Ok tt, this, log) ->
  Consistent this.
Proof.
  intros Hinit.
  destruct (initialize_Ok_inv _ _ _ _ _ _ Hinit)
    as (loaded & log1 & initialState & this' & log2
        & Hload & Hframe & _ & Hrestore & -> & _).
  assert (Indexed (requests loaded) (uniqueKeyToIndex loaded)) as Hindexed.
  { eapply loadSources_Indexed; [|exact Hload]. apply Indexed_empty. }
  assert (loadedRequests srcs
          = Some (requests loaded, uniqueKeyToIndex loaded)) as Hloaded.
  { eapply loadedRequests_of; [| |exact Hload]; reflexivity. }
  assert (sources loaded = srcs) as Hsources
      by (rewrite Hframe; reflexivity).
  destruct initialState as [initialState|].
  - destruct (restoreState_cases initialState loaded)
      as [(e & _ & Hrun)|[(n & _ & _ & Hrun)|(n & del & Hcheck & Hknown & Hdel & Hrun)]];
      rewrite Hrun in Hrestore; try discriminate.
    injection Hrestore as <- _.
    apply checkNextIndex_Ok in Hcheck as (_ & Hrange & _).
    constructor; simpl; try assumption; try reflexivity.
    + by rewrite Hsources.
    + intros key Hin. apply elem_of_deleteEach in Hin as [Hin Hkept].
      destruct (Hknown key Hin) as [i Hi]. exists i. split; [exact Hi|].
      destruct (js_int_ge (Z.of_nat i) n) eqn:Ege; [|reflexivity].
      exfalso. apply Hkept. apply Hdel. eauto.
  - injection Hrestore as <- _.
    constructor; simpl; try assumption; try reflexivity.
    + by rewrite Hsources.
    + rewrite Hframe. simpl. apply cursorInRange_zero.
    + rewrite Hframe. simpl. intros key Hin. set_solver.
    + rewrite Hframe. simpl. reflexivity.
Qed.

Lemma loadedRequests_load (srcs : list Source) (array : list Request)
    (index : gmap string nat) (this : RequestList) :
  loadedRequests srcs = Some (array, index) ->
  requests this = [] -> uniqueKeyToIndex this = ∅ ->
  exists log,
    loadSources srcs this =
      (Ok tt, set_requests array (set_uniqueKeyToIndex index this), log).
Proof.
  unfold loadedRequests. intros Hloaded Hrequests Hindex.
  rewrite (loadSources_frame srcs
             (set_isLoading true
                (RequestList_constructor srcs None None Rejected)) this)
    by (rewrite ?Hrequests, ?Hindex; reflexivity).
  destruct (loadSources srcs _) as [[[[]|e] loaded] log]; [|discriminate].
  injection Hloaded as <- <-. exists log. reflexivity.
Qed.

(** A restore whose checks of the cursor pass and whose in-progress keys all
    have an index succeeds, without the keys at or after the cursor. *)
Lemma initialize_restore (srcs : list Source) (persistStateKey : option string)
    (optState : option State) (stored : Settled (option State))
    (state : State) (loaded : RequestList) (log1 : list LogEvent) (n : JsNum) :
  let fresh := RequestList_constructor srcs persistStateKey optState stored in
  initialStatePromise fresh = Resolved (Some state) ->
  loadSources srcs (set_isLoading true fresh) = (Ok tt, loaded, log1) ->
  checkNextIndex state loaded = Ok n ->
  (forall key, key ∈ state_inProgress state ->
     is_Some (uniqueKeyToIndex loaded !! key)) ->
  exists deleteFromInProgress,
    initialize fresh =
      (Ok tt,
       set_isInitialized true
         (restored n
            (deleteEach deleteFromInProgress (state_inProgress state)) loaded),
       log1 ++ warningOf deleteFromInProgress)
    /\ forall key, key ∈ deleteFromInProgress <->
         key ∈ state_inProgress state
         /\ exists i, uniqueKeyToIndex loaded !! key = Some i
                      /\ js_int_ge (Z.of_nat i) n = true.
Proof.
  intros fresh Hpromise Hload Hcheck Hknown.
  rewrite initialize_unfold by reflexivity.
  change (sources fresh) with srcs. rewrite Hload.
  pose proof (loadSources_self_frame srcs (set_isLoading true fresh)) as Hframe.
  rewrite Hload in Hframe. simpl in Hframe.
  assert (initialStatePromise loaded = Resolved (Some state)) as ->
      by (rewrite Hframe; exact Hpromise).
  destruct (restoreState_cases state loaded)
    as [(e & Hthrow & _)
       |[(n' & _ & (key & Hin & Hnone) & _)
        |(n' & del & Hcheck' & _ & Hdel & Hrun)]].
  - congruence.
  - destruct (Hknown key Hin) as [i Hi]. congruence.
  - assert (n' = n) as -> by congruence. rewrite Hrun.
    exists del. split; [reflexivity|exact Hdel].
Qed.

(** Dually, a key without an index makes the restore throw. *)
Lemma initialize_unknown_key (srcs : list Source)
    (persistStateKey : option string) (optState : option State)
    (stored : Settled (option State)) (state : State) (loaded : RequestList)
    (log1 : list LogEvent) (key : string) :
  let fresh := RequestList_constructor srcs persistStateKey optState stored in
  initialStatePromise fresh = Resolved (Some state) ->
  loadSources srcs (set_isLoading true fresh) = (Ok tt, loaded, log1) ->
  key ∈ state_inProgress state ->
  uniqueKeyToIndex loaded !! key = None ->
  exists e,
    initialize fresh = (Throw e, loaded, log1)
    /\ (e = UnknownUniqueKey \/ checkNextIndex state loaded = Throw e).
Proof.
  intros fresh Hpromise Hload Hin Hnone.
  rewrite initialize_unfold by reflexivity.
  change (sources fresh) with srcs. rewrite Hload.
  pose proof (loadSources_self_frame srcs (set_isLoading true fresh)) as Hframe.
  rewrite Hload in Hframe. simpl in Hframe.
  assert (initialStatePromise loaded = Resolved (Some state)) as ->
      by (rewrite Hframe; exact Hpromise).
  destruct (restoreState_cases state loaded)
    as [(e & Hthrow & Hrun)
       |[(n' & _ & _ & Hrun)
        |(n' & del & _ & Hknown & _)]].
  - rewrite Hrun. exists e. rewrite app_nil_r. auto.
  - rewrite Hrun. exists UnknownUniqueKey. rewrite app_nil_r. auto.
  - destruct (Hknown key Hin) as [i Hi]. congruence.
Qed.

(** ** The methods of an initialized list *)

Lemma js_index_Some {A : Type} (array : list A) (x : JsNum) (a : A) :
  js_index array x = Some a <->
  exists z, x = JsInt z /\ (0 <= z)%Z /\ array !! Z.to_nat z = Some a.
Proof.
  unfold js_index. destruct x as [| | |z|f];
    try (split; [discriminate|intros (z' & Hx & _); discriminate]).
  destruct (Z.leb_spec 0 z).
  - split; [eauto|]. intros (z' & [= <-] & _ & Hlookup). exact Hlookup.
  - split; [discriminate|]. intros (z' & [= <-] & Hle & _). lia.
Qed.

Lemma cursorInRange_lt (x : JsNum) (len : nat) :
  cursorInRange x len -> js_lt x (Z.of_nat len) = true ->
  exists z, x = JsInt z /\ (0 <= z < Z.of_nat len)%Z.
Proof.
  intros [->|(z & -> & Hrange)] Hlt; simpl in Hlt; [discriminate|].
  exists z. split; [reflexivity|]. lia.
Qed.

(** The checks of the cursor reject every [nextIndex] that is not a
    non-negative integer, except [NaN], every [nextIndex] above the length,
    and every position whose request has another key than
    [state.nextUniqueKey]. *)
Lemma checkNextIndex_rejects (state : State) (this : RequestList) :
  state_nextIndex state <> JsNumber JsNaN ->
  (forall z, state_nextIndex state = JsNumber (JsInt z) -> (z < 0)%Z)
  \/ (exists z, state_nextIndex state = JsNumber (JsInt z)
                /\ (Z.of_nat (length (requests this)) < z)%Z)
  \/ (exists z request,
        state_nextIndex state = JsNumber (JsInt z)
        /\ (0 <= z)%Z
        /\ requests this !! Z.to_nat z = Some request
        /\ state_nextUniqueKey state <> JsString (uniqueKey request)) ->
  exists e, checkNextIndex state this = Throw e.
Proof.
  intros Hnan Hbad.
  destruct (checkNextIndex state this) as [n|e] eqn:Hcheck; [|eauto].
  exfalso. apply checkNextIndex_Ok in Hcheck as (Hnumber & Hrange & Hkey).
  destruct Hrange as [->|(z & -> & Hrange)]; [contradiction|].
  destruct Hbad as [Hneg|[(z' & Hz' & Hgt)|(z' & request & Hz' & _ & Hrequest & Hne)]].
  - specialize (Hneg z Hnumber). lia.
  - rewrite Hnumber in Hz'. injection Hz' as <-. lia.
  - rewrite Hnumber in Hz'. injection Hz' as <-.
    pose proof (lookup_lt_Some _ _ _ Hrequest) as Hlt.
    destruct Hkey as (found & Hfound & Hsame).
    { simpl. apply Z.ltb_lt. lia. }
    apply js_index_Some in Hfound as (z' & [= <-] & _ & Hfound).
    congruence.
Qed.

(** The same for [initialize]: it throws, and the list is not initialized. *)
Lemma initialize_rejects_cursor (srcs : list Source)
    (persistStateKey : option string) (optState : option State)
    (stored : Settled (option State)) (state : State) (loaded : RequestList)
    (log1 : list LogEvent) :
  let fresh := RequestList_constructor srcs persistStateKey optState stored in
  initialStatePromise fresh = Resolved (Some state) ->
  loadSources srcs (set_isLoading true fresh) = (Ok tt, loaded, log1) ->
  state_nextIndex state <> JsNumber JsNaN ->
  (forall z, state_nextIndex state = JsNumber (JsInt z) -> (z < 0)%Z)
  \/ (exists z, state_nextIndex state = JsNumber (JsInt z)
                /\ (Z.of_nat (length (requests loaded)) < z)%Z)
  \/ (exists z request,
        state_nextIndex state = JsNumber (JsInt z)
        /\ (0 <= z)%Z
        /\ requests loaded !! Z.to_nat z = Some request
        /\ state_nextUniqueKey state <> JsString (uniqueKey request)) ->
  exists e this' log,
    initialize fresh = (Throw e, this', log) /\ isInitialized this' = false.
Proof.
  intros fresh Hpromise Hload Hnan Hbad.
  destruct (checkNextIndex_rejects state loaded Hnan Hbad) as (e & Hcheck).
  assert (initialize fresh = (Throw e, loaded, log1)) as Hrun.
  { rewrite initialize_unfold by reflexivity.
    change (sources fresh) with srcs. rewrite Hload.
    pose proof (loadSources_self_frame srcs (set_isLoading true fresh)) as Hframe.
    rewrite Hload in Hframe. simpl in Hframe.
    assert (initialStatePromise loaded = Resolved (Some state)) as ->
        by (rewrite Hframe; exact Hpromise).
    unfold restoreState. rewrite Hcheck. by rewrite app_nil_r. }
  exists e, loaded, log1. split; [exact Hrun|].
  eapply initialize_Throw_not_initialized; [|exact Hrun]. reflexivity.
Qed.

Lemma Consistent_inProgress_valid (this : RequestList) (key : string) :
  Consistent this -> key ∈ inProgress this ->
  exists index request,
    uniqueKeyToIndex this !! key = Some index
    /\ requests this !! index = Some request
    /\ uniqueKey request = key
    /\ key <> "" /\ isInherited key = false
    /\ js_int_ge (Z.of_nat index) (nextIndex this) = false.
Proof.
  intros Hcons Hin.
  destruct (consistent_inProgress _ Hcons key Hin) as (index & Hindex & Hbelow).
  destruct (Indexed_lookup _ _ _ _ (consistent_indexed _ Hcons) Hindex)
    as (request & Hrequest & Hkey & Hne & Hown).
  exists index, request. auto 10.
Qed.

(** [getState()] of a consistent list, and the checks of the cursor on a list
    with the same requests. *)
Lemma Consistent_getState (this : RequestList) :
  Consistent this ->
  exists nextUniqueKey,
    getState this =
      Ok {| state_nextIndex := JsNumber (nextIndex this);
            state_nextUniqueKey := nextUniqueKey;
            state_inProgress := inProgress this |}
    /\ forall other,
         requests other = requests this ->
         checkNextIndex
           {| state_nextIndex := JsNumber (nextIndex this);
              state_nextUniqueKey := nextUniqueKey;
              state_inProgress := inProgress this |} other
         = Ok (nextIndex this).
Proof.
  intros Hcons. unfold getState, _ensureIsInitialized.
  rewrite (consistent_initialized _ Hcons).
  pose proof (consistent_cursor _ Hcons) as Hrange.
  destruct (js_lt (nextIndex this) _) eqn:Hlt.
  - destruct (cursorInRange_lt _ _ Hrange Hlt) as (z & Hz & Hbounds).
    assert (is_Some (requests this !! Z.to_nat z)) as [request Hrequest]
        by (apply lookup_lt_is_Some; lia).
    assert (js_index (requests this) (nextIndex this) = Some request) as Hindex.
    { apply js_index_Some. exists z. split; [exact Hz|]. split; [lia|exact Hrequest]. }
    rewrite Hindex. eexists. split; [reflexivity|].
    intros other Hother. unfold checkNextIndex. simpl. rewrite Hother, Hlt, Hindex.
    rewrite Hz. simpl.
    destruct (Z.ltb_spec z 0); [lia|].
    destruct (Z.ltb_spec (Z.of_nat (length (requests this))) z); [lia|].
    rewrite bool_decide_eq_true_2 by reflexivity. reflexivity.
  - eexists. split; [reflexivity|].
    intros other Hother. unfold checkNextIndex. simpl. rewrite Hother, Hlt.
    destruct Hrange as [->|(z & -> & Hbounds)]; [reflexivity|]. simpl.
    destruct (Z.ltb_spec z 0); [lia|].
    destruct (Z.ltb_spec (Z.of_nat (length (requests this))) z); [lia|].
    reflexivity.
Qed.

(** Closes a goal about explicit lists, sets and keys. *)
Ltac closed_step :=
  first [ done | lia | set_solver | vm_compute; reflexivity ].

Section MethodProofs.
Context `{FirstKey}.

Lemma getFirstKey_empty : getFirstKey ∅ = None.
Proof.
  destruct (getFirstKey ∅) as [key|] eqn:Efirst; [|reflexivity].
  apply getFirstKey_Some in Efirst. set_solver.
Qed.

Lemma getFirstKey_nonempty (dict : gset string) :
  dict <> ∅ -> exists key, getFirstKey dict = Some key /\ key ∈ dict.
Proof.
  intros Hne. destruct (getFirstKey dict) as [key|] eqn:Efirst.
  - exists key. split; [reflexivity|]. by apply getFirstKey_Some.
  - apply getFirstKey_None in Efirst. contradiction.
Qed.

(** What [fetchNextRequest] does on a consistent list: it serves a reclaimed
    key, or the request at the cursor, or nothing. *)
Lemma fetchNextRequest_cases (this : RequestList) :
  Consistent this ->
  (exists key index request,
      getFirstKey (reclaimed this) = Some key
      /\ key ∈ reclaimed this
      /\ uniqueKeyToIndex this !! key = Some index
      /\ requests this !! index = Some request
      /\ uniqueKey request = key
      /\ fetchNextRequest this =
           (Ok (FetchedRequest request),
            set_reclaimed (dict_delete key (reclaimed this)) this))
  \/ (reclaimed this = ∅
      /\ exists z request,
           nextIndex this = JsInt z
           /\ (0 <= z < Z.of_nat (length (requests this)))%Z
           /\ requests this !! Z.to_nat z = Some request
           /\ fetchNextRequest this =
                (Ok (FetchedRequest request),
                 set_isStatePersisted false
                   (set_nextIndex (JsInt (z + 1))
                      (set_inProgress ({[ uniqueKey request ]} ∪ inProgress this)
                         this))))
  \/ (reclaimed this = ∅
      /\ js_lt (nextIndex this) (Z.of_nat (length (requests this))) = false
      /\ fetchNextRequest this = (Ok FetchedNull, this)).
Proof.
  intros Hcons. unfold fetchNextRequest, _ensureIsInitialized.
  rewrite (consistent_initialized _ Hcons).
  destruct (getFirstKey (reclaimed this)) as [key|] eqn:Efirst.
  - left. pose proof (getFirstKey_Some _ _ Efirst) as Hin.
    assert (key ∈ inProgress this) as Hin'
        by (by apply (consistent_reclaimed _ Hcons)).
    destruct (Consistent_inProgress_valid _ _ Hcons Hin')
      as (index & request & Hindex & Hrequest & Hkey & Hne & Hown & _).
    exists key, index, request.
    split; [reflexivity|]. split; [exact Hin|]. split; [exact Hindex|].
    split; [exact Hrequest|]. split; [exact Hkey|].
    simpl. apply string_truthy_true in Hne. rewrite Hne.
    unfold requestOfKey. simpl.
    apply js_get_own in Hindex. rewrite Hindex, Hrequest. reflexivity.
  - right. apply getFirstKey_None in Efirst. simpl.
    destruct (js_lt (nextIndex this) _) eqn:Elt.
    + left. split; [exact Efirst|].
      destruct (cursorInRange_lt _ _ (consistent_cursor _ Hcons) Elt)
        as (z & Hz & Hrange).
      assert (is_Some (requests this !! Z.to_nat z)) as [request Hrequest]
          by (apply lookup_lt_is_Some; lia).
      exists z, request.
      split; [exact Hz|]. split; [exact Hrange|]. split; [exact Hrequest|].
      rewrite Hz. simpl. destruct (Z.leb_spec 0 z); [|lia].
      rewrite Hrequest. rewrite dict_set_own; [reflexivity|].
      assert (request ∈ requests this) as Hin
          by (apply list_elem_of_lookup; eauto).
      by apply (consistent_indexed _ Hcons) in Hin as [_ ?].
    + right. auto.
Qed.

(** What [markRequestHandled] and [reclaimRequest] check. *)
Lemma _ensureInProgressAndNotReclaimed_Ok (uniqueKey : string)
    (this : RequestList) :
  _ensureInProgressAndNotReclaimed uniqueKey this = Ok tt <->
  uniqueKey ∈ inProgress this /\ (uniqueKey ∉ reclaimed this)
  /\ isInherited uniqueKey = false.
Proof.
  unfold _ensureInProgressAndNotReclaimed, dict_truthy.
  destruct (bool_decide_reflect (uniqueKey ∈ inProgress this)) as [Hin|Hout];
    destruct (bool_decide_reflect (uniqueKey ∈ reclaimed this)) as [Hre|Hnre];
    destruct (isInherited uniqueKey); simpl; split;
    try discriminate; try tauto; intros (? & ? & ?); try contradiction;
    discriminate.
Qed.

Lemma markRequestHandled_Ok (request : Request) (this this' : RequestList) :
  markRequestHandled request this = (Ok tt, this') <->
  uniqueKey request <> ""
  /\ uniqueKey request ∈ inProgress this
  /\ (uniqueKey request ∉ reclaimed this)
  /\ isInherited (uniqueKey request) = false
  /\ isInitialized this = true
  /\ this' = set_isStatePersisted false
               (set_inProgress (inProgress this ∖ {[ uniqueKey request ]}) this).
Proof.
  unfold markRequestHandled, ensureUniqueKeyValid, _ensureIsInitialized.
  destruct (string_truthy (uniqueKey request)) eqn:Etruthy.
  - apply string_truthy_true in Etruthy.
    destruct (_ensureInProgressAndNotReclaimed (uniqueKey request) this)
      as [[]|e] eqn:Echeck.
    + apply _ensureInProgressAndNotReclaimed_Ok in Echeck as (? & ? & ?).
      destruct (isInitialized this).
      * split; [intros [= <-]; auto 10|]. intros (_&_&_&_&_& ->). reflexivity.
      * split; [discriminate|]. intros (_&_&_&_&?&_). discriminate.
    + split; [discriminate|]. intros (_ & Hin & Hre & Hown & _).
      assert (_ensureInProgressAndNotReclaimed (uniqueKey request) this = Ok tt)
        as Hok by (apply _ensureInProgressAndNotReclaimed_Ok; auto).
      congruence.
  - split; [discriminate|]. intros (Hne & _).
    apply string_truthy_true in Hne. congruence.
Qed.

Lemma reclaimRequest_Ok (request : Request) (this this' : RequestList) :
  reclaimRequest request this = (Ok tt, this') <->
  uniqueKey request <> ""
  /\ uniqueKey request ∈ inProgress this
  /\ (uniqueKey request ∉ reclaimed this)
  /\ isInherited (uniqueKey request) = false
  /\ isInitialized this = true
  /\ this' = set_reclaimed ({[ uniqueKey request ]} ∪ reclaimed this) this.
Proof.
  unfold reclaimRequest, ensureUniqueKeyValid, _ensureIsInitialized.
  destruct (string_truthy (uniqueKey request)) eqn:Etruthy.
  - apply string_truthy_true in Etruthy.
    destruct (_ensureInProgressAndNotReclaimed (uniqueKey request) this)
      as [[]|e] eqn:Echeck.
    + apply _ensureInProgressAndNotReclaimed_Ok in Echeck as (? & ? & Hown).
      rewrite (dict_set_own _ _ Hown).
      destruct (isInitialized this).
      * split; [intros [= <-]; auto 10|]. intros (_&_&_&_&_& ->). reflexivity.
      * split; [discriminate|]. intros (_&_&_&_&?&_). discriminate.
    + split; [discriminate|]. intros (_ & Hin & Hre & Hown & _).
      assert (_ensureInProgressAndNotReclaimed (uniqueKey request) this = Ok tt)
        as Hok by (apply _ensureInProgressAndNotReclaimed_Ok; auto).
      congruence.
  - split; [discriminate|]. intros (Hne & _).
    apply string_truthy_true in Hne. congruence.
Qed.

Lemma markRequestHandled_succeeds (this : RequestList) (request : Request) :
  Consistent this ->
  uniqueKey request ∈ inProgress this ->
  (uniqueKey request ∉ reclaimed this) ->
  markRequestHandled request this =
    (Ok tt,
     set_isStatePersisted false
       (set_inProgress (inProgress this ∖ {[ uniqueKey request ]}) this)).
Proof.
  intros Hcons Hin Hout.
  destruct (Consistent_inProgress_valid _ _ Hcons Hin)
    as (index & found & _ & _ & _ & Hne & Hown & _).
  pose proof (consistent_initialized _ Hcons) as Hinit.
  apply markRequestHandled_Ok. auto 10.
Qed.

Lemma reclaimRequest_succeeds (this : RequestList) (request : Request) :
  Consistent this ->
  uniqueKey request ∈ inProgress this ->
  (uniqueKey request ∉ reclaimed this) ->
  reclaimRequest request this =
    (Ok tt, set_reclaimed ({[ uniqueKey request ]} ∪ reclaimed this) this).
Proof.
  intros Hcons Hin Hout.
  destruct (Consistent_inProgress_valid _ _ Hcons Hin)
    as (index & found & _ & _ & _ & Hne & Hown & _).
  pose proof (consistent_initialized _ Hcons) as Hinit.
  apply reclaimRequest_Ok. auto 10.
Qed.

(** A method that throws leaves the list as it was. *)
Lemma fetchNextRequest_Throw (this this' : RequestList) (e : Error) :
  fetchNextRequest this = (Throw e, this') -> this' = this.
Proof.
  unfold fetchNextRequest. destruct (_ensureIsInitialized this);
    [|by intros [= _ <-]].
  destruct (ifTruthy _); [discriminate|].
  destruct (js_lt _ _); [|discriminate].
  destruct (js_index _ _); [discriminate|]. by intros [= _ <-].
Qed.

Lemma markRequestHandled_Throw (request : Request) (this this' : RequestList)
    (e : Error) :
  markRequestHandled request this = (Throw e, this') -> this' = this.
Proof.
  unfold markRequestHandled. destruct (ensureUniqueKeyValid _);
    [|by intros [= _ <-]].
  destruct (_ensureInProgressAndNotReclaimed _ _); [|by intros [= _ <-]].
  destruct (_ensureIsInitialized this); [discriminate|by intros [= _ <-]].
Qed.

Lemma reclaimRequest_Throw (request : Request) (this this' : RequestList)
    (e : Error) :
  reclaimRequest request this = (Throw e, this') -> this' = this.
Proof.
  unfold reclaimRequest. destruct (ensureUniqueKeyValid _);
    [|by intros [= _ <-]].
  destruct (_ensureInProgressAndNotReclaimed _ _); [|by intros [= _ <-]].
  destruct (_ensureIsInitialized this); [discriminate|by intros [= _ <-]].
Qed.

(** Single steps, from what the list holds. *)
Lemma fetchNextRequest_at_cursor (this : RequestList) (z : Z)
    (request : Request) :
  isInitialized this = true ->
  reclaimed this = ∅ ->
  nextIndex this = JsInt z ->
  (0 <= z)%Z ->
  requests this !! Z.to_nat z = Some request ->
  fetchNextRequest this =
    (Ok (FetchedRequest request),
     set_isStatePersisted false
       (set_nextIndex (JsInt (z + 1))
          (set_inProgress (dict_set (uniqueKey request) (inProgress this))
             this))).
Proof.
  intros Hinit Hempty Hz Hle Hrequest.
  unfold fetchNextRequest, _ensureIsInitialized.
  rewrite Hinit, Hempty, getFirstKey_empty, Hz. simpl.
  assert (z < Z.of_nat (length (requests this)))%Z as Hlt.
  { apply lookup_lt_Some in Hrequest. lia. }
  apply Z.ltb_lt in Hlt. rewrite Hlt.
  destruct (Z.leb_spec 0 z); [|lia]. rewrite Hrequest. reflexivity.
Qed.

Lemma fetchNextRequest_only_reclaimed (this : RequestList) (key : string) :
  isInitialized this = true ->
  reclaimed this = {[ key ]} ->
  key <> "" ->
  fetchNextRequest this =
    (Ok (requestOfKey this key), set_reclaimed ∅ this).
Proof.
  intros Hinit Hreclaimed Hne.
  unfold fetchNextRequest, _ensureIsInitialized. rewrite Hinit, Hreclaimed.
  destruct (getFirstKey_nonempty {[ key ]}) as (first & Hfirst & Hin).
  { intros Hempty. assert (key ∈ (∅ : gset string)) as Habsurd
        by (rewrite <- Hempty; set_solver).
    set_solver. }
  apply elem_of_singleton in Hin as ->. rewrite Hfirst. simpl.
  apply string_truthy_true in Hne. rewrite Hne.
  assert (dict_delete key {[ key ]} = (∅ : gset string)) as ->
      by (unfold dict_delete; set_solver).
  reflexivity.
Qed.

Lemma fetchNextRequest_nothing (this : RequestList) :
  isInitialized this = true ->
  reclaimed this = ∅ ->
  js_lt (nextIndex this) (Z.of_nat (length (requests this))) = false ->
  fetchNextRequest this = (Ok FetchedNull, this).
Proof.
  intros Hinit Hempty Hlt. unfold fetchNextRequest, _ensureIsInitialized.
  rewrite Hinit, Hempty, getFirstKey_empty. simpl. rewrite Hlt. reflexivity.
Qed.

Lemma isEmpty_nothing_reclaimed (this : RequestList) :
  isInitialized this = true ->
  reclaimed this = ∅ ->
  isEmpty this = Ok (js_ge (nextIndex this) (Z.of_nat (length (requests this)))).
Proof.
  intros Hinit Hempty. unfold isEmpty, _ensureIsInitialized.
  rewrite Hinit, Hempty, getFirstKey_empty. reflexivity.
Qed.

Lemma isFinished_nothing_inProgress (this : RequestList) :
  isInitialized this = true ->
  inProgress this = ∅ ->
  isFinished this
  = Ok (js_ge (nextIndex this) (Z.of_nat (length (requests this)))).
Proof.
  intros Hinit Hempty. unfold isFinished, _ensureIsInitialized.
  rewrite Hinit, Hempty, getFirstKey_empty. reflexivity.
Qed.

Lemma isFinished_some_inProgress (this : RequestList) (key : string) :
  isInitialized this = true ->
  key ∈ inProgress this ->
  "" ∉ inProgress this ->
  isFinished this = Ok false.
Proof.
  intros Hinit Hin Hvalid. unfold isFinished, _ensureIsInitialized.
  rewrite Hinit.
  destruct (getFirstKey_nonempty (inProgress this)) as (first & -> & Hfirst).
  { intros Hempty. rewrite Hempty in Hin. set_solver. }
  simpl. assert (first <> "") as Hne by (intros ->; contradiction).
  apply string_truthy_true in Hne. rewrite Hne. reflexivity.
Qed.

(** On a consistent list, [isFinished()] being true implies [isEmpty()]
    being true. *)
Lemma isFinished_isEmpty (this : RequestList) :
  Consistent this -> isFinished this = Ok true -> isEmpty this = Ok true.
Proof.
  intros Hcons. unfold isFinished, isEmpty.
  destruct (_ensureIsInitialized this); [|discriminate].
  intros [= Hfinished]. apply andb_true_iff in Hfinished as [Hnone ->].
  destruct (getFirstKey (inProgress this)) as [key|] eqn:Efirst.
  - apply getFirstKey_Some in Efirst.
    destruct (Consistent_inProgress_valid _ _ Hcons Efirst)
      as (index & found & _ & _ & _ & Hne & _).
    apply string_truthy_true in Hne. simpl in Hnone. rewrite Hne in Hnone.
    discriminate.
  - apply getFirstKey_None in Efirst.
    assert (reclaimed this = ∅) as ->.
    { pose proof (consistent_reclaimed _ Hcons). set_solver. }
    rewrite getFirstKey_empty. reflexivity.
Qed.

End MethodProofs.

(** ** The invariant is kept *)

Lemma emitPersistState_cases (setValueOk : bool) (this this' : RequestList)
    (result : Result (option State)) (log : list LogEvent) :
  emitPersistState setValueOk this = (result, this', log) ->
  this' = this \/ this' = set_isStatePersisted true this.
Proof.
  unfold emitPersistState, persistStateHandler.
  destruct (isInitialized this && option_string_truthy (persistStateKey this));
    [|intros [= _ <- _]; by left].
  destruct (isStatePersisted this); [intros [= _ <- _]; by left|].
  destruct (getState this); [|intros [= _ <- _]; by left].
  destruct setValueOk; intros [= _ <- _]; auto.
Qed.

Lemma Consistent_set_isStatePersisted (b : bool) (this : RequestList) :
  Consistent this -> Consistent (set_isStatePersisted b this).
Proof. intros [? ? ? ? ? ?]. by constructor. Qed.

Lemma Consistent_set_reclaimed (dict : gset string) (this : RequestList) :
  Consistent this -> dict ⊆ inProgress this ->
  Consistent (set_reclaimed dict this).
Proof. intros [? ? ? ? ? ?] Hsub. by constructor. Qed.

Lemma Consistent_markRequestHandled (key : string) (this : RequestList) :
  Consistent this -> key ∉ reclaimed this ->
  Consistent (set_isStatePersisted false
                (set_inProgress (inProgress this ∖ {[ key ]}) this)).
Proof.
  intros [? ? ? ? Hin Hsub] Hout. constructor; simpl; try assumption.
  - intros k Hk. apply Hin. set_solver.
  - set_solver.
Qed.

Lemma Consistent_advance (z : Z) (request : Request) (this : RequestList) :
  Consistent this ->
  nextIndex this = JsInt z ->
  (0 <= z < Z.of_nat (length (requests this)))%Z ->
  requests this !! Z.to_nat z = Some request ->
  Consistent (set_isStatePersisted false
                (set_nextIndex (JsInt (z + 1))
                   (set_inProgress ({[ uniqueKey request ]} ∪ inProgress this)
                      this))).
Proof.
  intros [? ? Hindexed ? Hin Hsub] Hz Hrange Hrequest.
  constructor; simpl; try assumption.
  - right. exists (z + 1)%Z. split; [reflexivity|lia].
  - intros key Hkey. apply elem_of_union in Hkey as [Hkey|Hkey].
    + apply elem_of_singleton in Hkey as ->. exists (Z.to_nat z). split.
      * apply Hindexed. eauto.
      * apply Z.leb_gt. lia.
    + destruct (Hin key Hkey) as (index & Hindex & Hbelow).
      exists index. split; [exact Hindex|].
      rewrite Hz in Hbelow. simpl in Hbelow. apply Z.leb_gt in Hbelow.
      apply Z.leb_gt. lia.
  - set_solver.
Qed.

Section ReachableProofs.
Context `{FirstKey}.

Lemma fetchNextRequest_Consistent (this this' : RequestList)
    (result : Result Fetched) :
  Consistent this -> fetchNextRequest this = (result, this') ->
  Consistent this'.
Proof.
  intros Hcons Hfetch.
  destruct (fetchNextRequest_cases this Hcons)
    as [(key & index & request & _ & Hin & _ & _ & _ & Hrun)
       |[(_ & z & request & Hz & Hrange & Hrequest & Hrun)|(_ & _ & Hrun)]];
    rewrite Hrun in Hfetch; injection Hfetch as _ <-.
  - apply Consistent_set_reclaimed; [exact Hcons|].
    pose proof (consistent_reclaimed _ Hcons). unfold dict_delete. set_solver.
  - by apply Consistent_advance.
  - exact Hcons.
Qed.

Lemma markRequestHandled_Consistent (request : Request)
    (this this' : RequestList) (result : Result unit) :
  Consistent this -> markRequestHandled request this = (result, this') ->
  Consistent this'.
Proof.
  intros Hcons Hrun. destruct result as [[]|e].
  - apply markRequestHandled_Ok in Hrun as (_ & _ & Hout & _ & _ & ->).
    by apply Consistent_markRequestHandled.
  - by apply markRequestHandled_Throw in Hrun as ->.
Qed.

Lemma reclaimRequest_Consistent (request : Request)
    (this this' : RequestList) (result : Result unit) :
  Consistent this -> reclaimRequest request this = (result, this') ->
  Consistent this'.
Proof.
  intros Hcons Hrun. destruct result as [[]|e].
  - apply reclaimRequest_Ok in Hrun as (_ & Hin & _ & _ & _ & ->).
    apply Consistent_set_reclaimed; [exact Hcons|].
    pose proof (consistent_reclaimed _ Hcons). set_solver.
  - by apply reclaimRequest_Throw in Hrun as ->.
Qed.

(** Every list a program can hold after [initialize] is consistent. *)
Lemma reachable_Consistent (this : RequestList) :
  reachable this -> Consistent this.
Proof.
  induction 1 as [srcs key state stored this log Hinit
                 |this result this' _ IH Hrun
                 |request this result this' _ IH Hrun
                 |request this result this' _ IH Hrun
                 |setValueOk this result this' log _ IH Hrun].
  - eapply initialize_Consistent. exact Hinit.
  - eapply fetchNextRequest_Consistent; eassumption.
  - eapply markRequestHandled_Consistent; eassumption.
  - eapply reclaimRequest_Consistent; eassumption.
  - apply emitPersistState_cases in Hrun as [->| ->]; [exact IH|].
    by apply Consistent_set_isStatePersisted.
Qed.

(** ** Sequences of [fetchNextRequest] *)

Lemma fetchMany_S (n : nat) (this : RequestList) :
  fetchMany (S n) this =
    match fetchNextRequest this with
    | (Ok fetched, this') =>
        (fetched :: fst (fetchMany n this'), snd (fetchMany n this'))
    | (Throw _, this') => ([], this')
    end.
Proof.
  simpl. destruct (fetchNextRequest this) as [[fetched|e] this']; [|reflexivity].
  by destruct (fetchMany n this').
Qed.

(** On a consistent list no call throws, so [n + m] calls are [n] calls
    followed by [m] calls. *)
Lemma fetchMany_add (n m : nat) (this : RequestList) :
  Consistent this ->
  fetchMany (n + m) this =
    (fst (fetchMany n this) ++ fst (fetchMany m (snd (fetchMany n this))),
     snd (fetchMany m (snd (fetchMany n this)))).
Proof.
  revert this. induction n as [|n IH]; intros this Hcons.
  - simpl. by destruct (fetchMany m this).
  - change (S n + m) with (S (n + m)). rewrite !fetchMany_S.
    destruct (fetchNextRequest_cases this Hcons)
      as [(key & index & request & _ & _ & _ & _ & _ & Hrun)
         |[(_ & z & request & _ & _ & _ & Hrun)|(_ & _ & Hrun)]];
      rewrite Hrun; simpl; rewrite IH; try reflexivity;
      eapply fetchNextRequest_Consistent; eauto.
Qed.

(** The first [size reclaimed] calls return the requests of the reclaimed
    keys, each once, and change nothing but [reclaimed], which they empty. *)
Lemma fetchMany_drain (this : RequestList) :
  Consistent this ->
  exists drained,
    fetchMany (size (reclaimed this)) this
      = (FetchedRequest <$> drained, set_reclaimed ∅ this)
    /\ uniqueKey <$> drained ≡ₚ elements (reclaimed this)
    /\ forall request, request ∈ drained -> request ∈ requests this.
Proof.
  remember (size (reclaimed this)) as n eqn:Hsize. revert this Hsize.
  induction n as [|n IH]; intros this Hsize Hcons.
  - symmetry in Hsize. apply size_empty_inv in Hsize.
    apply leibniz_equiv in Hsize. exists []. simpl.
    split; [|split].
    + f_equal. rewrite <- Hsize. by destruct this.
    + by rewrite Hsize, elements_empty.
    + intros request Hin. inversion Hin.
  - destruct (fetchNextRequest_cases this Hcons)
      as [(key & index & request & _ & Hin & _ & Hrequest & Hkey & Hrun)
         |[(Hempty & _)|(Hempty & _)]];
      try (rewrite Hempty, size_empty in Hsize; discriminate).
    unfold dict_delete in Hrun.
    set (this' := set_reclaimed (reclaimed this ∖ {[ key ]}) this) in *.
    assert (Consistent this') as Hcons'
        by (eapply fetchNextRequest_Consistent; eauto).
    assert (reclaimed this = {[ key ]} ∪ reclaimed this ∖ {[ key ]})
      as Hsplit by (by apply union_difference_singleton_L).
    assert (key ∉ reclaimed this ∖ {[ key ]}) as Hfresh by set_solver.
    assert (n = size (reclaimed this')) as Hsize'.
    { simpl. rewrite Hsplit in Hsize.
      rewrite size_union, size_singleton in Hsize by set_solver. lia. }
    destruct (IH this' Hsize' Hcons') as (drained & Hmany & Hperm & Hall).
    exists (request :: drained). rewrite fetchMany_S, Hrun, Hmany. simpl.
    split; [reflexivity|]. split.
    + rewrite Hkey, Hperm. simpl. rewrite Hsplit at 2.
      symmetry. by apply elements_union_singleton.
    + intros other Hother. apply elem_of_cons in Hother as [->|Hother].
      * apply list_elem_of_lookup. eauto.
      * by apply Hall.
Qed.

(** With nothing reclaimed, [m] calls return the next [m] requests from the
    cursor on. *)
Lemma fetchMany_from_cursor (m : nat) (this : RequestList) (z : Z) :
  Consistent this ->
  reclaimed this = ∅ ->
  nextIndex this = JsInt z ->
  (z + Z.of_nat m <= Z.of_nat (length (requests this)))%Z ->
  fst (fetchMany m this)
    = FetchedRequest <$> take m (drop (Z.to_nat z) (requests this))
  /\ nextIndex (snd (fetchMany m this)) = JsInt (z + Z.of_nat m)
  /\ reclaimed (snd (fetchMany m this)) = ∅
  /\ requests (snd (fetchMany m this)) = requests this
  /\ inProgress this ⊆ inProgress (snd (fetchMany m this)).
Proof.
  revert this z. induction m as [|m IH]; intros this z Hcons Hempty Hz Hrange.
  - simpl. rewrite Z.add_0_r. auto.
  - rewrite fetchMany_S.
    destruct (fetchNextRequest_cases this Hcons)
      as [(key & _ & _ & _ & Hin & _)
         |[(_ & z' & request & Hz' & Hrange' & Hrequest & Hrun)
          |(_ & Hlt & _)]].
    + rewrite Hempty in Hin. set_solver.
    + assert (z' = z) as -> by congruence. rewrite Hrun. simpl.
      set (this' := set_isStatePersisted false _) in *.
      assert (Consistent this') as Hcons'
          by (eapply fetchNextRequest_Consistent; eauto).
      destruct (IH this' (z + 1)%Z Hcons' Hempty eq_refl)
        as (Hfetched & Hcursor & Hreclaimed & Hrequests & Hsub).
      { simpl. lia. }
      rewrite Hfetched, Hcursor, Hreclaimed, Hrequests. simpl.
      split; [|split; [f_equal; lia|split; [reflexivity|split; [reflexivity|]]]].
      * rewrite (drop_S _ request (Z.to_nat z)) by exact Hrequest. simpl.
        replace (Z.to_nat (z + 1)) with (S (Z.to_nat z)) by lia.
        reflexivity.
      * etrans; [|exact Hsub]. simpl. set_solver.
    + rewrite Hz in Hlt. simpl in Hlt. lia.
Qed.

(** After the reclaimed requests, the calls reach every request at or after
    the cursor in turn: the request at [index] is returned by call number
    [size reclaimed + (index - nextIndex) + 1], which moves the cursor
    behind it. *)
Lemma fetchMany_reaches (this : RequestList) (z : Z) (index : nat)
    (request : Request) :
  Consistent this ->
  nextIndex this = JsInt z ->
  (z <= Z.of_nat index)%Z ->
  requests this !! index = Some request ->
  let count := size (reclaimed this) + (index - Z.to_nat z) in
  fst (fetchMany (count + 1) this) !! count = Some (FetchedRequest request)
  /\ nextIndex (snd (fetchMany (count + 1) this)) = JsInt (Z.of_nat index + 1).
Proof.
  intros Hcons Hz Hle Hrequest count. subst count.
  assert (0 <= z)%Z as Hnonneg.
  { destruct (consistent_cursor _ Hcons) as [Hnan|(z' & Hz' & Hrange)];
      [congruence|]. assert (z' = z) as -> by congruence. lia. }
  pose proof (lookup_lt_Some _ _ _ Hrequest) as Hlt.
  rewrite <- Nat.add_assoc. rewrite fetchMany_add by exact Hcons.
  destruct (fetchMany_drain this Hcons) as (drained & Hdrain & Hperm & _).
  rewrite Hdrain. simpl.
  assert (length drained = size (reclaimed this)) as Hlength.
  { apply Permutation_length in Hperm. by rewrite length_fmap in Hperm. }
  assert (Consistent (set_reclaimed ∅ this)) as Hcons'.
  { apply Consistent_set_reclaimed; [exact Hcons|set_solver]. }
  destruct (fetchMany_from_cursor (index - Z.to_nat z + 1)
              (set_reclaimed ∅ this) z Hcons' eq_refl Hz)
    as (Hfetched & Hcursor & _).
  { simpl. lia. }
  rewrite Hfetched, Hcursor. simpl. split; [|f_equal; lia].
  rewrite lookup_app_r by (rewrite length_fmap; lia).
  rewrite length_fmap, Hlength.
  replace (size (reclaimed this) + (index - Z.to_nat z) - size (reclaimed this))
    with (index - Z.to_nat z) by lia.
  rewrite list_lookup_fmap, lookup_take_lt by lia. rewrite lookup_drop.
  replace (Z.to_nat z + (index - Z.to_nat z)) with index by lia.
  by rewrite Hrequest.
Qed.

End ReachableProofs.

(** ** The example lists are reachable *)

Lemma abcList_reachable `{FirstKey} : reachable abcList.
Proof.
  eapply (reachable_initialize abcSources None None Rejected abcList []).
  vm_compute. reflexivity.
Qed.

Lemma abcListReclaimedA_reachable :
  reachable (H := firstElement_FirstKey) abcListReclaimedA.
Proof.
  eapply reachable_reclaimRequest with (request := requestA) (result := Ok tt).
  - eapply reachable_fetchNextRequest
      with (result := Ok (FetchedRequest requestB)).
    + eapply reachable_fetchNextRequest
        with (result := Ok (FetchedRequest requestA)).
      * apply abcList_reachable.
      * vm_compute. reflexivity.
    + vm_compute. reflexivity.
  - vm_compute. reflexivity.
Qed.

(** ** Examples *)

Example duplicateSources_loaded :
  loadedRequests duplicateSources
  = Some ([requestA; requestB], <["b" := 1]> (<["a" := 0]> ∅)).
Proof. vm_compute. reflexivity. Qed.

Example initialize_rejects_drift :
  fst (fst (initialize
              (RequestList_constructor abcSources None (Some driftedState)
                 Rejected)))
  = Throw OrderChanged.
Proof. vm_compute. reflexivity. Qed.

Example initialize_rejects_fraction :
  fst (fst (initialize
              (RequestList_constructor abcSources None (Some fractionalState)
                 Rejected)))
  = Throw TypeError.
Proof. vm_compute. reflexivity. Qed.

Example initialize_restores_skewedState :
  exists this,
    initialize
      (RequestList_constructor abcSources None (Some skewedState) Rejected)
    = (Ok tt, this, [InProgressNotConsistent ["c"]])
    /\ inProgress this = {[ "a" ]}
    /\ reclaimed this = {[ "a" ]}.
Proof.
  eexists. split; [vm_compute; reflexivity|]. split; vm_compute; reflexivity.
Qed.

(** * The properties of the specification *)

Section Claims.
Context `{FirstKey}.

(** C1.  On every initialized list, [fetchNextRequest()] follows the priority
    order.  If [reclaimed] is not empty, it returns the request of some
    reclaimed key and removes that key from [reclaimed], leaving everything
    else, [nextIndex] included, as it was.  Otherwise, if
    [nextIndex < requests.length], it returns [requests[nextIndex]], adds its
    key to [inProgress] and increments [nextIndex].  Otherwise it returns
    [null] and changes nothing. *)
Theorem fetchNextRequest_priority (this : RequestList) :
  reachable this ->
  (reclaimed this <> ∅ ->
   exists key request,
     key ∈ reclaimed this
     /\ request ∈ requests this
     /\ uniqueKey request = key
     /\ fetchNextRequest this =
          (Ok (FetchedRequest request),
           set_reclaimed (reclaimed this ∖ {[ key ]}) this)
     /\ nextIndex (snd (fetchNextRequest this)) = nextIndex this)
  /\ (reclaimed this = ∅ ->
      js_lt (nextIndex this) (Z.of_nat (length (requests this))) = true ->
      exists z request,
        nextIndex this = JsInt z
        /\ requests this !! Z.to_nat z = Some request
        /\ fetchNextRequest this =
             (Ok (FetchedRequest request),
              set_isStatePersisted false
                (set_nextIndex (JsInt (z + 1))
                   (set_inProgress ({[ uniqueKey request ]} ∪ inProgress this)
                      this))))
  /\ (reclaimed this = ∅ ->
      js_lt (nextIndex this) (Z.of_nat (length (requests this))) = false ->
      fetchNextRequest this = (Ok FetchedNull, this)).
Proof.
  intros Hreach. apply reachable_Consistent in Hreach as Hcons.
  destruct (fetchNextRequest_cases this Hcons)
    as [(key & index & request & _ & Hin & _ & Hrequest & Hkey & Hrun)
       |[(Hempty & z & request & Hz & Hrange & Hrequest & Hrun)
        |(Hempty & Hlt & Hrun)]].
  - split; [|split]; try (intros Hempty; rewrite Hempty in Hin; set_solver).
    intros _. exists key, request. split; [exact Hin|].
    split; [apply list_elem_of_lookup; eauto|]. split; [exact Hkey|].
    rewrite Hrun. split; reflexivity.
  - split; [intros Hne; contradiction|]. split.
    + intros _ _. exists z, request. auto.
    + intros _ Hge. rewrite Hz in Hge. simpl in Hge. lia.
  - split; [intros Hne; contradiction|]. split.
    + intros _ Hlt'. congruence.
    + intros _ _. exact Hrun.
Qed.

(** C2.  Sources with the keys a, b and c and no state to restore.  After
    [initialize], the calls fetchNextRequest, fetchNextRequest,
    reclaimRequest(a), fetchNextRequest, markRequestHandled(a),
    fetchNextRequest, fetchNextRequest, isEmpty, isFinished,
    markRequestHandled(b), markRequestHandled(c), isFinished give: a (and
    [nextIndex] is 1), b ([nextIndex] is 2), success, a again (the reclaimed
    request comes first, [nextIndex] stays 2), success, c ([nextIndex] is 3),
    [null], [true], [false], success, success, [true]. *)
Theorem abc_scenario (payloadA payloadB payloadC : string)
    (persistStateKey : option string) :
  exists s0 s1 s2 s3 s4 s5 s6 s7 s8,
    initialize
      (RequestList_constructor
         [RequestSource (mkRequest "a" payloadA);
          RequestSource (mkRequest "b" payloadB);
          RequestSource (mkRequest "c" payloadC)]
         persistStateKey None (Resolved None)) = (Ok tt, s0, [])
    /\ fetchNextRequest s0 = (Ok (FetchedRequest (mkRequest "a" payloadA)), s1)
    /\ nextIndex s1 = JsInt 1
    /\ fetchNextRequest s1 = (Ok (FetchedRequest (mkRequest "b" payloadB)), s2)
    /\ nextIndex s2 = JsInt 2
    /\ reclaimRequest (mkRequest "a" payloadA) s2 = (Ok tt, s3)
    /\ fetchNextRequest s3 = (Ok (FetchedRequest (mkRequest "a" payloadA)), s4)
    /\ nextIndex s4 = JsInt 2
    /\ markRequestHandled (mkRequest "a" payloadA) s4 = (Ok tt, s5)
    /\ fetchNextRequest s5 = (Ok (FetchedRequest (mkRequest "c" payloadC)), s6)
    /\ nextIndex s6 = JsInt 3
    /\ fetchNextRequest s6 = (Ok FetchedNull, s6)
    /\ isEmpty s6 = Ok true
    /\ isFinished s6 = Ok false
    /\ markRequestHandled (mkRequest "b" payloadB) s6 = (Ok tt, s7)
    /\ markRequestHandled (mkRequest "c" payloadC) s7 = (Ok tt, s8)
    /\ isFinished s8 = Ok true.
Proof.
  set (a := mkRequest "a" payloadA). set (b := mkRequest "b" payloadB).
  set (c := mkRequest "c" payloadC).
  set (fresh := RequestList_constructor _ _ _ _).
  assert (fresh = mkRequestList (Resolved None) [] (JsInt 0) ∅ ∅ ∅
                    persistStateKey true false false
                    [RequestSource a; RequestSource b; RequestSource c])
    as ->.
  { unfold fresh, RequestList_constructor.
    by destruct (option_string_truthy persistStateKey). }
  set (s0 := mkRequestList (Resolved None) [a; b; c] (JsInt 0)
                (<["c" := 2]> (<["b" := 1]> (<["a" := 0]> ∅))) ∅ ∅
                persistStateKey true true true
                [RequestSource a; RequestSource b; RequestSource c]).
  set (s1 := set_isStatePersisted false
               (set_nextIndex (JsInt 1) (set_inProgress {[ "a" ]} s0))).
  set (s2 := set_nextIndex (JsInt 2) (set_inProgress {[ "a"; "b" ]} s1)).
  set (s3 := set_reclaimed {[ "a" ]} s2).
  set (s5 := set_inProgress {[ "b" ]} s2).
  set (s6 := set_nextIndex (JsInt 3) (set_inProgress {[ "b"; "c" ]} s5)).
  set (s7 := set_inProgress {[ "c" ]} s6).
  set (s8 := set_inProgress ∅ s7).
  exists s0, s1, s2, s3, s2, s5, s6, s7, s8.
  split. { vm_compute. reflexivity. }
  split. { rewrite (fetchNextRequest_at_cursor s0 0 a); done. }
  split; [reflexivity|].
  split. { rewrite (fetchNextRequest_at_cursor s1 1 b); done. }
  split; [reflexivity|].
  split.
  { apply reclaimRequest_Ok. repeat split; closed_step. }
  split.
  { rewrite (fetchNextRequest_only_reclaimed s3 "a"); closed_step. }
  split; [reflexivity|].
  split.
  { apply markRequestHandled_Ok. repeat split; closed_step. }
  split. { rewrite (fetchNextRequest_at_cursor s5 2 c); closed_step. }
  split; [reflexivity|].
  split. { rewrite fetchNextRequest_nothing; closed_step. }
  split. { rewrite isEmpty_nothing_reclaimed; closed_step. }
  split. { apply (isFinished_some_inProgress s6 "b"); closed_step. }
  split.
  { apply markRequestHandled_Ok. repeat split; closed_step. }
  split.
  { apply markRequestHandled_Ok. repeat split; closed_step. }
  rewrite isFinished_nothing_inProgress; closed_step.
Qed.

(** C3.  Take a consistent list (loaded from its sources, the cursor [k] in
    range, every in-progress key at an index below [k]) whose [inProgress]
    [S] is not empty.  [getState()] returns a state; a new list built from the
    same sources and that state initializes without an error, with the same
    [requests], [nextIndex = k], [inProgress = S] and [reclaimed = S].  Its
    first [size S] calls of [fetchNextRequest] return requests whose keys are
    exactly the keys of [S], each once, all at an index below [k], and leave
    the cursor at [k]; only the call after them is served from the cursor: it
    returns [requests[k]], or [null] when [k] is not below the length. *)
Theorem snapshot_round_trip (old : RequestList)
    (persistStateKey : option string) (stored : Settled (option State)) :
  Consistent old ->
  inProgress old <> ∅ ->
  exists snapshot new log drained,
    getState old = Ok snapshot
    /\ initialize
         (RequestList_constructor (sources old) persistStateKey
            (Some snapshot) stored) = (Ok tt, new, log)
    /\ requests new = requests old
    /\ nextIndex new = nextIndex old
    /\ inProgress new = inProgress old
    /\ reclaimed new = inProgress old
    /\ fetchMany (size (inProgress old)) new
       = (FetchedRequest <$> drained, set_reclaimed ∅ new)
    /\ uniqueKey <$> drained ≡ₚ elements (inProgress old)
    /\ (forall request, request ∈ drained ->
          exists index,
            requests old !! index = Some request
            /\ js_int_ge (Z.of_nat index) (nextIndex old) = false)
    /\ (js_lt (nextIndex old) (Z.of_nat (length (requests old))) = true ->
        exists z request,
          nextIndex old = JsInt z
          /\ requests old !! Z.to_nat z = Some request
          /\ fst (fetchNextRequest (set_reclaimed ∅ new))
             = Ok (FetchedRequest request))
    /\ (js_lt (nextIndex old) (Z.of_nat (length (requests old))) = false ->
        fetchNextRequest (set_reclaimed ∅ new)
        = (Ok FetchedNull, set_reclaimed ∅ new)).
Proof.
  intros Hcons Hnonempty.
  destruct (Consistent_getState old Hcons) as (nextUniqueKey & Hstate & Hcheck).
  set (snapshot := mkState _ _ _) in *.
  set (fresh := RequestList_constructor (sources old) persistStateKey
                  (Some snapshot) stored).
  assert (initialStatePromise fresh = Resolved (Some snapshot)) as Hpromise.
  { unfold fresh, RequestList_constructor. simpl. by rewrite andb_false_r. }
  destruct (loadedRequests_load (sources old) _ _ (set_isLoading true fresh)
              (consistent_loaded _ Hcons) eq_refl eq_refl) as (log1 & Hload).
  set (loaded := set_requests _ _) in Hload.
  destruct (initialize_restore (sources old) persistStateKey (Some snapshot)
              stored snapshot loaded log1 (nextIndex old) Hpromise Hload)
    as (del & Hrun & Hdel).
  { apply Hcheck. reflexivity. }
  { intros key Hin.
    destruct (consistent_inProgress _ Hcons key Hin) as (index & Hindex & _).
    simpl. eauto. }
  assert (del = []) as ->.
  { destruct del as [|key del]; [reflexivity|]. exfalso.
    destruct (proj1 (Hdel key)) as (Hin & i & Hi & Hge); [left|].
    destruct (consistent_inProgress _ Hcons key Hin) as (index & Hindex & Hlt).
    simpl in Hi. congruence. }
  simpl in Hrun.
  pose proof (initialize_Consistent _ _ _ _ _ _ Hrun) as Hcons'.
  set (new := set_isInitialized true _) in *.
  destruct (fetchMany_drain new Hcons') as (drained & Hdrain & Hperm & Hall).
  exists snapshot, new, (log1 ++ []), drained.
  split; [exact Hstate|]. split; [exact Hrun|].
  do 4 (split; [reflexivity|]).
  split; [exact Hdrain|]. split; [exact Hperm|]. split.
  - intros request Hin.
    assert (uniqueKey request ∈ inProgress old) as Hkey.
    { apply elem_of_elements. change (elements (inProgress old))
        with (elements (reclaimed new)). rewrite <- Hperm.
      apply list_elem_of_fmap. eauto. }
    destruct (consistent_inProgress _ Hcons _ Hkey) as (index & Hindex & Hlt).
    exists index. split; [|exact Hlt].
    apply (consistent_indexed _ Hcons) in Hindex as (found & Hfound & Hsame).
    specialize (Hall request Hin). change (requests new) with (requests old) in Hall.
    destruct (Indexed_elem _ _ _ (consistent_indexed _ Hcons) Hall)
      as (i & Hi & Hrequest).
    assert (uniqueKeyToIndex old !! uniqueKey request = Some index) as Hindex'.
    { apply (consistent_indexed _ Hcons). eauto. }
    congruence.
  - assert (Consistent (set_reclaimed ∅ new)) as Hdrained.
    { apply Consistent_set_reclaimed; [exact Hcons'|set_solver]. }
    destruct (fetchNextRequest_cases _ Hdrained)
      as [(key & _ & _ & _ & Hin & _)
         |[(_ & z & request & Hz & _ & Hrequest & Hfetch)|(_ & Hlt & Hfetch)]].
    + simpl in Hin. set_solver.
    + split.
      * intros _. exists z, request. rewrite Hfetch. auto.
      * intros Hlt. simpl in Hz. rewrite Hz in Hlt. simpl in Hlt.
        apply lookup_lt_Some in Hrequest. simpl in Hrequest. lia.
    + split; [|intros _; exact Hfetch].
      intros Hlt'. simpl in Hlt. congruence.
Qed.

(** C4.  The keys of [state.inProgress] during a restore, after the sources
    are loaded.  A key that no loaded request has makes [initialize] throw
    (the "unknown uniqueKey" error when the checks of the cursor pass) and
    the list is not initialized.  When every key is the key of a loaded
    request and the checks of the cursor pass, [initialize] succeeds; a key
    whose index is [>= state.nextIndex] is then neither in [inProgress] nor
    in [reclaimed], it is in the list of the logged warning, and its request
    is returned when the calls of [fetchNextRequest] reach its index with the
    cursor; every other key is in [inProgress] and in [reclaimed]. *)
Theorem restore_inProgress_keys (srcs : list Source)
    (persistStateKey : option string) (optState : option State)
    (stored : Settled (option State)) (state : State) (loaded : RequestList)
    (log1 : list LogEvent) :
  initialStatePromise
    (RequestList_constructor srcs persistStateKey optState stored)
    = Resolved (Some state) ->
  loadSources srcs
    (set_isLoading true
       (RequestList_constructor srcs persistStateKey optState stored))
    = (Ok tt, loaded, log1) ->
  (forall key,
      key ∈ state_inProgress state ->
      (forall request, request ∈ requests loaded -> uniqueKey request <> key) ->
      exists e this' log,
        initialize (RequestList_constructor srcs persistStateKey optState stored)
          = (Throw e, this', log)
        /\ isInitialized this' = false
        /\ (isOk (checkNextIndex state loaded) = true -> e = UnknownUniqueKey))
  /\ (forall n,
        checkNextIndex state loaded = Ok n ->
        (forall key, key ∈ state_inProgress state ->
           exists request, request ∈ requests loaded /\ uniqueKey request = key) ->
        exists this log,
          initialize
            (RequestList_constructor srcs persistStateKey optState stored)
            = (Ok tt, this, log)
          /\ isInitialized this = true
          /\ nextIndex this = n
          /\ requests this = requests loaded
          /\ reclaimed this = inProgress this
          /\ forall key index request,
               key ∈ state_inProgress state ->
               requests loaded !! index = Some request ->
               uniqueKey request = key ->
               if js_int_ge (Z.of_nat index) n
               then
                 (key ∉ inProgress this) /\ (key ∉ reclaimed this)
                 /\ (exists deleteFromInProgress,
                       key ∈ deleteFromInProgress
                       /\ InProgressNotConsistent deleteFromInProgress ∈ log)
                 /\ exists z,
                      n = JsInt z
                      /\ fst (fetchMany
                                (size (reclaimed this)
                                 + (index - Z.to_nat z) + 1) this)
                         !! (size (reclaimed this) + (index - Z.to_nat z))
                         = Some (FetchedRequest request)
               else key ∈ inProgress this /\ key ∈ reclaimed this).
Proof.
  intros Hpromise Hload.
  assert (Indexed (requests loaded) (uniqueKeyToIndex loaded)) as Hindexed.
  { eapply loadSources_Indexed; [|exact Hload]. apply Indexed_empty. }
  split.
  - intros key Hin Hunknown.
    assert (uniqueKeyToIndex loaded !! key = None) as Hnone.
    { destruct (uniqueKeyToIndex loaded !! key) as [i|] eqn:Hi; [|reflexivity].
      destruct (Indexed_lookup _ _ _ _ Hindexed Hi) as (request & Hr & Hkey & _).
      exfalso. apply (Hunknown request); [|exact Hkey].
      apply list_elem_of_lookup. eauto. }
    destruct (initialize_unknown_key srcs persistStateKey optState stored
                state loaded log1 key Hpromise Hload Hin Hnone)
      as (e & Hrun & He).
    exists e, loaded, log1. split; [exact Hrun|]. split.
    + eapply initialize_Throw_not_initialized; [|exact Hrun]. reflexivity.
    + intros Hok. destruct He as [He|He]; [exact He|].
      rewrite He in Hok. discriminate.
  - intros n Hcheck Hknown.
    assert (forall key, key ∈ state_inProgress state ->
              is_Some (uniqueKeyToIndex loaded !! key)) as Hknown'.
    { intros key Hin. destruct (Hknown key Hin) as (request & Hr & Hkey).
      destruct (Indexed_elem _ _ _ Hindexed Hr) as (i & Hi & _).
      rewrite Hkey in Hi. eauto. }
    destruct (initialize_restore srcs persistStateKey optState stored
                state loaded log1 n Hpromise Hload Hcheck Hknown')
      as (del & Hrun & Hdel).
    pose proof (initialize_Consistent _ _ _ _ _ _ Hrun) as Hcons.
    eexists. eexists. split; [exact Hrun|].
    split; [reflexivity|]. split; [reflexivity|]. split; [reflexivity|].
    split; [reflexivity|].
    intros key index request Hin Hrequest Hkey.
    assert (uniqueKeyToIndex loaded !! key = Some index) as Hindex.
    { apply Hindexed. eauto. }
    destruct (js_int_ge (Z.of_nat index) n) eqn:Hge.
    + assert (key ∈ del) as Hdeleted by (apply Hdel; eauto).
      simpl. rewrite elem_of_deleteEach.
      split; [tauto|]. split; [tauto|]. split.
      * exists del. split; [exact Hdeleted|].
        apply elem_of_app. right. destruct del; [inversion Hdeleted|left].
      * apply checkNextIndex_Ok in Hcheck as (_ & Hrange & _).
        destruct Hrange as [->|(z & -> & Hrange)]; [discriminate|].
        exists z. split; [reflexivity|]. simpl in Hge.
        apply (fetchMany_reaches _ z index request Hcons); try reflexivity.
        -- lia.
        -- exact Hrequest.
    + simpl. rewrite elem_of_deleteEach.
      assert (key ∉ del) as Hkept.
      { intros Hdeleted. apply Hdel in Hdeleted as (_ & i & Hi & Hge').
        congruence. }
      tauto.
Qed.

(** C5.  Whatever the sources are, after they are loaded into a new list
    every [uniqueKey] occurs at most once in [requests], and every request of
    [requests] is the first request with its key in load order.  A request
    whose key already has an index in [uniqueKeyToIndex] is skipped:
    [_addRequest] changes nothing and does not throw. *)
Theorem addRequest_first_occurrence_wins (srcs : list Source)
    (this loaded : RequestList) (log : list LogEvent) :
  requests this = [] ->
  uniqueKeyToIndex this = ∅ ->
  loadSources srcs this = (Ok tt, loaded, log) ->
  NoDup (uniqueKey <$> requests loaded)
  /\ (forall request, request ∈ requests loaded ->
        firstOccurrence (sourceRequests srcs) request)
  /\ (forall request index,
        uniqueKeyToIndex loaded !! uniqueKey request = Some index ->
        _addRequest request loaded = (Ok tt, loaded)).
Proof.
  intros Hrequests Hindex Hload. apply loadSources_Ok in Hload.
  assert (Indexed (requests this) (uniqueKeyToIndex this)) as Hindexed
      by (rewrite Hrequests, Hindex; apply Indexed_empty).
  destruct (addRequests_Ok _ _ _ Hindexed Hload)
    as (Hindexed' & _ & added & Hadded & Hfirst).
  rewrite Hrequests in Hadded. simpl in Hadded. split; [|split].
  - eapply Indexed_NoDup. exact Hindexed'.
  - intros request Hin. rewrite Hadded in Hin. by apply Hfirst.
  - intros request index Hsome.
    destruct (Indexed_lookup _ _ _ _ Hindexed' Hsome) as (_ & _ & _ & Hne & _).
    destruct (_addRequest_cases request loaded)
      as [[Hempty _]|[(_ & Hfresh & _)|(_ & _ & Hrun)]];
      [contradiction|congruence|exact Hrun].
Qed.

(** C6.  On every initialized list and for every request,
    [markRequestHandled] and [reclaimRequest] throw when the key of the
    request is not in [inProgress] or is in [reclaimed], and leave the list
    as it was.  Otherwise both succeed: [markRequestHandled] removes the key
    from [inProgress], [reclaimRequest] adds it to [reclaimed], and a second
    [reclaimRequest] right after the first throws "already reclaimed". *)
Theorem markRequestHandled_reclaimRequest_checks (this : RequestList)
    (request : Request) :
  reachable this ->
  ((uniqueKey request ∉ inProgress this) \/ uniqueKey request ∈ reclaimed this ->
   (exists e, markRequestHandled request this = (Throw e, this))
   /\ (exists e, reclaimRequest request this = (Throw e, this)))
  /\ (uniqueKey request ∈ inProgress this ->
      (uniqueKey request ∉ reclaimed this) ->
      markRequestHandled request this =
        (Ok tt,
         set_isStatePersisted false
           (set_inProgress (inProgress this ∖ {[ uniqueKey request ]}) this))
      /\ reclaimRequest request this =
           (Ok tt,
            set_reclaimed ({[ uniqueKey request ]} ∪ reclaimed this) this)
      /\ reclaimRequest request
           (set_reclaimed ({[ uniqueKey request ]} ∪ reclaimed this) this) =
           (Throw AlreadyReclaimed,
            set_reclaimed ({[ uniqueKey request ]} ∪ reclaimed this) this)).
Proof.
  intros Hreach. apply reachable_Consistent in Hreach as Hcons. split.
  - intros Hbad.
    assert (forall this', markRequestHandled request this <> (Ok tt, this'))
      as Hmark.
    { intros this' Hrun.
      apply markRequestHandled_Ok in Hrun as (_ & Hin & Hout & _).
      destruct Hbad; contradiction. }
    assert (forall this', reclaimRequest request this <> (Ok tt, this'))
      as Hreclaim.
    { intros this' Hrun.
      apply reclaimRequest_Ok in Hrun as (_ & Hin & Hout & _).
      destruct Hbad; contradiction. }
    split.
    + destruct (markRequestHandled request this) as [[[]|e] this'] eqn:Erun.
      * exfalso. by apply (Hmark this').
      * exists e. by apply markRequestHandled_Throw in Erun as ->.
    + destruct (reclaimRequest request this) as [[[]|e] this'] eqn:Erun.
      * exfalso. by apply (Hreclaim this').
      * exists e. by apply reclaimRequest_Throw in Erun as ->.
  - intros Hin Hout.
    destruct (Consistent_inProgress_valid _ _ Hcons Hin)
      as (index & found & _ & _ & _ & Hne & Hown & _).
    pose proof (consistent_initialized _ Hcons) as Hinit.
    split; [by apply markRequestHandled_succeeds|].
    split; [by apply reclaimRequest_succeeds|].
    unfold reclaimRequest, ensureUniqueKeyValid.
    apply string_truthy_true in Hne. rewrite Hne.
    unfold _ensureInProgressAndNotReclaimed. simpl.
    rewrite !dict_truthy_own by exact Hown.
    rewrite (bool_decide_eq_true_2 _ Hin). simpl.
    rewrite bool_decide_eq_true_2 by set_solver. reflexivity.
Qed.

(** C7, at a state whose [nextIndex] is [NaN].  [NaN] is of type number and
    is neither [< 0] nor [> requests.length] nor [< requests.length], so
    [initialize] restores the state without an error and the list is
    initialized with [nextIndex = NaN]. *)
Theorem initialize_accepts_NaN :
  exists this,
    initialize (RequestList_constructor abcSources None (Some stateNaN) Rejected)
      = (Ok tt, this, [])
    /\ isInitialized this = true
    /\ nextIndex this = JsNaN.
Proof. eexists. split; [vm_compute; reflexivity|]. split; reflexivity. Qed.

(** C8.  [reclaimed] is a subset of [inProgress] after every successful
    [initialize], with or without a state to restore, and every successful
    [fetchNextRequest], [markRequestHandled] and [reclaimRequest] keeps it
    so. *)
Theorem reclaimed_subset_inProgress :
  (forall srcs persistStateKey state stored this log,
      initialize (RequestList_constructor srcs persistStateKey state stored)
        = (Ok tt, this, log) ->
      reclaimed this ⊆ inProgress this)
  /\ (forall this fetched this',
        reclaimed this ⊆ inProgress this ->
        fetchNextRequest this = (Ok fetched, this') ->
        reclaimed this' ⊆ inProgress this')
  /\ (forall request this this',
        reclaimed this ⊆ inProgress this ->
        markRequestHandled request this = (Ok tt, this') ->
        reclaimed this' ⊆ inProgress this')
  /\ (forall request this this',
        reclaimed this ⊆ inProgress this ->
        reclaimRequest request this = (Ok tt, this') ->
        reclaimed this' ⊆ inProgress this').
Proof.
  split; [|split; [|split]].
  - intros srcs persistStateKey state stored this log Hinit.
    apply initialize_Consistent in Hinit. by destruct Hinit.
  - intros this fetched this' Hsub. unfold fetchNextRequest.
    destruct (_ensureIsInitialized this); [|discriminate].
    destruct (ifTruthy (getFirstKey (reclaimed this))) as [key|].
    + intros [= _ <-]. simpl. unfold dict_delete. set_solver.
    + destruct (js_lt _ _); [|by intros [= _ <-]].
      destruct (js_index _ _) as [request|]; [|discriminate].
      intros [= _ <-]. simpl. intros key Hkey.
      apply elem_of_dict_set. left. by apply Hsub.
  - intros request this this' Hsub Hrun.
    apply markRequestHandled_Ok in Hrun as (_ & _ & Hout & _ & _ & ->).
    simpl. set_solver.
  - intros request this this' Hsub Hrun.
    apply reclaimRequest_Ok in Hrun as (_ & Hin & _ & _ & _ & ->).
    simpl. set_solver.
Qed.

(** C9.  On every initialized list, [isFinished()] being true implies
    [isEmpty()] being true.  The converse fails: on a list with one request
    that was fetched and neither handled nor reclaimed, [isEmpty()] is true
    and [isFinished()] is false. *)
Theorem isFinished_implies_isEmpty :
  (forall this,
      reachable this -> isFinished this = Ok true -> isEmpty this = Ok true)
  /\ (forall request persistStateKey,
        uniqueKey request <> "" ->
        isInherited (uniqueKey request) = false ->
        exists this0 this1,
          initialize
            (RequestList_constructor [RequestSource request] persistStateKey
               None (Resolved None)) = (Ok tt, this0, [])
          /\ requests this0 = [request]
          /\ fetchNextRequest this0 = (Ok (FetchedRequest request), this1)
          /\ reachable this1
          /\ isEmpty this1 = Ok true
          /\ isFinished this1 = Ok false).
Proof.
  split.
  - intros this Hreach. apply isFinished_isEmpty.
    by apply reachable_Consistent.
  - intros request persistStateKey Hne Hown.
    set (fresh := RequestList_constructor _ _ _ _).
    set (this0 := mkRequestList (Resolved None) [request] (JsInt 0)
                    (<[uniqueKey request := 0]> ∅) ∅ ∅ persistStateKey
                    true true true [RequestSource request]).
    set (this1 := set_isStatePersisted false
                    (set_nextIndex (JsInt 1)
                       (set_inProgress ({[ uniqueKey request ]} ∪ ∅) this0))).
    assert (initialize fresh = (Ok tt, this0, [])) as Hinit.
    { rewrite initialize_unfold by reflexivity. simpl.
      unfold _addRequest, ensureUniqueKeyValid, js_get. simpl.
      apply string_truthy_true in Hne. rewrite Hne, lookup_empty, Hown.
      subst fresh. unfold RequestList_constructor. simpl.
      by destruct (option_string_truthy persistStateKey). }
    assert (fetchNextRequest this0 = (Ok (FetchedRequest request), this1))
      as Hfetch.
    { rewrite (fetchNextRequest_at_cursor this0 0 request); try done.
      simpl. by rewrite dict_set_own. }
    exists this0, this1. split; [exact Hinit|]. split; [reflexivity|].
    split; [exact Hfetch|]. split.
    { eapply reachable_fetchNextRequest; [|exact Hfetch].
      eapply reachable_initialize. exact Hinit. }
    split.
    + by rewrite isEmpty_nothing_reclaimed.
    + apply (isFinished_some_inProgress this1 (uniqueKey request)); try done.
      * simpl. set_solver.
      * simpl. set_solver.
Qed.

(** C10.  On every initialized list, when the key of the request is in
    [inProgress] and not in [reclaimed], [reclaimRequest] succeeds and changes
    [reclaimed] only: [nextIndex], [inProgress] and [isStatePersisted] are as
    before, [getState()] returns what it returned before, and a PERSIST_STATE
    event hands to [setValue] exactly what it would have handed before the
    call (nothing, when the state was persisted). *)
Theorem reclaimRequest_frame (this : RequestList) (request : Request) :
  reachable this ->
  uniqueKey request ∈ inProgress this ->
  (uniqueKey request ∉ reclaimed this) ->
  exists this',
    reclaimRequest request this = (Ok tt, this')
    /\ this' = set_reclaimed ({[ uniqueKey request ]} ∪ reclaimed this) this
    /\ nextIndex this' = nextIndex this
    /\ inProgress this' = inProgress this
    /\ isStatePersisted this' = isStatePersisted this
    /\ getState this' = getState this
    /\ (forall setValueOk,
          fst (fst (emitPersistState setValueOk this'))
          = fst (fst (emitPersistState setValueOk this)))
    /\ (isStatePersisted this = true ->
        forall setValueOk,
          emitPersistState setValueOk this' = (Ok None, this', [])).
Proof.
  intros Hreach Hin Hout.
  apply reachable_Consistent in Hreach as Hcons.
  pose proof (reclaimRequest_succeeds this request Hcons Hin Hout) as Hrun.
  eexists. split; [exact Hrun|]. split; [reflexivity|].
  repeat (split; [reflexivity|]). split.
  - intros setValueOk. unfold emitPersistState, persistStateHandler. simpl.
    destruct (isInitialized this && option_string_truthy (persistStateKey this));
      [|reflexivity].
    destruct (isStatePersisted this); [reflexivity|].
    change (getState (set_reclaimed ({[uniqueKey request]} ∪ reclaimed this) this))
      with (getState this).
    destruct (getState this); [|reflexivity]. by destruct setValueOk.
  - intros Hpersisted setValueOk. unfold emitPersistState, persistStateHandler.
    simpl. rewrite Hpersisted.
    by destruct (isInitialized this && option_string_truthy (persistStateKey this)).
Qed.

End Claims.

(** ** The properties at the example lists *)

Lemma fetchNextRequest_priority_witness :
  reachable (H := firstElement_FirstKey) abcListReclaimedA
  /\ exists key request,
       key ∈ reclaimed abcListReclaimedA
       /\ request ∈ requests abcListReclaimedA
       /\ uniqueKey request = key
       /\ fetchNextRequest (H := firstElement_FirstKey) abcListReclaimedA =
            (Ok (FetchedRequest request),
             set_reclaimed (reclaimed abcListReclaimedA ∖ {[ key ]})
               abcListReclaimedA)
       /\ nextIndex
            (snd (fetchNextRequest (H := firstElement_FirstKey)
                    abcListReclaimedA))
          = nextIndex abcListReclaimedA.
Proof.
  split; [exact abcListReclaimedA_reachable|].
  apply (fetchNextRequest_priority (H := firstElement_FirstKey)
           abcListReclaimedA abcListReclaimedA_reachable).
  vm_compute. discriminate.
Defined.

Lemma abc_inProgress_b :
  uniqueKey requestB ∈ inProgress abcListReclaimedA
  /\ uniqueKey requestB ∉ reclaimed abcListReclaimedA.
Proof. split; vm_compute; intuition discriminate. Qed.

Lemma markRequestHandled_reclaimRequest_checks_witness :
  reachable (H := firstElement_FirstKey) abcListReclaimedA
  /\ ((exists e, markRequestHandled requestA abcListReclaimedA
                 = (Throw e, abcListReclaimedA))
      /\ (exists e, reclaimRequest requestA abcListReclaimedA
                    = (Throw e, abcListReclaimedA)))
  /\ markRequestHandled requestB abcListReclaimedA
     = (Ok tt,
        set_isStatePersisted false
          (set_inProgress
             (inProgress abcListReclaimedA ∖ {[ uniqueKey requestB ]})
             abcListReclaimedA)).
Proof.
  pose proof (markRequestHandled_reclaimRequest_checks
                (H := firstElement_FirstKey) abcListReclaimedA) as Hchecks.
  split; [exact abcListReclaimedA_reachable|]. split.
  - apply (Hchecks requestA abcListReclaimedA_reachable).
    right. vm_compute. tauto.
  - apply (Hchecks requestB abcListReclaimedA_reachable);
      apply abc_inProgress_b.
Defined.

Lemma reclaimed_subset_inProgress_witness :
  (initialize
     (RequestList_constructor abcSources None (Some skewedState) Rejected)
   = (Ok tt, abcListRestored, [InProgressNotConsistent ["c"]])
   /\ reclaimed abcListRestored = {[ "a" ]}
   /\ reclaimed abcListRestored ⊆ inProgress abcListRestored)
  /\ (reclaimed abcListReclaimedA = {[ "a" ]}
      /\ fetchNextRequest (H := firstElement_FirstKey) abcListReclaimedA
         = (Ok (FetchedRequest requestA),
            snd (fetchNextRequest (H := firstElement_FirstKey)
                   abcListReclaimedA))
      /\ reclaimed (snd (fetchNextRequest (H := firstElement_FirstKey)
                           abcListReclaimedA))
         ⊆ inProgress (snd (fetchNextRequest (H := firstElement_FirstKey)
                              abcListReclaimedA)))
  /\ (markRequestHandled requestB abcListReclaimedA
      = (Ok tt, snd (markRequestHandled requestB abcListReclaimedA))
      /\ reclaimed (snd (markRequestHandled requestB abcListReclaimedA))
         = {[ "a" ]}
      /\ reclaimed (snd (markRequestHandled requestB abcListReclaimedA))
         ⊆ inProgress (snd (markRequestHandled requestB abcListReclaimedA)))
  /\ (reclaimRequest requestB abcListReclaimedA
      = (Ok tt, snd (reclaimRequest requestB abcListReclaimedA))
      /\ reclaimed (snd (reclaimRequest requestB abcListReclaimedA))
         = {[ "a"; "b" ]}
      /\ reclaimed (snd (reclaimRequest requestB abcListReclaimedA))
         ⊆ inProgress (snd (reclaimRequest requestB abcListReclaimedA))).
Proof.
  destruct (reclaimed_subset_inProgress (H := firstElement_FirstKey))
    as (Hinitialize & Hfetch & Hmark & Hreclaim).
  assert (reclaimed abcListReclaimedA ⊆ inProgress abcListReclaimedA)
    as Hbefore.
  { apply consistent_reclaimed.
    exact (reachable_Consistent (H := firstElement_FirstKey) _
             abcListReclaimedA_reachable). }
  assert (initialize
            (RequestList_constructor abcSources None (Some skewedState)
               Rejected)
          = (Ok tt, abcListRestored, [InProgressNotConsistent ["c"]]))
    as Hrestored by (vm_compute; reflexivity).
  assert (fetchNextRequest (H := firstElement_FirstKey) abcListReclaimedA
          = (Ok (FetchedRequest requestA),
             snd (fetchNextRequest (H := firstElement_FirstKey)
                    abcListReclaimedA)))
    as Hfetched by (vm_compute; reflexivity).
  assert (markRequestHandled requestB abcListReclaimedA
          = (Ok tt, snd (markRequestHandled requestB abcListReclaimedA)))
    as Hmarked by (vm_compute; reflexivity).
  assert (reclaimRequest requestB abcListReclaimedA
          = (Ok tt, snd (reclaimRequest requestB abcListReclaimedA)))
    as Hreclaimed by (vm_compute; reflexivity).
  split; [|split; [|split]].
  - split; [exact Hrestored|]. split; [vm_compute; reflexivity|].
    exact (Hinitialize _ _ _ _ _ _ Hrestored).
  - split; [vm_compute; reflexivity|]. split; [exact Hfetched|].
    exact (Hfetch _ _ _ Hbefore Hfetched).
  - split; [exact Hmarked|]. split; [vm_compute; reflexivity|].
    exact (Hmark _ _ _ Hbefore Hmarked).
  - split; [exact Hreclaimed|]. split; [vm_compute; reflexivity|].
    exact (Hreclaim _ _ _ Hbefore Hreclaimed).
Defined.

Lemma isFinished_implies_isEmpty_witness :
  uniqueKey requestA <> ""
  /\ isInherited (uniqueKey requestA) = false
  /\ exists this0 this1,
       initialize
         (RequestList_constructor [RequestSource requestA] None None
            (Resolved None)) = (Ok tt, this0, [])
       /\ requests this0 = [requestA]
       /\ fetchNextRequest (H := firstElement_FirstKey) this0
          = (Ok (FetchedRequest requestA), this1)
       /\ reachable (H := firstElement_FirstKey) this1
       /\ isEmpty (H := firstElement_FirstKey) this1 = Ok true
       /\ isFinished (H := firstElement_FirstKey) this1 = Ok false.
Proof.
  split; [discriminate|]. split; [reflexivity|].
  apply (proj2 (isFinished_implies_isEmpty (H := firstElement_FirstKey))
           requestA None); [discriminate|reflexivity].
Defined.

Lemma reclaimRequest_frame_witness :
  reachable (H := firstElement_FirstKey) abcListReclaimedA
  /\ uniqueKey requestB ∈ inProgress abcListReclaimedA
  /\ (uniqueKey requestB ∉ reclaimed abcListReclaimedA)
  /\ exists this',
       reclaimRequest requestB abcListReclaimedA = (Ok tt, this')
       /\ getState this' = getState abcListReclaimedA
       /\ isStatePersisted this' = isStatePersisted abcListReclaimedA.
Proof.
  split; [exact abcListReclaimedA_reachable|].
  split; [apply abc_inProgress_b|]. split; [apply abc_inProgress_b|].
  destruct (reclaimRequest_frame (H := firstElement_FirstKey)
              abcListReclaimedA requestB abcListReclaimedA_reachable
              (proj1 abc_inProgress_b) (proj2 abc_inProgress_b))
    as (this' & Hrun & _ & _ & _ & Hpersisted & Hstate & _).
  exists this'. auto.
Defined.

Lemma snapshot_round_trip_witness :
  Consistent abcListReclaimedA
  /\ inProgress abcListReclaimedA <> ∅
  /\ exists snapshot new log drained,
       getState abcListReclaimedA = Ok snapshot
       /\ initialize
            (RequestList_constructor (sources abcListReclaimedA) None
               (Some snapshot) Rejected) = (Ok tt, new, log)
       /\ nextIndex new = JsInt 2
       /\ reclaimed new = inProgress abcListReclaimedA
       /\ fetchMany (H := firstElement_FirstKey) 2 new
          = (FetchedRequest <$> drained, set_reclaimed ∅ new)
       /\ uniqueKey <$> drained ≡ₚ elements (inProgress abcListReclaimedA).
Proof.
  assert (Consistent abcListReclaimedA) as Hcons
      by exact (reachable_Consistent (H := firstElement_FirstKey) _
                  abcListReclaimedA_reachable).
  assert (inProgress abcListReclaimedA <> ∅) as Hnonempty
      by (vm_compute; discriminate).
  split; [exact Hcons|]. split; [exact Hnonempty|].
  destruct (snapshot_round_trip (H := firstElement_FirstKey)
              abcListReclaimedA None Rejected Hcons Hnonempty)
    as (snapshot & new & log & drained & Hstate & Hinit & _ & Hcursor & _
        & Hreclaimed & Hdrain & Hperm & _).
  exists snapshot, new, log, drained. auto 10.
Defined.

Lemma restore_inProgress_keys_witness :
  exists this log,
    initialize
      (RequestList_constructor abcSources None (Some skewedState) Rejected)
      = (Ok tt, this, log)
    /\ isInitialized this = true
    /\ nextIndex this = JsInt 1
    /\ ("c" ∉ inProgress this)
    /\ "a" ∈ inProgress this
    /\ fst (fetchMany (H := firstElement_FirstKey)
              (size (reclaimed this) + (2 - Z.to_nat 1) + 1) this)
       !! (size (reclaimed this) + (2 - Z.to_nat 1))
       = Some (FetchedRequest requestC).
Proof.
  destruct (proj2 (restore_inProgress_keys (H := firstElement_FirstKey)
                     abcSources None (Some skewedState) Rejected skewedState
                     abcLoaded_loading [] eq_refl eq_refl)
              (JsInt 1) eq_refl)
    as (this & log & Hinit & Hinitialized & Hcursor & _ & _ & Hkeys).
  { intros key Hin.
    apply elem_of_union in Hin as [Hin|Hin]; apply elem_of_singleton in Hin as ->.
    - exists requestA. split; [left|reflexivity].
    - exists requestC. split; [right; right; left|reflexivity]. }
  exists this, log. split; [exact Hinit|]. split; [exact Hinitialized|].
  split; [exact Hcursor|].
  pose proof (Hkeys "c" 2 requestC) as Hc. simpl in Hc.
  destruct Hc as (Hout & _ & _ & z & [= <-] & Hfetched);
    [set_solver|reflexivity|reflexivity|].
  pose proof (Hkeys "a" 0 requestA) as Ha. simpl in Ha.
  destruct Ha as (Hin & _); [set_solver|reflexivity|reflexivity|].
  auto.
Defined.

Lemma addRequest_first_occurrence_wins_witness :
  requests duplicateLoaded = [requestA; requestB]
  /\ NoDup (uniqueKey <$> requests duplicateLoaded)
  /\ (forall request, request ∈ requests duplicateLoaded ->
        firstOccurrence (sourceRequests duplicateSources) request)
  /\ (forall request index,
        uniqueKeyToIndex duplicateLoaded !! uniqueKey request = Some index ->
        _addRequest request duplicateLoaded = (Ok tt, duplicateLoaded)).
Proof.
  split; [reflexivity|].
  apply (addRequest_first_occurrence_wins duplicateSources
           (RequestList_constructor duplicateSources None None Rejected)
           duplicateLoaded
           [ListFetched 2 1 1]).
  - reflexivity.
  - reflexivity.
  - vm_compute. reflexivity.
Defined.

(** * Further properties of the class *)

(** ** What the methods leave alone *)

Lemma sameSetup_refl (this : RequestList) : sameSetup this this.
Proof. repeat split. Qed.

Lemma sameSetup_trans (this this' this'' : RequestList) :
  sameSetup this this' -> sameSetup this' this'' -> sameSetup this this''.
Proof.
  intros (? & ? & ? & ? & ? & ? & ?) (? & ? & ? & ? & ? & ? & ?).
  repeat split; congruence.
Qed.

Section FurtherProofs.
Context `{FirstKey}.

Lemma fetchNextRequest_sameSetup (this this' : RequestList)
    (result : Result Fetched) :
  fetchNextRequest this = (result, this') -> sameSetup this this'.
Proof.
  unfold fetchNextRequest. destruct (_ensureIsInitialized this);
    [|intros [= _ <-]; apply sameSetup_refl].
  destruct (ifTruthy _); [intros [= _ <-]; repeat split|].
  destruct (js_lt _ _); [|intros [= _ <-]; apply sameSetup_refl].
  destruct (js_index _ _); intros [= _ <-]; repeat split.
Qed.

Lemma markRequestHandled_sameSetup (request : Request)
    (this this' : RequestList) (result : Result unit) :
  markRequestHandled request this = (result, this') -> sameSetup this this'.
Proof.
  unfold markRequestHandled. destruct (ensureUniqueKeyValid _);
    [|intros [= _ <-]; apply sameSetup_refl].
  destruct (_ensureInProgressAndNotReclaimed _ _);
    [|intros [= _ <-]; apply sameSetup_refl].
  destruct (_ensureIsInitialized this); intros [= _ <-]; repeat split.
Qed.

Lemma reclaimRequest_sameSetup (request : Request)
    (this this' : RequestList) (result : Result unit) :
  reclaimRequest request this = (result, this') -> sameSetup this this'.
Proof.
  unfold reclaimRequest. destruct (ensureUniqueKeyValid _);
    [|intros [= _ <-]; apply sameSetup_refl].
  destruct (_ensureInProgressAndNotReclaimed _ _);
    [|intros [= _ <-]; apply sameSetup_refl].
  destruct (_ensureIsInitialized this); intros [= _ <-]; repeat split.
Qed.

Lemma emitPersistState_sameSetup (setValueOk : bool)
    (this this' : RequestList) (result : Result (option State))
    (log : list LogEvent) :
  emitPersistState setValueOk this = (result, this', log) ->
  sameSetup this this'.
Proof.
  intros Hrun. apply emitPersistState_cases in Hrun as [->| ->]; repeat split.
Qed.

Lemma steps_sameSetup (this this' : RequestList) :
  steps this this' -> sameSetup this this'.
Proof.
  induction 1 as [this
                 |this this' result this'' _ IH Hrun
                 |request this this' result this'' _ IH Hrun
                 |request this this' result this'' _ IH Hrun
                 |setValueOk this this' result this'' log _ IH Hrun].
  - apply sameSetup_refl.
  - eapply sameSetup_trans; [exact IH|].
    eapply fetchNextRequest_sameSetup; exact Hrun.
  - eapply sameSetup_trans; [exact IH|].
    eapply markRequestHandled_sameSetup; exact Hrun.
  - eapply sameSetup_trans; [exact IH|].
    eapply reclaimRequest_sameSetup; exact Hrun.
  - eapply sameSetup_trans; [exact IH|].
    eapply emitPersistState_sameSetup; exact Hrun.
Qed.

Lemma steps_Consistent (this this' : RequestList) :
  Consistent this -> steps this this' -> Consistent this'.
Proof.
  intros Hcons. induction 1 as [this
                 |this this' result this'' _ IH Hrun
                 |request this this' result this'' _ IH Hrun
                 |request this this' result this'' _ IH Hrun
                 |setValueOk this this' result this'' log _ IH Hrun].
  - exact Hcons.
  - eapply fetchNextRequest_Consistent; [|exact Hrun]. by apply IH.
  - eapply markRequestHandled_Consistent; [|exact Hrun]. by apply IH.
  - eapply reclaimRequest_Consistent; [|exact Hrun]. by apply IH.
  - apply emitPersistState_cases in Hrun as [->| ->]; [by apply IH|].
    apply Consistent_set_isStatePersisted. by apply IH.
Qed.

(** X1.  Whatever calls and events follow, [requests], [uniqueKeyToIndex],
    the result of [length()], [sources] and [persistStateKey] stay as they
    are: after [initialize] the list of requests is fixed. *)
Theorem steps_keep_requests (this this' : RequestList) :
  steps this this' ->
  requests this' = requests this
  /\ uniqueKeyToIndex this' = uniqueKeyToIndex this
  /\ RequestList_length this' = RequestList_length this
  /\ sources this' = sources this
  /\ persistStateKey this' = persistStateKey this.
Proof.
  intros Hsteps.
  apply steps_sameSetup in Hsteps as (Hr & Hi & Hs & Hk & _).
  unfold RequestList_length. rewrite Hr. auto.
Qed.

Lemma steps_nextIndex (this this' : RequestList) (z : Z) :
  steps this this' -> nextIndex this = JsInt z ->
  exists z', nextIndex this' = JsInt z' /\ (z <= z')%Z.
Proof.
  intros Hsteps Hz.
  induction Hsteps as [this
                 |this this' result this'' _ IH Hrun
                 |request this this' result this'' _ IH Hrun
                 |request this this' result this'' _ IH Hrun
                 |setValueOk this this' result this'' log _ IH Hrun].
  - exists z. split; [exact Hz|lia].
  - destruct (IH Hz) as (z' & Hz' & Hle). revert Hrun. unfold fetchNextRequest.
    destruct (_ensureIsInitialized this'); [|intros [= _ <-]; eauto].
    destruct (ifTruthy _); [intros [= _ <-]; eauto|].
    destruct (js_lt _ _); [|intros [= _ <-]; eauto].
    destruct (js_index _ _); intros [= _ <-]; [|eauto].
    simpl. rewrite Hz'. simpl. exists (z' + 1)%Z. split; [reflexivity|lia].
  - destruct (IH Hz) as (z' & Hz' & Hle). destruct result as [[]|e].
    + apply markRequestHandled_Ok in Hrun as (_ & _ & _ & _ & _ & ->). eauto.
    + apply markRequestHandled_Throw in Hrun as ->. eauto.
  - destruct (IH Hz) as (z' & Hz' & Hle). destruct result as [[]|e].
    + apply reclaimRequest_Ok in Hrun as (_ & _ & _ & _ & _ & ->). eauto.
    + apply reclaimRequest_Throw in Hrun as ->. eauto.
  - destruct (IH Hz) as (z' & Hz' & Hle).
    apply emitPersistState_cases in Hrun as [->| ->]; eauto.
Qed.

(** X2.  The cursor never goes back: whatever calls and events follow, an
    integer [nextIndex] stays an integer and does not decrease, and on a
    consistent list it does not pass [requests.length]. *)
Theorem steps_nextIndex_monotone (this this' : RequestList) (z : Z) :
  Consistent this ->
  steps this this' ->
  nextIndex this = JsInt z ->
  exists z',
    nextIndex this' = JsInt z'
    /\ (z <= z' <= Z.of_nat (length (requests this)))%Z.
Proof.
  intros Hcons Hsteps Hz.
  destruct (steps_nextIndex this this' z Hsteps Hz) as (z' & Hz' & Hle).
  exists z'. split; [exact Hz'|]. split; [exact Hle|].
  pose proof (steps_Consistent _ _ Hcons Hsteps) as Hcons'.
  apply steps_sameSetup in Hsteps as (Hrequests & _).
  destruct (consistent_cursor _ Hcons') as [Hnan|(z'' & Hz'' & Hrange)];
    [congruence|].
  rewrite Hrequests in Hrange. assert (z'' = z') as -> by congruence. lia.
Qed.

Lemma restoreState_sameSetup (state : option State)
    (this this' : RequestList) (result : Result unit) (log : list LogEvent) :
  restoreState state this = (result, this', log) -> sameSetup this this'.
Proof.
  destruct state as [state|]; [|intros [= _ <- _]; apply sameSetup_refl].
  destruct (restoreState_cases state this)
    as [(e & _ & Hrun)|[(n & _ & _ & Hrun)|(n & del & _ & _ & _ & Hrun)]];
    rewrite Hrun; intros [= _ <- _]; repeat split.
Qed.

(** Every list a program can hold after [initialize] has [isLoading] set. *)
Lemma reachable_isLoading (this : RequestList) :
  reachable this -> isLoading this = true.
Proof.
  induction 1 as [srcs key state stored this log Hinit
                 |this result this' _ IH Hrun
                 |request this result this' _ IH Hrun
                 |request this result this' _ IH Hrun
                 |setValueOk this result this' log _ IH Hrun].
  - destruct (initialize_Ok_inv _ _ _ _ _ _ Hinit)
      as (loaded & log1 & initialState & this' & log2
          & _ & Hframe & _ & Hrestore & -> & _).
    apply restoreState_sameSetup in Hrestore as (_ & _ & _ & _ & _ & Hloading & _).
    simpl. rewrite Hloading, Hframe. reflexivity.
  - apply fetchNextRequest_sameSetup in Hrun as (_ & _ & _ & _ & _ & -> & _).
    exact IH.
  - apply markRequestHandled_sameSetup in Hrun as (_ & _ & _ & _ & _ & -> & _).
    exact IH.
  - apply reclaimRequest_sameSetup in Hrun as (_ & _ & _ & _ & _ & -> & _).
    exact IH.
  - apply emitPersistState_sameSetup in Hrun as (_ & _ & _ & _ & _ & -> & _).
    exact IH.
Qed.

(** X3.  [initialize] runs once: on every list that was initialized, a
    further [initialize()] throws "already loading or were loaded" and
    changes nothing, so the sources are never loaded twice. *)
Theorem initialize_twice (this : RequestList) :
  reachable this ->
  initialize this = (Throw AlreadyLoading, this, []).
Proof.
  intros Hreach. unfold initialize.
  by rewrite (reachable_isLoading this Hreach).
Qed.

(** X4.  A [fetchNextRequest], [markRequestHandled] or [reclaimRequest] that
    throws leaves the list exactly as it was, whatever the list is. *)
Theorem methods_throw_unchanged (this this' : RequestList) (e : Error) :
  (fetchNextRequest this = (Throw e, this') -> this' = this)
  /\ (forall request,
        markRequestHandled request this = (Throw e, this') -> this' = this)
  /\ (forall request,
        reclaimRequest request this = (Throw e, this') -> this' = this).
Proof.
  split; [apply fetchNextRequest_Throw|].
  split; intros request; [apply markRequestHandled_Throw|apply reclaimRequest_Throw].
Qed.

(** What a failed [initialize] of a new list leaves: the sources loaded so
    far, [isLoading] set, and nothing else. *)
Lemma initialize_Throw_frame (srcs : list Source)
    (persistStateKey : option string) (state : option State)
    (stored : Settled (option State)) (this' : RequestList) (e : Error)
    (log : list LogEvent) :
  initialize (RequestList_constructor srcs persistStateKey state stored)
    = (Throw e, this', log) ->
  this' = withLoaded this'
            (set_isLoading true
               (RequestList_constructor srcs persistStateKey state stored)).
Proof.
  set (fresh := RequestList_constructor _ _ _ _).
  rewrite initialize_unfold by reflexivity.
  pose proof (loadSources_self_frame (sources fresh) (set_isLoading true fresh))
    as Hframe.
  destruct (loadSources _ _) as [[[[]|e1] loaded] log1]; simpl in Hframe.
  - destruct (initialStatePromise loaded) as [initialState|].
    + destruct (restoreState initialState loaded)
        as [[[[]|e2] this2] log2] eqn:Erestore; [discriminate|].
      apply restoreState_Throw_frame in Erestore as ->.
      intros [= _ <- _]. exact Hframe.
    + intros [= _ <- _]. exact Hframe.
  - intros [= _ <- _]. exact Hframe.
Qed.

(** X5.  A new list whose [initialize] failed stays unusable.  It is not
    initialized; a second [initialize] throws "already loading"; [getState],
    [isEmpty], [isFinished] and [fetchNextRequest] throw "not initialized";
    [markRequestHandled] and [reclaimRequest] throw too, but with the error
    of their first failing check, which is never "not initialized" since
    that check comes last.  None of these calls changes the list. *)
Theorem initialize_failed_unusable (srcs : list Source)
    (persistStateKey : option string) (state : option State)
    (stored : Settled (option State)) (this' : RequestList) (e : Error)
    (log : list LogEvent) :
  initialize (RequestList_constructor srcs persistStateKey state stored)
    = (Throw e, this', log) ->
  isInitialized this' = false
  /\ initialize this' = (Throw AlreadyLoading, this', [])
  /\ getState this' = Throw NotInitialized
  /\ isEmpty this' = Throw NotInitialized
  /\ isFinished this' = Throw NotInitialized
  /\ fetchNextRequest this' = (Throw NotInitialized, this')
  /\ forall request,
       markRequestHandled request this'
       = (Throw (errorOfIdleKey (uniqueKey request)), this')
       /\ reclaimRequest request this'
          = (Throw (errorOfIdleKey (uniqueKey request)), this').
Proof.
  intros Hinit. apply initialize_Throw_frame in Hinit as Hframe.
  assert (isInitialized this' = false) as Hinitialized
      by (rewrite Hframe; reflexivity).
  assert (isLoading this' = true) as Hloading by (rewrite Hframe; reflexivity).
  assert (inProgress this' = ∅) as Hidle by (rewrite Hframe; reflexivity).
  assert (reclaimed this' = ∅) as Hnone by (rewrite Hframe; reflexivity).
  split; [exact Hinitialized|].
  split; [unfold initialize; by rewrite Hloading|].
  unfold getState, isEmpty, isFinished, fetchNextRequest, _ensureIsInitialized.
  rewrite Hinitialized. do 4 (split; [reflexivity|]).
  intros request.
  unfold markRequestHandled, reclaimRequest, ensureUniqueKeyValid,
    _ensureInProgressAndNotReclaimed, dict_truthy, errorOfIdleKey.
  rewrite Hidle, Hnone.
  destruct (string_truthy (uniqueKey request)); [|split; reflexivity].
  rewrite !bool_decide_eq_false_2 by set_solver. simpl.
  destruct (isInherited (uniqueKey request)); split; reflexivity.
Qed.

(** ** Loading *)

Lemma addRequests_isOk (items : list Request) (this : RequestList) :
  isOk (fst (addRequests items this)) = true <->
  forall request, request ∈ items -> uniqueKey request <> "".
Proof.
  revert this. induction items as [|item items IH]; intros this; simpl.
  - split; [|reflexivity]. intros _ request Hin. inversion Hin.
  - destruct (_addRequest_cases item this)
      as [[Hempty Hadd]|[(Hne & _ & _ & Hadd)|(Hne & _ & Hadd)]];
      rewrite Hadd.
    + simpl. split; [discriminate|]. intros Hall. exfalso.
      apply (Hall item); [left|exact Hempty].
    + rewrite IH. split.
      * intros Hall request Hin. apply elem_of_cons in Hin as [->|Hin]; auto.
      * intros Hall request Hin. apply Hall. by right.
    + rewrite IH. split.
      * intros Hall request Hin. apply elem_of_cons in Hin as [->|Hin]; auto.
      * intros Hall request Hin. apply Hall. by right.
Qed.

Lemma addRequests_Throw (items : list Request) (this this' : RequestList)
    (e : Error) :
  addRequests items this = (Throw e, this') -> e = UniqueKeyInvalid.
Proof.
  revert this. induction items as [|item items IH]; intros this; simpl;
    [discriminate|].
  destruct (_addRequest_cases item this)
    as [[_ Hadd]|[(_ & _ & _ & Hadd)|(_ & _ & Hadd)]]; rewrite Hadd.
  - by intros [= <- _].
  - apply IH.
  - apply IH.
Qed.

(** Loading one source. *)
Lemma loadSources_one (source : Source) (this : RequestList) :
  (isOk (fst (fst (loadSources [source] this))) = true <->
   source <> RequestsFromUrl None
   /\ forall request, request ∈ sourceRequests [source] ->
        uniqueKey request <> "")
  /\ (forall e this' log,
        loadSources [source] this = (Throw e, this', log) ->
        (e = UniqueKeyInvalid
         /\ exists request, source = RequestSource request
                            /\ uniqueKey request = "")
        \/ (e = CannotFetchRequestList
            /\ exists fetched, source = RequestsFromUrl fetched
                 /\ forall urlsArr, fetched = Some urlsArr ->
                      exists request, request ∈ urlsArr
                                      /\ uniqueKey request = "")).
Proof.
  destruct source as [request|[urlsArr|]].
  - simpl.
    destruct (_addRequest_cases request this)
      as [[Hempty Hadd]|[(Hne & _ & _ & Hadd)|(Hne & _ & Hadd)]];
      rewrite Hadd; simpl.
    + split.
      * split; [discriminate|]. intros [_ Hall]. exfalso.
        apply (Hall request); [left|exact Hempty].
      * intros e' this' log [= <- _ _]. left. eauto.
    + split; [|discriminate]. split; [|reflexivity].
      intros _. split; [discriminate|].
      intros r Hin. apply list_elem_of_singleton in Hin as ->. exact Hne.
    + split; [|discriminate]. split; [|reflexivity].
      intros _. split; [discriminate|].
      intros r Hin. apply list_elem_of_singleton in Hin as ->. exact Hne.
  - pose proof (addRequests_isOk urlsArr this) as Hiff.
    simpl. unfold _addRequestsFromUrl. rewrite app_nil_r.
    destruct urlsArr as [|url urlsArr].
    + simpl. split; [|discriminate]. split; [|reflexivity].
      intros _. split; [discriminate|]. intros request Hin. inversion Hin.
    + destruct (addRequests (url :: urlsArr) this) as [[[]|e] this1] eqn:Eadd;
        simpl in *.
      * split; [|discriminate]. rewrite Hiff. split; [|tauto].
        intros Hall. split; [discriminate|exact Hall].
      * split.
        -- rewrite Hiff. split; [|tauto].
           intros Hall. split; [discriminate|exact Hall].
        -- intros e' this' log [= <- _ _]. right. split; [reflexivity|].
           exists (Some (url :: urlsArr)). split; [reflexivity|].
           intros found [= <-].
           destruct (decide (Forall (fun request => uniqueKey request <> "")
                               (url :: urlsArr))) as [Hall|Hsome].
           ++ rewrite Forall_forall in Hall. apply Hiff in Hall. discriminate.
           ++ apply not_Forall_Exists in Hsome; [|intros request; apply _].
              apply Exists_exists in Hsome as (request & Hin & Hempty).
              exists request. split; [exact Hin|].
              by destruct (decide (uniqueKey request = "")).
  - simpl. split.
    + split; [discriminate|]. intros [Hne _]. contradiction.
    + intros e this' log [= <- _ _]. right. split; [reflexivity|].
      exists None. split; [reflexivity|]. discriminate.
Qed.

Lemma loadSources_cons (source : Source) (rest : list Source)
    (this : RequestList) :
  loadSources (source :: rest) this =
    match loadSources [source] this with
    | (Ok _, this', log) =>
        (fst (fst (loadSources rest this')), snd (fst (loadSources rest this')),
         log ++ snd (loadSources rest this'))
    | (Throw e, this', log) => (Throw e, this', log)
    end.
Proof.
  simpl.
  destruct (match source with
            | RequestSource request =>
                let '(result, this') := _addRequest request this in
                (result, this', [])
            | RequestsFromUrl fetched => _addRequestsFromUrl fetched this
            end) as [[[[]|e] this1] log1]; [|reflexivity].
  rewrite app_nil_r. by destruct (loadSources rest this1) as [[? ?] ?].
Qed.

(** X6.  Loading the sources succeeds exactly when no download failed and no
    request has an empty [uniqueKey], whatever the list held before.  When
    it fails the error is "uniqueKey must be a non-empty string", for a
    request given directly, or "Cannot fetch a request list", for a failed
    download and also for an empty key among the requests of a download
    (the catch handler of [_addRequestsFromUrl] replaces the error). *)
Theorem loadSources_succeeds_iff (srcs : list Source) (this : RequestList) :
  (isOk (fst (fst (loadSources srcs this))) = true <->
   (RequestsFromUrl None ∉ srcs)
   /\ forall request, request ∈ sourceRequests srcs -> uniqueKey request <> "")
  /\ (forall e this' log,
        loadSources srcs this = (Throw e, this', log) ->
        (e = UniqueKeyInvalid
         /\ exists request, RequestSource request ∈ srcs
                            /\ uniqueKey request = "")
        \/ (e = CannotFetchRequestList
            /\ exists fetched, RequestsFromUrl fetched ∈ srcs
                 /\ forall urlsArr, fetched = Some urlsArr ->
                      exists request, request ∈ urlsArr
                                      /\ uniqueKey request = "")).
Proof.
  revert this. induction srcs as [|source srcs IH]; intros this.
  - simpl. split.
    + split; [|reflexivity]. intros _. split; [apply not_elem_of_nil|].
      intros request Hin. inversion Hin.
    + discriminate.
  - rewrite loadSources_cons.
    destruct (loadSources_one source this) as [Hone Herr1].
    assert (sourceRequests (source :: srcs)
            = sourceRequests [source] ++ sourceRequests srcs) as ->.
    { unfold sourceRequests. simpl. by rewrite app_nil_r. }
    destruct (loadSources [source] this) as [[[[]|e1] this1] log1] eqn:Eone.
    + destruct (IH this1) as [Hrest Herr]. simpl in Hone.
      destruct Hone as [Hone _]. destruct (Hone eq_refl) as [Hsource Hkeys].
      split.
      * simpl. rewrite Hrest, not_elem_of_cons. split.
        -- intros [Hnone Hall]. split; [split; [congruence|exact Hnone]|].
           intros request Hin. apply elem_of_app in Hin as [Hin|Hin]; auto.
        -- intros [[_ Hnone] Hall]. split; [exact Hnone|].
           intros request Hin. apply Hall. apply elem_of_app. by right.
      * intros e this' log Hthrow.
        destruct (loadSources srcs this1) as [[[[]|e'] this2] log2] eqn:Erest;
          [discriminate|].
        injection Hthrow as <- _ _.
        destruct (Herr e' this2 log2 eq_refl)
          as [(-> & r & Hin & Hr)|(-> & f & Hin & Hf)].
        -- left. split; [reflexivity|]. exists r. split; [by right|exact Hr].
        -- right. split; [reflexivity|]. exists f. split; [by right|exact Hf].
    + simpl in Hone. split.
      * simpl. split; [discriminate|]. intros [Hnone Hall].
        assert (false = true) as Habsurd; [|discriminate].
        apply Hone. split.
        -- intros ->. apply Hnone. left.
        -- intros request Hin. apply Hall. apply elem_of_app. by left.
      * intros e this' log [= <- _ _].
        destruct (Herr1 e1 this1 log1 eq_refl)
          as [(-> & r & -> & Hr)|(-> & f & -> & Hf)].
        -- left. split; [reflexivity|]. exists r. split; [left|exact Hr].
        -- right. split; [reflexivity|]. exists f. split; [left|exact Hf].
Qed.

Lemma addRequests_covers (items : list Request) (this this' : RequestList) :
  Indexed (requests this) (uniqueKeyToIndex this) ->
  addRequests items this = (Ok tt, this') ->
  exists added,
    requests this' = requests this ++ added
    /\ added `sublist_of` items
    /\ (forall key index, uniqueKeyToIndex this !! key = Some index ->
          uniqueKeyToIndex this' !! key = Some index)
    /\ forall request, request ∈ items ->
         isInherited (uniqueKey request) = false ->
         is_Some (uniqueKeyToIndex this' !! uniqueKey request).
Proof.
  revert this. induction items as [|item items IH]; intros this Hindexed Hrun.
  - simpl in Hrun. injection Hrun as <-. exists []. rewrite app_nil_r.
    split; [reflexivity|]. split; [constructor|]. split; [auto|].
    intros request Hin. inversion Hin.
  - simpl in Hrun.
    destruct (_addRequest_cases item this)
      as [[_ Hadd]|[(Hne & Hfresh & Hown & Hadd)|(Hne & Hskip & Hadd)]];
      rewrite Hadd in Hrun; [discriminate| |].
    + apply IH in Hrun as (added & Hrequests & Hsub & Hmono & Hcover).
      2:{ simpl. apply Indexed_add; [assumption..|by apply string_truthy_true|assumption]. }
      simpl in Hrequests, Hmono. exists (item :: added).
      split; [by rewrite Hrequests, <- app_assoc|].
      split; [by constructor|]. split.
      * intros key index Hkey. apply Hmono.
        rewrite lookup_insert_ne; [exact Hkey|congruence].
      * intros request Hin Hnot. apply elem_of_cons in Hin as [->|Hin]; [|auto].
        exists (length (requests this)). apply Hmono. apply lookup_insert_eq.
    + apply IH in Hrun as (added & Hrequests & Hsub & Hmono & Hcover);
        [|exact Hindexed].
      exists added. split; [exact Hrequests|].
      split; [by constructor|]. split; [exact Hmono|].
      intros request Hin Hnot. apply elem_of_cons in Hin as [->|Hin]; [|auto].
      destruct Hskip as [[index Hindex]|Hinherited]; [|congruence].
      exists index. by apply Hmono.
Qed.

(** X7.  Loading keeps the order of the sources and drops nothing but
    duplicates: the loaded [requests] are a subsequence of the requests of the
    sources in load order, and every request of the sources whose key is not
    a name of [Object.prototype] has its key among them.  A request whose key
    is such a name ("constructor", "toString", ...) is never loaded, because
    [this.uniqueKeyToIndex[uniqueKey]] is not [undefined] for it. *)
Theorem loadSources_keeps_order (srcs : list Source)
    (this loaded : RequestList) (log : list LogEvent) :
  requests this = [] ->
  uniqueKeyToIndex this = ∅ ->
  loadSources srcs this = (Ok tt, loaded, log) ->
  requests loaded `sublist_of` sourceRequests srcs
  /\ (forall request, request ∈ sourceRequests srcs ->
        isInherited (uniqueKey request) = false ->
        exists kept, kept ∈ requests loaded
                     /\ uniqueKey kept = uniqueKey request)
  /\ (forall kept, kept ∈ requests loaded ->
        isInherited (uniqueKey kept) = false).
Proof.
  intros Hrequests Hindex Hload. apply loadSources_Ok in Hload.
  assert (Indexed (requests this) (uniqueKeyToIndex this)) as Hindexed
      by (rewrite Hrequests, Hindex; apply Indexed_empty).
  destruct (addRequests_covers _ _ _ Hindexed Hload)
    as (added & Hadded & Hsub & _ & Hcover).
  destruct (addRequests_Ok _ _ _ Hindexed Hload) as (Hindexed' & _).
  rewrite Hrequests in Hadded. simpl in Hadded. rewrite Hadded.
  split; [exact Hsub|]. split.
  - intros request Hin Hnot. destruct (Hcover request Hin Hnot) as [index Hsome].
    destruct (Indexed_lookup _ _ _ _ Hindexed' Hsome) as (kept & Hkept & Hkey & _).
    exists kept. split; [|exact Hkey].
    rewrite <- Hadded. apply list_elem_of_lookup. eauto.
  - intros kept Hin. rewrite <- Hadded in Hin.
    by apply Hindexed' in Hin as [_ ?].
Qed.

Lemma addRequests_length (items : list Request) (this : RequestList) :
  length (requests this) <= length (requests (snd (addRequests items this)))
  /\ length (requests (snd (addRequests items this)))
     <= length (requests this) + length items.
Proof.
  revert this. induction items as [|item items IH]; intros this; simpl; [lia|].
  destruct (_addRequest_cases item this)
    as [[_ Hadd]|[(_ & _ & _ & Hadd)|(_ & _ & Hadd)]]; rewrite Hadd; simpl.
  - lia.
  - match goal with |- context [addRequests items ?t] => specialize (IH t) end.
    simpl in IH. rewrite length_app in IH. simpl in IH. lia.
  - specialize (IH this). lia.
Qed.

(** X8.  The counts that [_addRequestsFromUrl] logs add up: in every "list
    fetched" event of a load, successful or not, [fetchedCount] is not zero
    and [importedCount + duplicateCount = fetchedCount], so no count is
    negative. *)
Theorem loadSources_log_counts (srcs : list Source) (this : RequestList)
    (fetchedCount importedCount duplicateCount : nat) :
  ListFetched fetchedCount importedCount duplicateCount
    ∈ snd (loadSources srcs this) ->
  0 < fetchedCount /\ importedCount + duplicateCount = fetchedCount.
Proof.
  revert this. induction srcs as [|source srcs IH]; intros this; simpl.
  - intros Hin. inversion Hin.
  - destruct source as [request|fetched].
    + destruct (_addRequest request this) as [[[]|e] this1]; simpl.
      * destruct (loadSources srcs this1) as [[result this2] log2] eqn:Erest.
        simpl. intros Hin. apply (IH this1). by rewrite Erest.
      * intros Hin. inversion Hin.
    + unfold _addRequestsFromUrl.
      destruct fetched as [[|url urlsArr]|].
      * destruct (loadSources srcs this) as [[result this2] log2] eqn:Erest.
        simpl. intros Hin. apply elem_of_cons in Hin as [Hin|Hin];
          [discriminate|].
        apply (IH this). by rewrite Erest.
      * pose proof (addRequests_length (url :: urlsArr) this) as Hlength.
        destruct (addRequests (url :: urlsArr) this) as [[[]|e] this1].
        -- destruct (loadSources srcs this1) as [[result this2] log2] eqn:Erest.
           simpl. intros Hin. apply elem_of_cons in Hin as [Hin|Hin].
           ++ injection Hin as -> -> ->. simpl in Hlength. lia.
           ++ apply (IH this1). by rewrite Erest.
        -- simpl. intros Hin. apply list_elem_of_singleton in Hin. discriminate.
      * simpl. intros Hin. apply list_elem_of_singleton in Hin. discriminate.
Qed.

(** ** Looking requests up, fetching and reclaiming *)

(** X9.  On every initialized list the index is the inverse of the array:
    looking a loaded request up by its key,
    [this.requests[this.uniqueKeyToIndex[uniqueKey]]], gives that very
    request; whatever a lookup gives is a loaded request with that key; and
    a key that no loaded request has gives [undefined]. *)
Theorem requestOfKey_round_trip (this : RequestList) :
  reachable this ->
  (forall request, request ∈ requests this ->
     requestOfKey this (uniqueKey request) = FetchedRequest request)
  /\ (forall key request,
        requestOfKey this key = FetchedRequest request ->
        uniqueKey request = key /\ request ∈ requests this)
  /\ (forall key,
        (forall request, request ∈ requests this -> uniqueKey request <> key) ->
        requestOfKey this key = FetchedUndefined).
Proof.
  intros Hreach. apply reachable_Consistent in Hreach as Hcons.
  pose proof (consistent_indexed _ Hcons) as Hindexed.
  split; [|split].
  - intros request Hin.
    destruct (Indexed_elem _ _ _ Hindexed Hin) as (index & Hindex & Hrequest).
    unfold requestOfKey. apply js_get_own in Hindex. by rewrite Hindex, Hrequest.
  - intros key request. unfold requestOfKey, js_get.
    destruct (uniqueKeyToIndex this !! key) as [index|] eqn:Hindex.
    + destruct (Indexed_lookup _ _ _ _ Hindexed Hindex)
        as (found & Hfound & Hkey & _).
      rewrite Hfound. intros [= <-]. split; [exact Hkey|].
      apply list_elem_of_lookup. eauto.
    + destruct (isInherited key); discriminate.
  - intros key Hunknown. unfold requestOfKey, js_get.
    destruct (uniqueKeyToIndex this !! key) as [index|] eqn:Hindex.
    + destruct (Indexed_lookup _ _ _ _ Hindexed Hindex)
        as (found & Hfound & Hkey & _).
      exfalso. apply (Hunknown found); [|exact Hkey].
      apply list_elem_of_lookup. eauto.
    + by destruct (isInherited key).
Qed.

(** X10.  Reclaiming and fetching undo each other: on a consistent list with
    nothing reclaimed, [reclaimRequest] of an in-progress request succeeds,
    the next [fetchNextRequest] returns the loaded request with that key (not
    the next new one), and the list is then exactly as before the reclaim. *)
Theorem reclaim_then_fetch (this : RequestList) (request : Request) :
  Consistent this ->
  reclaimed this = ∅ ->
  uniqueKey request ∈ inProgress this ->
  exists this' loaded,
    reclaimRequest request this = (Ok tt, this')
    /\ loaded ∈ requests this
    /\ uniqueKey loaded = uniqueKey request
    /\ fetchNextRequest this' = (Ok (FetchedRequest loaded), this).
Proof.
  intros Hcons Hnone Hin.
  assert (uniqueKey request ∉ reclaimed this) as Hout
      by (rewrite Hnone; set_solver).
  pose proof (reclaimRequest_succeeds this request Hcons Hin Hout) as Hreclaim.
  destruct (Consistent_inProgress_valid _ _ Hcons Hin)
    as (index & loaded & Hindex & Hloaded & Hkey & Hne & _).
  eexists. exists loaded. split; [exact Hreclaim|].
  split; [apply list_elem_of_lookup; eauto|]. split; [exact Hkey|].
  rewrite (fetchNextRequest_only_reclaimed _ (uniqueKey request)).
  - unfold requestOfKey. simpl. apply js_get_own in Hindex.
    rewrite Hindex, Hloaded. f_equal. rewrite <- Hnone. by destruct this.
  - exact (consistent_initialized _ Hcons).
  - simpl. rewrite Hnone. set_solver.
  - exact Hne.
Qed.

(** X11.  [isEmpty()] does what its comment says, "Returns true if the next
    call to fetchNextRequest() will return null, otherwise it returns false":
    on a consistent list, when [isEmpty()] is true the next
    [fetchNextRequest()] returns [null] and changes nothing, and when
    [nextIndex] is not [NaN] the converse holds too. *)
Theorem isEmpty_iff_fetch_null (this : RequestList) :
  Consistent this ->
  (isEmpty this = Ok true -> fetchNextRequest this = (Ok FetchedNull, this))
  /\ (nextIndex this <> JsNaN ->
      fst (fetchNextRequest this) = Ok FetchedNull ->
      isEmpty this = Ok true).
Proof.
  intros Hcons. unfold isEmpty, _ensureIsInitialized.
  rewrite (consistent_initialized _ Hcons).
  destruct (fetchNextRequest_cases this Hcons)
    as [(key & index & request & Hfirst & Hin & _ & _ & _ & Hrun)
       |[(Hnone & z & request & Hz & Hrange & _ & Hrun)
        |(Hnone & Hlt & Hrun)]]; rewrite Hrun.
  - assert (key ∈ inProgress this) as Hin'
        by (by apply (consistent_reclaimed _ Hcons)).
    destruct (Consistent_inProgress_valid _ _ Hcons Hin')
      as (_i & _r & _ & _ & _ & Hne & _).
    apply string_truthy_true in Hne. rewrite Hfirst. simpl. rewrite Hne.
    split; [discriminate|]. intros _. discriminate.
  - rewrite Hnone, getFirstKey_empty, Hz. simpl.
    destruct (Z.leb_spec (Z.of_nat (length (requests this))) z); [lia|].
    split; [discriminate|]. intros _. discriminate.
  - split; [reflexivity|]. intros Hnan _.
    rewrite Hnone, getFirstKey_empty. simpl.
    destruct (consistent_cursor _ Hcons) as [Hcursor|(z & Hz & Hrange)];
      [contradiction|].
    rewrite Hz in *. simpl in *. do 2 f_equal. apply Z.leb_le.
    apply Z.ltb_ge in Hlt. lia.
Qed.

Lemma fetchedRequests_cons (one : Fetched) (others : list Fetched) :
  fetchedRequests (one :: others) =
    match one with
    | FetchedRequest request => request :: fetchedRequests others
    | _ => fetchedRequests others
    end.
Proof. by destruct one. Qed.

Lemma fetchMany_available (n : nat) (this : RequestList) :
  Consistent this ->
  NoDup (uniqueKey <$> fetchedRequests (fst (fetchMany n this)))
  /\ forall request, request ∈ fetchedRequests (fst (fetchMany n this)) ->
       request ∈ requests this /\ available this (uniqueKey request).
Proof.
  revert this. induction n as [|n IH]; intros this Hcons.
  - simpl. split; [constructor|]. intros request Hin. inversion Hin.
  - rewrite fetchMany_S.
    destruct (fetchNextRequest_cases this Hcons)
      as [(key & index & request & _ & Hin & Hindex & Hrequest & Hkey & Hrun)
         |[(Hnone & z & request & Hz & Hrange & Hrequest & Hrun)
          |(_ & _ & Hrun)]]; rewrite Hrun; simpl fst;
      rewrite fetchedRequests_cons.
    + set (this' := set_reclaimed _ this) in *.
      assert (Consistent this') as Hcons'
          by (eapply fetchNextRequest_Consistent; eauto).
      destruct (IH this' Hcons') as [Hnodup Hall].
      assert (forall other, available this' other -> available this other)
        as Hweaken.
      { intros other [Hother|Hother]; [left|right; exact Hother].
        simpl in Hother. by apply elem_of_dict_delete in Hother as [? _]. }
      split.
      * simpl. constructor; [|exact Hnodup].
        intros Hagain. apply list_elem_of_fmap in Hagain as (other & Hsame & Hother).
        destruct (Hall other Hother) as [_ [Hre|(i & Hi & Hge)]].
        -- simpl in Hre. apply elem_of_dict_delete in Hre as [_ Hne]. congruence.
        -- simpl in Hi, Hge.
           assert (key ∈ inProgress this) as Hin'
               by (by apply (consistent_reclaimed _ Hcons)).
           destruct (consistent_inProgress _ Hcons key Hin') as (j & Hj & Hlt).
           rewrite <- Hsame, Hkey in Hi. congruence.
      * intros other Hother. apply elem_of_cons in Hother as [->|Hother].
        -- split; [apply list_elem_of_lookup; eauto|]. left. by rewrite Hkey.
        -- destruct (Hall other Hother) as [Hloaded Havailable]. auto.
    + set (this' := set_isStatePersisted false _) in *.
      assert (Consistent this') as Hcons'
          by (eapply fetchNextRequest_Consistent; eauto).
      destruct (IH this' Hcons') as [Hnodup Hall].
      assert (uniqueKeyToIndex this !! uniqueKey request = Some (Z.to_nat z))
        as Hindex by (apply (consistent_indexed _ Hcons); eauto).
      split.
      * simpl. constructor; [|exact Hnodup].
        intros Hagain. apply list_elem_of_fmap in Hagain as (other & Hsame & Hother).
        destruct (Hall other Hother) as [_ [Hre|(i & Hi & Hge)]].
        -- simpl in Hre. rewrite Hnone in Hre. set_solver.
        -- simpl in Hi, Hge. rewrite <- Hsame, Hindex in Hi.
           injection Hi as <-. apply Z.leb_le in Hge. lia.
      * intros other Hother. apply elem_of_cons in Hother as [->|Hother].
        -- split; [apply list_elem_of_lookup; eauto|]. right.
           exists (Z.to_nat z). split; [exact Hindex|].
           rewrite Hz. simpl. apply Z.leb_le. lia.
        -- destruct (Hall other Hother) as [Hloaded [Hre|(i & Hi & Hge)]].
           ++ simpl in Hre. rewrite Hnone in Hre. set_solver.
           ++ split; [exact Hloaded|]. right. exists i. split; [exact Hi|].
              simpl in Hge. rewrite Hz. simpl. apply Z.leb_le in Hge.
              apply Z.leb_le. lia.
    + by apply IH.
Qed.

(** X12.  No request is handed out twice: on a consistent list, the requests
    that any number of [fetchNextRequest()] calls in a row return, with no
    [reclaimRequest] between them, are loaded requests with pairwise
    different keys. *)
Theorem fetchMany_no_double_dispatch (n : nat) (this : RequestList) :
  Consistent this ->
  NoDup (uniqueKey <$> fetchedRequests (fst (fetchMany n this)))
  /\ forall request, request ∈ fetchedRequests (fst (fetchMany n this)) ->
       request ∈ requests this.
Proof.
  intros Hcons. destruct (fetchMany_available n this Hcons) as [Hnodup Hall].
  split; [exact Hnodup|]. intros request Hin. by apply Hall.
Qed.

Lemma steps_handled (this this' : RequestList) (key : string) :
  Consistent this -> handled this key -> steps this this' ->
  handled this' key.
Proof.
  intros Hcons Hhandled Hsteps.
  induction Hsteps as [this
                 |this this' result this'' Hsteps IH Hrun
                 |request this this' result this'' Hsteps IH Hrun
                 |request this this' result this'' Hsteps IH Hrun
                 |setValueOk this this' result this'' log Hsteps IH Hrun].
  - exact Hhandled.
  - specialize (IH Hcons Hhandled).
    pose proof (steps_Consistent _ _ Hcons Hsteps) as Hcons'.
    destruct IH as (Hout & index & Hindex & Hbefore).
    destruct (fetchNextRequest_cases this' Hcons')
      as [(k & i & found & _ & _ & _ & _ & _ & Hrun')
         |[(_ & z & request & Hz & Hrange & Hrequest & Hrun')|(_ & _ & Hrun')]];
      rewrite Hrun' in Hrun; injection Hrun as _ Heq; subst this''.
    + split; [exact Hout|]. exists index. auto.
    + rewrite Hz in Hbefore. simpl in Hbefore. apply Z.leb_gt in Hbefore.
      split.
      * simpl. intros Hin. apply elem_of_union in Hin as [Hin|Hin];
          [|contradiction].
        apply elem_of_singleton in Hin.
        assert (uniqueKeyToIndex this' !! uniqueKey request = Some (Z.to_nat z))
          as Hat by (apply (consistent_indexed _ Hcons'); eauto).
        rewrite <- Hin, Hindex in Hat. injection Hat as ->. lia.
      * exists index. split; [exact Hindex|]. simpl. apply Z.leb_gt. lia.
    + split; [exact Hout|]. exists index. auto.
  - specialize (IH Hcons Hhandled). destruct IH as (Hout & index & Hindex & Hbefore).
    destruct result as [[]|e].
    + apply markRequestHandled_Ok in Hrun as (_ & _ & _ & _ & _ & ->).
      split; [simpl; set_solver|]. exists index. auto.
    + apply markRequestHandled_Throw in Hrun as ->.
      split; [exact Hout|]. exists index. auto.
  - specialize (IH Hcons Hhandled). destruct IH as (Hout & index & Hindex & Hbefore).
    destruct result as [[]|e].
    + apply reclaimRequest_Ok in Hrun as (_ & _ & _ & _ & _ & ->).
      split; [exact Hout|]. exists index. auto.
    + apply reclaimRequest_Throw in Hrun as ->.
      split; [exact Hout|]. exists index. auto.
  - specialize (IH Hcons Hhandled). destruct IH as (Hout & index & Hindex & Hbefore).
    apply emitPersistState_cases in Hrun as [->| ->];
      (split; [exact Hout|]; exists index; auto).
Qed.

(** X13.  Handled is final: once [markRequestHandled] has succeeded for a
    request on a consistent list, then whatever calls and events follow, its
    key is not in progress, no [fetchNextRequest] returns a request with
    that key again, and [markRequestHandled] and [reclaimRequest] for it
    throw "not being processed". *)
Theorem handled_is_final (this this1 this2 : RequestList) (request : Request) :
  Consistent this ->
  markRequestHandled request this = (Ok tt, this1) ->
  steps this1 this2 ->
  (uniqueKey request ∉ inProgress this2)
  /\ (forall again this3,
        fetchNextRequest this2 = (Ok (FetchedRequest again), this3) ->
        uniqueKey again <> uniqueKey request)
  /\ markRequestHandled request this2 = (Throw NotBeingProcessed, this2)
  /\ reclaimRequest request this2 = (Throw NotBeingProcessed, this2).
Proof.
  intros Hcons Hmark Hsteps.
  assert (Consistent this1) as Hcons1
      by (eapply markRequestHandled_Consistent; eauto).
  apply markRequestHandled_Ok in Hmark as (Hne & Hin & _ & Hown & _ & ->).
  destruct (consistent_inProgress _ Hcons _ Hin) as (index & Hindex & Hbefore).
  assert (handled (set_isStatePersisted false
                     (set_inProgress
                        (inProgress this ∖ {[ uniqueKey request ]}) this))
            (uniqueKey request)) as Hhandled.
  { split; [simpl; set_solver|]. exists index. auto. }
  pose proof (steps_Consistent _ _ Hcons1 Hsteps) as Hcons2.
  destruct (steps_handled _ _ _ Hcons1 Hhandled Hsteps)
    as (Hout & index2 & Hindex2 & Hbefore2).
  split; [exact Hout|]. split.
  - intros again this3 Hfetch Hsame.
    destruct (fetchNextRequest_cases this2 Hcons2)
      as [(k & i & found & _ & Hre & _ & _ & Hkey & Hrun)
         |[(_ & z & found & Hz & Hrange & Hfound & Hrun)|(_ & _ & Hrun)]];
      rewrite Hrun in Hfetch; [injection Hfetch as <- _..|discriminate].
    + apply Hout. rewrite <- Hsame, Hkey.
      by apply (consistent_reclaimed _ Hcons2).
    + assert (uniqueKeyToIndex this2 !! uniqueKey found = Some (Z.to_nat z))
        as Hat by (apply (consistent_indexed _ Hcons2); eauto).
      rewrite Hsame, Hindex2 in Hat. injection Hat as ->.
      rewrite Hz in Hbefore2. simpl in Hbefore2. apply Z.leb_gt in Hbefore2. lia.
  - apply string_truthy_true in Hne.
    unfold markRequestHandled, reclaimRequest, ensureUniqueKeyValid,
      _ensureInProgressAndNotReclaimed.
    rewrite Hne, (dict_truthy_own _ _ Hown).
    rewrite (bool_decide_eq_false_2 _ Hout). split; reflexivity.
Qed.

(** ** From the first request to the last *)

Lemma fetchMany_keeps_Consistent (n : nat) (this : RequestList) :
  Consistent this -> Consistent (snd (fetchMany n this)).
Proof.
  revert this. induction n as [|n IH]; intros this Hcons; [exact Hcons|].
  rewrite fetchMany_S.
  destruct (fetchNextRequest this) as [[fetched|e] this'] eqn:Efetch; simpl.
  - apply IH. eapply fetchNextRequest_Consistent; eassumption.
  - eapply fetchNextRequest_Consistent; eassumption.
Qed.

Lemma initialize_without_state (srcs : list Source)
    (persistStateKey : option string) (state : option State)
    (stored : Settled (option State)) (this : RequestList)
    (log : list LogEvent) :
  initialize (RequestList_constructor srcs persistStateKey state stored)
    = (Ok tt, this, log) ->
  initialStatePromise
    (RequestList_constructor srcs persistStateKey state stored)
    = Resolved None ->
  nextIndex this = JsInt 0 /\ inProgress this = ∅ /\ reclaimed this = ∅
  /\ isStatePersisted this = true.
Proof.
  intros Hinit Hpromise.
  destruct (initialize_Ok_inv _ _ _ _ _ _ Hinit)
    as (loaded & log1 & initialState & this' & log2
        & _ & Hframe & Hpromise' & Hrestore & -> & _).
  rewrite Hpromise in Hpromise'. injection Hpromise' as <-.
  injection Hrestore as <- _. rewrite Hframe. auto.
Qed.

Lemma fetchMany_from_cursor_inProgress (m : nat) (this : RequestList) (z : Z) :
  Consistent this ->
  reclaimed this = ∅ ->
  nextIndex this = JsInt z ->
  (z + Z.of_nat m <= Z.of_nat (length (requests this)))%Z ->
  inProgress (snd (fetchMany m this))
  = list_to_set (uniqueKey <$> take m (drop (Z.to_nat z) (requests this)))
    ∪ inProgress this.
Proof.
  revert this z. induction m as [|m IH]; intros this z Hcons Hempty Hz Hrange.
  - simpl. set_solver.
  - rewrite fetchMany_S.
    destruct (fetchNextRequest_cases this Hcons)
      as [(key & i & r & _ & Hin & _)
         |[(_ & z' & request & Hz' & Hrange' & Hrequest & Hrun)
          |(_ & Hlt & _)]].
    + rewrite Hempty in Hin. set_solver.
    + assert (z' = z) as -> by congruence. rewrite Hrun. simpl snd.
      set (this' := set_isStatePersisted false _) in *.
      assert (Consistent this') as Hcons'
          by (eapply fetchNextRequest_Consistent; eauto).
      rewrite (IH this' (z + 1)%Z Hcons' Hempty eq_refl) by (simpl; lia).
      rewrite (drop_S _ request (Z.to_nat z)) by exact Hrequest.
      replace (Z.to_nat (z + 1)) with (S (Z.to_nat z)) by lia.
      simpl. set_solver.
    + rewrite Hz in Hlt. simpl in Hlt. lia.
Qed.

Lemma markAllHandled_Ok (done : list Request) (this : RequestList) :
  Consistent this ->
  reclaimed this = ∅ ->
  NoDup (uniqueKey <$> done) ->
  (forall request, request ∈ done -> uniqueKey request ∈ inProgress this) ->
  exists this',
    markAllHandled done this = (Ok tt, this')
    /\ Consistent this'
    /\ inProgress this'
       = inProgress this ∖ list_to_set (uniqueKey <$> done)
    /\ reclaimed this' = ∅
    /\ nextIndex this' = nextIndex this
    /\ requests this' = requests this.
Proof.
  revert this. induction done as [|request done IH];
    intros this Hcons Hnone Hnodup Hall.
  - exists this. simpl. split; [reflexivity|]. split; [exact Hcons|].
    split; [set_solver|]. auto.
  - simpl. apply NoDup_cons in Hnodup as [Hfresh Hnodup].
    assert (uniqueKey request ∈ inProgress this) as Hin by (apply Hall; left).
    assert (uniqueKey request ∉ reclaimed this) as Hout
        by (rewrite Hnone; set_solver).
    rewrite (markRequestHandled_succeeds this request Hcons Hin Hout).
    set (this1 := set_isStatePersisted false _).
    destruct (IH this1) as (this' & Hrun & Hcons' & Hprogress & Hre & Hcursor & Hreq).
    + by apply Consistent_markRequestHandled.
    + exact Hnone.
    + exact Hnodup.
    + intros other Hother. simpl. apply elem_of_difference.
      split; [apply Hall; by right|].
      intros Hsame. apply elem_of_singleton in Hsame.
      apply Hfresh. rewrite <- Hsame. apply list_elem_of_fmap. eauto.
    + exists this'. split; [exact Hrun|]. split; [exact Hcons'|].
      split; [|auto]. rewrite Hprogress. simpl. set_solver.
Qed.

(** X14.  A list initialized without a state hands out its requests in the
    order of the sources: the first [requests.length] calls of
    [fetchNextRequest()] return [requests[0]], [requests[1]], ... each once,
    the call after them returns [null], and [isEmpty()] is then true. *)
Theorem fresh_list_dispatch_order (srcs : list Source)
    (persistStateKey : option string) (state : option State)
    (stored : Settled (option State)) (this : RequestList)
    (log : list LogEvent) :
  initialize (RequestList_constructor srcs persistStateKey state stored)
    = (Ok tt, this, log) ->
  initialStatePromise
    (RequestList_constructor srcs persistStateKey state stored)
    = Resolved None ->
  exists this',
    fetchMany (length (requests this)) this
      = (FetchedRequest <$> requests this, this')
    /\ fetchNextRequest this' = (Ok FetchedNull, this')
    /\ isEmpty this' = Ok true.
Proof.
  intros Hinit Hpromise.
  pose proof (initialize_Consistent _ _ _ _ _ _ Hinit) as Hcons.
  destruct (initialize_without_state _ _ _ _ _ _ Hinit Hpromise)
    as (Hcursor & _ & Hnone & _).
  destruct (fetchMany_from_cursor (length (requests this)) this 0
              Hcons Hnone Hcursor)
    as (Hfetched & Hcursor' & Hnone' & Hrequests & _); [lia|].
  exists (snd (fetchMany (length (requests this)) this)).
  pose proof (fetchMany_keeps_Consistent (length (requests this)) this Hcons)
    as Hcons'.
  set (this' := snd (fetchMany _ this)) in *.
  split.
  - rewrite (surjective_pairing (fetchMany (length (requests this)) this)).
    fold this'. f_equal. rewrite Hfetched. simpl.
    by rewrite take_ge.
  - assert (isInitialized this' = true) as Hinitialized
        by exact (consistent_initialized _ Hcons').
    split.
    + apply fetchNextRequest_nothing; [exact Hinitialized|exact Hnone'|].
      rewrite Hcursor', Hrequests. simpl. apply Z.ltb_ge. lia.
    + rewrite isEmpty_nothing_reclaimed by assumption.
      rewrite Hcursor', Hrequests. simpl. do 2 f_equal. apply Z.leb_le. lia.
Qed.

(** X15.  A whole run ends finished: on a list initialized without a state,
    fetching [requests.length] times and then calling [markRequestHandled]
    for every loaded request succeeds each time and leaves nothing in
    progress, so that [isFinished()] and [isEmpty()] are both true. *)
Theorem fresh_list_finishes (srcs : list Source)
    (persistStateKey : option string) (state : option State)
    (stored : Settled (option State)) (this : RequestList)
    (log : list LogEvent) :
  initialize (RequestList_constructor srcs persistStateKey state stored)
    = (Ok tt, this, log) ->
  initialStatePromise
    (RequestList_constructor srcs persistStateKey state stored)
    = Resolved None ->
  exists this',
    markAllHandled (requests this)
      (snd (fetchMany (length (requests this)) this)) = (Ok tt, this')
    /\ inProgress this' = ∅
    /\ isFinished this' = Ok true
    /\ isEmpty this' = Ok true.
Proof.
  intros Hinit Hpromise.
  pose proof (initialize_Consistent _ _ _ _ _ _ Hinit) as Hcons.
  destruct (initialize_without_state _ _ _ _ _ _ Hinit Hpromise)
    as (Hcursor & Hidle & Hnone & _).
  destruct (fetchMany_from_cursor (length (requests this)) this 0
              Hcons Hnone Hcursor)
    as (_ & Hcursor' & Hnone' & Hrequests & _); [lia|].
  assert (0 + Z.of_nat (length (requests this))
          <= Z.of_nat (length (requests this)))%Z as Hall by lia.
  pose proof (fetchMany_from_cursor_inProgress (length (requests this)) this 0
                Hcons Hnone Hcursor Hall) as Hprogress.
  pose proof (fetchMany_keeps_Consistent (length (requests this)) this Hcons)
    as Hcons'.
  set (fetched := snd (fetchMany _ this)) in *.
  rewrite Hidle in Hprogress. simpl in Hprogress.
  rewrite take_ge in Hprogress by done.
  destruct (markAllHandled_Ok (requests this) fetched Hcons' Hnone')
    as (this' & Hrun & Hcons'' & Hprogress' & Hnone'' & Hcursor'' & Hrequests').
  { eapply Indexed_NoDup. exact (consistent_indexed _ Hcons). }
  { intros request Hin. rewrite Hprogress. apply elem_of_union. left.
    apply elem_of_list_to_set. apply list_elem_of_fmap. eauto. }
  exists this'. split; [exact Hrun|].
  assert (inProgress this' = ∅) as Hdone.
  { rewrite Hprogress', Hprogress. set_solver. }
  split; [exact Hdone|].
  pose proof (consistent_initialized _ Hcons'') as Hinitialized.
  rewrite isFinished_nothing_inProgress, isEmpty_nothing_reclaimed
    by assumption.
  rewrite Hcursor'', Hcursor', Hrequests', Hrequests. simpl.
  assert ((Z.of_nat (length (requests this))
           <=? 0 + Z.of_nat (length (requests this)))%Z = true) as ->
      by (apply Z.leb_le; lia).
  split; reflexivity.
Qed.

(** ** The state and its persistence *)

(** The restore of what [getState()] returns, into a new list built from
    the same sources. *)
Lemma restore_of_getState (old : RequestList)
    (persistStateKey : option string) (stored : Settled (option State)) :
  Consistent old ->
  exists snapshot new log,
    getState old = Ok snapshot
    /\ initialize
         (RequestList_constructor (sources old) persistStateKey
            (Some snapshot) stored) = (Ok tt, new, log)
    /\ requests new = requests old
    /\ uniqueKeyToIndex new = uniqueKeyToIndex old
    /\ nextIndex new = nextIndex old
    /\ inProgress new = inProgress old
    /\ reclaimed new = inProgress old
    /\ isInitialized new = true
    /\ isStatePersisted new = true
    /\ forall event, event ∈ log ->
         event ∈ snd (loadSources (sources old)
                        (set_isLoading true
                           (RequestList_constructor (sources old)
                              persistStateKey (Some snapshot) stored))).
Proof.
  intros Hcons.
  destruct (Consistent_getState old Hcons) as (nextUniqueKey & Hstate & Hcheck).
  set (snapshot := mkState _ _ _) in *.
  set (fresh := RequestList_constructor (sources old) persistStateKey
                  (Some snapshot) stored).
  assert (initialStatePromise fresh = Resolved (Some snapshot)) as Hpromise.
  { unfold fresh, RequestList_constructor. simpl. by rewrite andb_false_r. }
  destruct (loadedRequests_load (sources old) _ _ (set_isLoading true fresh)
              (consistent_loaded _ Hcons) eq_refl eq_refl) as (log1 & Hload).
  set (loaded := set_requests _ _) in Hload.
  destruct (initialize_restore (sources old) persistStateKey (Some snapshot)
              stored snapshot loaded log1 (nextIndex old) Hpromise Hload)
    as (del & Hrun & Hdel).
  { apply Hcheck. reflexivity. }
  { intros key Hin.
    destruct (consistent_inProgress _ Hcons key Hin) as (index & Hindex & _).
    simpl. eauto. }
  assert (del = []) as ->.
  { destruct del as [|key del]; [reflexivity|]. exfalso.
    destruct (proj1 (Hdel key)) as (Hin & i & Hi & Hge); [left|].
    destruct (consistent_inProgress _ Hcons key Hin) as (index & Hindex & Hlt).
    simpl in Hi. congruence. }
  simpl in Hrun. eexists. eexists. eexists.
  split; [exact Hstate|]. split; [exact Hrun|].
  do 7 (split; [reflexivity|]).
  intros event Hin. rewrite app_nil_r in Hin. fold fresh. by rewrite Hload.
Qed.

(** X16.  [getState()] survives a restart: restoring the state of a
    consistent list into a new list built from the same sources succeeds,
    logs no warning, and [getState()] of the new list returns that same
    state; the new list starts as persisted. *)
Theorem getState_round_trip (old : RequestList)
    (persistStateKey : option string) (stored : Settled (option State)) :
  Consistent old ->
  exists snapshot new log,
    getState old = Ok snapshot
    /\ initialize
         (RequestList_constructor (sources old) persistStateKey
            (Some snapshot) stored) = (Ok tt, new, log)
    /\ getState new = Ok snapshot
    /\ isStatePersisted new = true
    /\ forall deleteFromInProgress,
         InProgressNotConsistent deleteFromInProgress ∉ log.
Proof.
  intros Hcons.
  destruct (restore_of_getState old persistStateKey stored Hcons)
    as (snapshot & new & log & Hstate & Hinit & Hrequests & _ & Hcursor
        & Hprogress & _ & Hinitialized & Hpersisted & Hlog).
  exists snapshot, new, log. split; [exact Hstate|]. split; [exact Hinit|].
  split; [|split; [exact Hpersisted|]].
  - rewrite <- Hstate. unfold getState, _ensureIsInitialized.
    rewrite Hinitialized, (consistent_initialized _ Hcons).
    by rewrite Hrequests, Hcursor, Hprogress.
  - intros del Hin. apply Hlog in Hin. revert Hin.
    generalize (set_isLoading true
                  (RequestList_constructor (sources old) persistStateKey
                     (Some snapshot) stored)).
    generalize (sources old). clear. intros srcs.
    induction srcs as [|source srcs IH]; intros this; simpl.
    + intros Hin. inversion Hin.
    + destruct source as [request|fetched].
      * destruct (_addRequest request this) as [[[]|e] this1]; simpl.
        -- destruct (loadSources srcs this1) as [[result this2] log2] eqn:Erest.
           simpl. intros Hin. apply (IH this1). by rewrite Erest.
        -- intros Hin. inversion Hin.
      * unfold _addRequestsFromUrl. destruct fetched as [[|url urlsArr]|].
        -- destruct (loadSources srcs this) as [[result this2] log2] eqn:Erest.
           simpl. intros Hin. apply elem_of_cons in Hin as [Hin|Hin];
             [discriminate|].
           apply (IH this). by rewrite Erest.
        -- destruct (addRequests (url :: urlsArr) this) as [[[]|e] this1].
           ++ destruct (loadSources srcs this1) as [[result this2] log2] eqn:Erest.
              simpl. intros Hin. apply elem_of_cons in Hin as [Hin|Hin];
                [discriminate|].
              apply (IH this1). by rewrite Erest.
           ++ simpl. intros Hin. apply list_elem_of_singleton in Hin.
              discriminate.
        -- simpl. intros Hin. apply list_elem_of_singleton in Hin. discriminate.
Qed.

(** X17.  No change of the state made by a method goes unmarked: after
    [fetchNextRequest], [markRequestHandled] or [reclaimRequest], whatever
    the list, the argument and the result, either [getState()] returns what
    it returned before the call or [isStatePersisted] is false. *)
Theorem state_change_marks_dirty (this this' : RequestList) :
  (forall result,
      fetchNextRequest this = (result, this') ->
      getState this' = getState this \/ isStatePersisted this' = false)
  /\ (forall request result,
        markRequestHandled request this = (result, this') ->
        getState this' = getState this \/ isStatePersisted this' = false)
  /\ (forall request result,
        reclaimRequest request this = (result, this') ->
        getState this' = getState this \/ isStatePersisted this' = false).
Proof.
  split; [|split].
  - intros result. unfold fetchNextRequest.
    destruct (_ensureIsInitialized this); [|intros [= _ <-]; by left].
    destruct (ifTruthy _); [intros [= _ <-]; by left|].
    destruct (js_lt _ _); [|intros [= _ <-]; by left].
    destruct (js_index _ _); intros [= _ <-]; [by right|by left].
  - intros request [[]|e] Hrun.
    + apply markRequestHandled_Ok in Hrun as (_ & _ & _ & _ & _ & ->). by right.
    + apply markRequestHandled_Throw in Hrun as ->. by left.
  - intros request [[]|e] Hrun.
    + apply reclaimRequest_Ok in Hrun as (_ & _ & _ & _ & _ & ->). by left.
    + apply reclaimRequest_Throw in Hrun as ->. by left.
Qed.

(** X18.  The requests in progress are among those before the cursor: on a
    consistent list whose [nextIndex] is an integer, [inProgress] has at most
    [nextIndex] keys, and [reclaimed] has at most as many keys as
    [inProgress]. *)
Theorem inProgress_size_bound (this : RequestList) (z : Z) :
  Consistent this ->
  nextIndex this = JsInt z ->
  size (inProgress this) <= Z.to_nat z
  /\ size (reclaimed this) <= size (inProgress this).
Proof.
  intros Hcons Hz. split; [|apply subseteq_size, (consistent_reclaimed _ Hcons)].
  set (before := uniqueKey <$> take (Z.to_nat z) (requests this)).
  assert (inProgress this ⊆ list_to_set before) as Hsub.
  { intros key Hin.
    destruct (Consistent_inProgress_valid _ _ Hcons Hin)
      as (index & request & _ & Hrequest & Hkey & _ & _ & Hlt).
    rewrite Hz in Hlt. simpl in Hlt. apply Z.leb_gt in Hlt.
    apply elem_of_list_to_set. unfold before. apply list_elem_of_fmap.
    exists request. split; [by symmetry|].
    apply list_elem_of_lookup. exists index.
    rewrite lookup_take_lt by lia. exact Hrequest. }
  apply subseteq_size in Hsub.
  assert (NoDup before) as Hnodup.
  { apply (sublist_NoDup before (uniqueKey <$> requests this)).
    - exact (Indexed_NoDup _ _ (consistent_indexed _ Hcons)).
    - apply fmap_sublist, sublist_take. }
  rewrite (size_list_to_set before Hnodup) in Hsub.
  unfold before in Hsub. rewrite length_fmap, length_take in Hsub. lia.
Qed.

Lemma checkNextIndex_accepts (state : State) (this : RequestList) (n : JsNum) :
  state_nextIndex state = JsNumber n ->
  n = JsNaN
  \/ (exists z,
        n = JsInt z
        /\ (0 <= z <= Z.of_nat (length (requests this)))%Z
        /\ forall request,
             requests this !! Z.to_nat z = Some request ->
             state_nextUniqueKey state = JsString (uniqueKey request)) ->
  checkNextIndex state this = Ok n.
Proof.
  intros Hnumber Hn. unfold checkNextIndex. rewrite Hnumber.
  destruct Hn as [->|(z & -> & Hrange & Hkey)]; [reflexivity|]. simpl.
  destruct (Z.ltb_spec z 0); [lia|].
  destruct (Z.ltb_spec (Z.of_nat (length (requests this))) z); [lia|].
  destruct (Z.ltb_spec z (Z.of_nat (length (requests this)))); [|reflexivity].
  destruct (Z.leb_spec 0 z); [|lia].
  assert (is_Some (requests this !! Z.to_nat z)) as [request Hrequest]
      by (apply lookup_lt_is_Some; lia).
  rewrite Hrequest, (Hkey request Hrequest).
  by rewrite bool_decide_eq_true_2.
Qed.

(** X19.  What a restore accepts, once the sources are loaded: [initialize]
    succeeds exactly when [state.nextIndex] is [NaN] or an integer from 0 to
    [requests.length] such that the request at that position, if there is
    one, has the key [state.nextUniqueKey], and every key of
    [state.inProgress] is the key of a loaded request.  At
    [nextIndex = requests.length] nothing is compared with
    [state.nextUniqueKey]. *)
Theorem restore_accepts_iff (srcs : list Source)
    (persistStateKey : option string) (optState : option State)
    (stored : Settled (option State)) (state : State) (loaded : RequestList)
    (log1 : list LogEvent) :
  initialStatePromise
    (RequestList_constructor srcs persistStateKey optState stored)
    = Resolved (Some state) ->
  loadSources srcs
    (set_isLoading true
       (RequestList_constructor srcs persistStateKey optState stored))
    = (Ok tt, loaded, log1) ->
  isOk (fst (fst (initialize
                    (RequestList_constructor srcs persistStateKey optState
                       stored)))) = true
  <->
  (exists n,
      state_nextIndex state = JsNumber n
      /\ (n = JsNaN
          \/ exists z,
               n = JsInt z
               /\ (0 <= z <= Z.of_nat (length (requests loaded)))%Z
               /\ forall request,
                    requests loaded !! Z.to_nat z = Some request ->
                    state_nextUniqueKey state = JsString (uniqueKey request)))
  /\ forall key, key ∈ state_inProgress state ->
       exists request, request ∈ requests loaded /\ uniqueKey request = key.
Proof.
  intros Hpromise Hload.
  assert (Indexed (requests loaded) (uniqueKeyToIndex loaded)) as Hindexed.
  { eapply loadSources_Indexed; [|exact Hload]. apply Indexed_empty. }
  split.
  - intros Hok.
    rewrite initialize_unfold in Hok by reflexivity.
    change (sources (RequestList_constructor srcs persistStateKey optState stored))
      with srcs in Hok.
    rewrite Hload in Hok.
    pose proof (loadSources_self_frame srcs
                  (set_isLoading true
                     (RequestList_constructor srcs persistStateKey optState
                        stored))) as Hframe.
    rewrite Hload in Hframe. simpl in Hframe.
    assert (initialStatePromise loaded = Resolved (Some state)) as Hloaded
        by (rewrite Hframe; exact Hpromise).
    rewrite Hloaded in Hok.
    destruct (restoreState_cases state loaded)
      as [(e & _ & Hrun)|[(n & _ & _ & Hrun)|(n & del & Hcheck & Hknown & _ & Hrun)]];
      rewrite Hrun in Hok; try discriminate.
    apply checkNextIndex_Ok in Hcheck as (Hnumber & Hrange & Hkey). split.
    + exists n. split; [exact Hnumber|].
      destruct Hrange as [->|(z & -> & Hrange)]; [by left|right].
      exists z. split; [reflexivity|]. split; [exact Hrange|].
      intros request Hrequest.
      pose proof (lookup_lt_Some _ _ _ Hrequest) as Hlt.
      destruct Hkey as (found & Hfound & Hsame).
      { simpl. apply Z.ltb_lt. lia. }
      apply js_index_Some in Hfound as (z' & [= <-] & _ & Hfound). congruence.
    + intros key Hin. destruct (Hknown key Hin) as [index Hindex].
      destruct (Indexed_lookup _ _ _ _ Hindexed Hindex)
        as (request & Hrequest & Hkey' & _).
      exists request. split; [|exact Hkey'].
      apply list_elem_of_lookup. eauto.
  - intros [(n & Hnumber & Hn) Hknown].
    pose proof (checkNextIndex_accepts state loaded n Hnumber Hn) as Hcheck.
    destruct (initialize_restore srcs persistStateKey optState stored state
                loaded log1 n Hpromise Hload Hcheck) as (del & Hrun & _).
    + intros key Hin. destruct (Hknown key Hin) as (request & Hr & Hkey).
      destruct (Indexed_elem _ _ _ Hindexed Hr) as (i & Hi & _).
      rewrite Hkey in Hi. eauto.
    + by rewrite Hrun.
Qed.

End FurtherProofs.

(** ** The further properties at the example lists *)

Lemma abcListFetched_reachable :
  reachable (H := firstElement_FirstKey) abcListFetched.
Proof.
  eapply reachable_fetchNextRequest
    with (result := Ok (FetchedRequest requestB)).
  - eapply reachable_fetchNextRequest
      with (result := Ok (FetchedRequest requestA)).
    + apply abcList_reachable.
    + vm_compute. reflexivity.
  - vm_compute. reflexivity.
Qed.

Lemma abcList_steps :
  steps (H := firstElement_FirstKey) abcList abcListReclaimedA.
Proof.
  eapply steps_reclaimRequest with (request := requestA) (result := Ok tt).
  - eapply steps_fetchNextRequest
      with (result := Ok (FetchedRequest requestB)).
    + eapply steps_fetchNextRequest
        with (result := Ok (FetchedRequest requestA)).
      * apply steps_none.
      * vm_compute. reflexivity.
    + vm_compute. reflexivity.
  - vm_compute. reflexivity.
Qed.

Lemma abcList_Consistent : Consistent abcList.
Proof.
  exact (reachable_Consistent (H := firstElement_FirstKey) _ abcList_reachable).
Qed.

Lemma abcListFetched_Consistent : Consistent abcListFetched.
Proof.
  exact (reachable_Consistent (H := firstElement_FirstKey) _
           abcListFetched_reachable).
Qed.

Lemma abcListReclaimedA_Consistent : Consistent abcListReclaimedA.
Proof.
  exact (reachable_Consistent (H := firstElement_FirstKey) _
           abcListReclaimedA_reachable).
Qed.

Lemma steps_keep_requests_witness :
  steps (H := firstElement_FirstKey) abcList abcListReclaimedA
  /\ requests abcListReclaimedA = requests abcList
  /\ uniqueKeyToIndex abcListReclaimedA = uniqueKeyToIndex abcList
  /\ RequestList_length abcListReclaimedA = RequestList_length abcList
  /\ sources abcListReclaimedA = sources abcList
  /\ persistStateKey abcListReclaimedA = persistStateKey abcList.
Proof.
  split; [exact abcList_steps|].
  exact (steps_keep_requests (H := firstElement_FirstKey) abcList
           abcListReclaimedA abcList_steps).
Defined.

Lemma steps_nextIndex_monotone_witness :
  Consistent abcList
  /\ steps (H := firstElement_FirstKey) abcList abcListReclaimedA
  /\ nextIndex abcList = JsInt 0
  /\ exists z',
       nextIndex abcListReclaimedA = JsInt z'
       /\ (0 <= z' <= Z.of_nat (length (requests abcList)))%Z.
Proof.
  split; [exact abcList_Consistent|]. split; [exact abcList_steps|].
  split; [reflexivity|].
  exact (steps_nextIndex_monotone (H := firstElement_FirstKey) abcList
           abcListReclaimedA 0 abcList_Consistent abcList_steps eq_refl).
Defined.

Lemma initialize_twice_witness :
  reachable (H := firstElement_FirstKey) abcListReclaimedA
  /\ initialize abcListReclaimedA
     = (Throw AlreadyLoading, abcListReclaimedA, []).
Proof.
  split; [exact abcListReclaimedA_reachable|].
  exact (initialize_twice (H := firstElement_FirstKey) abcListReclaimedA
           abcListReclaimedA_reachable).
Defined.

Lemma methods_throw_unchanged_witness :
  markRequestHandled requestC abcListFetched
  = (Throw NotBeingProcessed, snd (markRequestHandled requestC abcListFetched))
  /\ snd (markRequestHandled requestC abcListFetched) = abcListFetched.
Proof.
  assert (markRequestHandled requestC abcListFetched
          = (Throw NotBeingProcessed,
             snd (markRequestHandled requestC abcListFetched))) as Hthrow
      by (vm_compute; reflexivity).
  split; [exact Hthrow|].
  exact (proj1 (proj2 (methods_throw_unchanged (H := firstElement_FirstKey)
                         abcListFetched
                         (snd (markRequestHandled requestC abcListFetched))
                         NotBeingProcessed))
           requestC Hthrow).
Defined.

Lemma initialize_failed_unusable_witness :
  initialize driftedList = (Throw OrderChanged, driftedFailed, [])
  /\ isInitialized driftedFailed = false
  /\ initialize driftedFailed = (Throw AlreadyLoading, driftedFailed, [])
  /\ fetchNextRequest (H := firstElement_FirstKey) driftedFailed
     = (Throw NotInitialized, driftedFailed)
  /\ markRequestHandled requestA driftedFailed
     = (Throw NotBeingProcessed, driftedFailed).
Proof.
  assert (initialize driftedList = (Throw OrderChanged, driftedFailed, []))
    as Hinit by (vm_compute; reflexivity).
  destruct (initialize_failed_unusable (H := firstElement_FirstKey)
              abcSources None (Some driftedState) Rejected driftedFailed
              OrderChanged [] Hinit)
    as (Hnot & Htwice & _ & _ & _ & Hfetch & Hmark).
  split; [exact Hinit|]. split; [exact Hnot|]. split; [exact Htwice|].
  split; [exact Hfetch|]. exact (proj1 (Hmark requestA)).
Defined.

Lemma loadSources_keeps_order_witness :
  requests duplicateLoaded `sublist_of` sourceRequests duplicateSources
  /\ (forall request, request ∈ sourceRequests duplicateSources ->
        isInherited (uniqueKey request) = false ->
        exists kept, kept ∈ requests duplicateLoaded
                     /\ uniqueKey kept = uniqueKey request)
  /\ (forall kept, kept ∈ requests duplicateLoaded ->
        isInherited (uniqueKey kept) = false).
Proof.
  apply (loadSources_keeps_order duplicateSources
           (RequestList_constructor duplicateSources None None Rejected)
           duplicateLoaded [ListFetched 2 1 1]).
  - reflexivity.
  - reflexivity.
  - vm_compute. reflexivity.
Defined.

Lemma loadSources_log_counts_witness :
  ListFetched 2 1 1
    ∈ snd (loadSources duplicateSources
             (RequestList_constructor duplicateSources None None Rejected))
  /\ 0 < 2 /\ 1 + 1 = 2.
Proof.
  assert (ListFetched 2 1 1
            ∈ snd (loadSources duplicateSources
                     (RequestList_constructor duplicateSources None None
                        Rejected))) as Hin by (vm_compute; left).
  split; [exact Hin|].
  exact (loadSources_log_counts duplicateSources _ 2 1 1 Hin).
Defined.

Lemma requestOfKey_round_trip_witness :
  reachable (H := firstElement_FirstKey) abcListReclaimedA
  /\ (forall request, request ∈ requests abcListReclaimedA ->
        requestOfKey abcListReclaimedA (uniqueKey request)
        = FetchedRequest request).
Proof.
  split; [exact abcListReclaimedA_reachable|].
  exact (proj1 (requestOfKey_round_trip (H := firstElement_FirstKey)
                  abcListReclaimedA abcListReclaimedA_reachable)).
Defined.

Lemma reclaim_then_fetch_witness :
  Consistent abcListFetched
  /\ reclaimed abcListFetched = ∅
  /\ uniqueKey requestA ∈ inProgress abcListFetched
  /\ exists this' loaded,
       reclaimRequest requestA abcListFetched = (Ok tt, this')
       /\ loaded ∈ requests abcListFetched
       /\ uniqueKey loaded = uniqueKey requestA
       /\ fetchNextRequest (H := firstElement_FirstKey) this'
          = (Ok (FetchedRequest loaded), abcListFetched).
Proof.
  assert (reclaimed abcListFetched = ∅) as Hnone by (vm_compute; reflexivity).
  assert (uniqueKey requestA ∈ inProgress abcListFetched) as Hin
      by (vm_compute; tauto).
  split; [exact abcListFetched_Consistent|]. split; [exact Hnone|].
  split; [exact Hin|].
  exact (reclaim_then_fetch (H := firstElement_FirstKey) abcListFetched
           requestA abcListFetched_Consistent Hnone Hin).
Defined.

Lemma abcListDispatched_Consistent : Consistent abcListDispatched.
Proof.
  apply (reachable_Consistent (H := firstElement_FirstKey)).
  eapply reachable_fetchNextRequest
    with (result := Ok (FetchedRequest requestC)).
  - apply abcListFetched_reachable.
  - vm_compute. reflexivity.
Qed.

Lemma isEmpty_iff_fetch_null_witness :
  Consistent abcListDispatched
  /\ inProgress abcListDispatched = {[ "a"; "b"; "c" ]}
  /\ nextIndex abcListDispatched <> JsNaN
  /\ isEmpty (H := firstElement_FirstKey) abcListDispatched = Ok true
  /\ fetchNextRequest (H := firstElement_FirstKey) abcListDispatched
     = (Ok FetchedNull, abcListDispatched).
Proof.
  destruct (isEmpty_iff_fetch_null (H := firstElement_FirstKey)
              abcListDispatched abcListDispatched_Consistent)
    as (Hnull & Hempty).
  assert (nextIndex abcListDispatched <> JsNaN) as Hcursor
    by (vm_compute; discriminate).
  split; [exact abcListDispatched_Consistent|].
  split; [vm_compute; reflexivity|]. split; [exact Hcursor|]. split.
  - apply (Hempty Hcursor). vm_compute. reflexivity.
  - apply Hnull. vm_compute. reflexivity.
Defined.

Lemma fetchMany_no_double_dispatch_witness :
  Consistent abcListReclaimedA
  /\ fetchedRequests
       (fst (fetchMany (H := firstElement_FirstKey) 5 abcListReclaimedA))
     = [requestA; requestC]
  /\ NoDup (uniqueKey
              <$> fetchedRequests
                    (fst (fetchMany (H := firstElement_FirstKey) 5
                            abcListReclaimedA))).
Proof.
  split; [exact abcListReclaimedA_Consistent|].
  split; [vm_compute; reflexivity|].
  exact (proj1 (fetchMany_no_double_dispatch (H := firstElement_FirstKey) 5
                  abcListReclaimedA abcListReclaimedA_Consistent)).
Defined.

Lemma abcListHandledA_steps :
  steps (H := firstElement_FirstKey) abcListHandledA abcListHandledA_end.
Proof.
  eapply steps_persistState
    with (setValueOk := true) (result := Ok None) (log := []).
  - eapply steps_fetchNextRequest with (result := Ok FetchedNull).
    + eapply steps_fetchNextRequest
        with (this' := abcListHandledA_reclaim)
             (result := Ok (FetchedRequest requestB)).
      * eapply steps_reclaimRequest
          with (request := requestB) (this' := abcListHandledA_fetch)
               (result := Ok tt).
        -- eapply steps_fetchNextRequest
             with (this' := abcListHandledA)
                  (result := Ok (FetchedRequest requestC)).
           ++ apply steps_none.
           ++ vm_compute. reflexivity.
        -- vm_compute. reflexivity.
      * vm_compute. reflexivity.
    + vm_compute. reflexivity.
  - vm_compute. reflexivity.
Qed.

Lemma handled_is_final_witness :
  Consistent abcListFetched
  /\ markRequestHandled requestA abcListFetched = (Ok tt, abcListHandledA)
  /\ fetchNextRequest (H := firstElement_FirstKey) abcListHandledA
     = (Ok (FetchedRequest requestC), abcListHandledA_fetch)
  /\ reclaimRequest requestB abcListHandledA_fetch
     = (Ok tt, abcListHandledA_reclaim)
  /\ fetchNextRequest (H := firstElement_FirstKey) abcListHandledA_reclaim
     = (Ok (FetchedRequest requestB), abcListHandledA_refetch)
  /\ steps (H := firstElement_FirstKey) abcListHandledA abcListHandledA_end
  /\ inProgress abcListHandledA_end = {[ "b"; "c" ]}
  /\ (uniqueKey requestA ∉ inProgress abcListHandledA_end)
  /\ (forall again this3,
        fetchNextRequest (H := firstElement_FirstKey) abcListHandledA_end
        = (Ok (FetchedRequest again), this3) ->
        uniqueKey again <> uniqueKey requestA)
  /\ markRequestHandled requestA abcListHandledA_end
     = (Throw NotBeingProcessed, abcListHandledA_end)
  /\ reclaimRequest requestA abcListHandledA_end
     = (Throw NotBeingProcessed, abcListHandledA_end).
Proof.
  assert (markRequestHandled requestA abcListFetched
          = (Ok tt, abcListHandledA))
    as Hmark by (vm_compute; reflexivity).
  destruct (handled_is_final (H := firstElement_FirstKey) abcListFetched
              abcListHandledA abcListHandledA_end requestA
              abcListFetched_Consistent Hmark abcListHandledA_steps)
    as (Hout & Hfetch & Hagain & Hreclaim).
  split; [exact abcListFetched_Consistent|]. split; [exact Hmark|].
  split; [vm_compute; reflexivity|]. split; [vm_compute; reflexivity|].
  split; [vm_compute; reflexivity|]. split; [exact abcListHandledA_steps|].
  split; [vm_compute; reflexivity|]. split; [exact Hout|].
  split; [exact Hfetch|]. split; [exact Hagain|exact Hreclaim].
Defined.

Lemma abcList_initialize :
  initialize (RequestList_constructor abcSources None None Rejected)
  = (Ok tt, abcList, []).
Proof. vm_compute. reflexivity. Qed.

Lemma fresh_list_dispatch_order_witness :
  exists this',
    fetchMany (H := firstElement_FirstKey) (length (requests abcList)) abcList
      = (FetchedRequest <$> requests abcList, this')
    /\ fetchNextRequest (H := firstElement_FirstKey) this'
       = (Ok FetchedNull, this')
    /\ isEmpty (H := firstElement_FirstKey) this' = Ok true.
Proof.
  exact (fresh_list_dispatch_order (H := firstElement_FirstKey) abcSources
           None None Rejected abcList [] abcList_initialize eq_refl).
Defined.

Lemma fresh_list_finishes_witness :
  exists this',
    markAllHandled (requests abcList)
      (snd (fetchMany (H := firstElement_FirstKey)
              (length (requests abcList)) abcList)) = (Ok tt, this')
    /\ inProgress this' = ∅
    /\ isFinished (H := firstElement_FirstKey) this' = Ok true
    /\ isEmpty (H := firstElement_FirstKey) this' = Ok true.
Proof.
  exact (fresh_list_finishes (H := firstElement_FirstKey) abcSources
           None None Rejected abcList [] abcList_initialize eq_refl).
Defined.

Lemma getState_round_trip_witness :
  Consistent abcListReclaimedA
  /\ exists snapshot new log,
       getState abcListReclaimedA = Ok snapshot
       /\ initialize
            (RequestList_constructor (sources abcListReclaimedA) None
               (Some snapshot) Rejected) = (Ok tt, new, log)
       /\ getState new = Ok snapshot
       /\ isStatePersisted new = true
       /\ forall deleteFromInProgress,
            InProgressNotConsistent deleteFromInProgress ∉ log.
Proof.
  split; [exact abcListReclaimedA_Consistent|].
  exact (getState_round_trip abcListReclaimedA None Rejected
           abcListReclaimedA_Consistent).
Defined.

Lemma state_change_marks_dirty_witness :
  (isStatePersisted abcList = true
   /\ fetchNextRequest (H := firstElement_FirstKey) abcList
      = (Ok (FetchedRequest requestA),
         snd (fetchNextRequest (H := firstElement_FirstKey) abcList))
   /\ getState (snd (fetchNextRequest (H := firstElement_FirstKey) abcList))
      <> getState abcList
   /\ isStatePersisted
        (snd (fetchNextRequest (H := firstElement_FirstKey) abcList))
      = false)
  /\ (markRequestHandled requestA abcListFetched = (Ok tt, abcListHandledA)
      /\ getState abcListHandledA <> getState abcListFetched
      /\ isStatePersisted abcListHandledA = false)
  /\ (reclaimRequest requestA abcListFetched = (Ok tt, abcListReclaimedA)
      /\ (getState abcListReclaimedA = getState abcListFetched
          \/ isStatePersisted abcListReclaimedA = false)).
Proof.
  assert (fetchNextRequest (H := firstElement_FirstKey) abcList
          = (Ok (FetchedRequest requestA),
             snd (fetchNextRequest (H := firstElement_FirstKey) abcList)))
    as Hfetch by (vm_compute; reflexivity).
  assert (markRequestHandled requestA abcListFetched
          = (Ok tt, abcListHandledA))
    as Hmark by (vm_compute; reflexivity).
  assert (reclaimRequest requestA abcListFetched = (Ok tt, abcListReclaimedA))
    as Hreclaim by (vm_compute; reflexivity).
  assert (getState (snd (fetchNextRequest (H := firstElement_FirstKey)
                           abcList))
          <> getState abcList)
    as Hfetch_changed by (vm_compute; discriminate).
  assert (getState abcListHandledA <> getState abcListFetched)
    as Hmark_changed by (vm_compute; discriminate).
  split; [|split].
  - split; [vm_compute; reflexivity|]. split; [exact Hfetch|].
    split; [exact Hfetch_changed|].
    destruct (proj1 (state_change_marks_dirty (H := firstElement_FirstKey)
                       abcList
                       (snd (fetchNextRequest (H := firstElement_FirstKey)
                               abcList)))
                _ Hfetch) as [Hsame|Hdirty]; [done|exact Hdirty].
  - split; [exact Hmark|]. split; [exact Hmark_changed|].
    destruct (proj1 (proj2 (state_change_marks_dirty
                              (H := firstElement_FirstKey)
                              abcListFetched abcListHandledA))
                _ _ Hmark) as [Hsame|Hdirty]; [done|exact Hdirty].
  - split; [exact Hreclaim|].
    exact (proj2 (proj2 (state_change_marks_dirty
                           (H := firstElement_FirstKey)
                           abcListFetched abcListReclaimedA))
             _ _ Hreclaim).
Defined.

Lemma inProgress_size_bound_witness :
  Consistent abcListReclaimedA
  /\ nextIndex abcListReclaimedA = JsInt 2
  /\ size (inProgress abcListReclaimedA) <= Z.to_nat 2
  /\ size (reclaimed abcListReclaimedA) <= size (inProgress abcListReclaimedA).
Proof.
  split; [exact abcListReclaimedA_Consistent|]. split; [reflexivity|].
  exact (inProgress_size_bound abcListReclaimedA 2
           abcListReclaimedA_Consistent eq_refl).
Defined.

Lemma restore_accepts_iff_witness :
  isOk (fst (fst (initialize
                    (RequestList_constructor abcSources None
                       (Some skewedState) Rejected)))) = true
  /\ forall key, key ∈ state_inProgress skewedState ->
       exists request,
         request ∈ requests abcLoaded_loading /\ uniqueKey request = key.
Proof.
  assert (isOk (fst (fst (initialize
                            (RequestList_constructor abcSources None
                               (Some skewedState) Rejected)))) = true)
    as Hok by (vm_compute; reflexivity).
  split; [exact Hok|].
  exact (proj2 (proj1 (restore_accepts_iff abcSources None (Some skewedState)
                         Rejected skewedState abcLoaded_loading []
                         eq_refl eq_refl) Hok)).
Defined.
